(** * IoTex: device/state core, command queue, retry policy and MQTT machinery

    A shallow embedding of the TypeScript sources into Rocq, and the
    properties of section 8 of the specification proved over it.

    Conventions of the embedding:
    - a JavaScript string is the list of its UTF-16 code units;
    - a function that may throw returns [result], whose [Throw] carries the
      class of the error and the fixed part of its message;
    - a [Map] is an association list in insertion order;
    - a number is a double: a rational that binary64 rounding leaves as it
      is, [NaN] or an infinity, and arithmetic rounds as the machine does;
    - an object is its kind, its prototype and the finite map of its own
      data properties, and objects live in a heap so that aliasing and
      mutation can be observed. *)

From Stdlib Require Import ZArith NArith QArith Qround Qminmax Qpower Lia Lqa String Ascii.
From stdpp Require Import base option list gmap.

Local Open Scope nat_scope.

(** ** Results of functions that may throw *)

Inductive error_class := TypeError | RangeError | PlainError.

Inductive result (A : Type) :=
| Ok (a : A)
| Throw (c : error_class) (msg : string).
Arguments Ok {A} a.
Arguments Throw {A} c msg.

Definition rbind {A B} (r : result A) (k : A -> result B) : result B :=
  match r with
  | Ok a => k a
  | Throw c m => Throw c m
  end.

Notation "x <- r ;;; k" := (rbind r (fun x => k))
  (at level 100, r at next level, right associativity).

(** ** JavaScript strings *)

Module JsString.

(** A UTF-16 code unit. *)
Definition char16 := N.
Definition jsstring := list char16.

Definition of_ascii (a : ascii) : char16 := N_of_ascii a.

(** Literals are written as Rocq strings and converted. *)
Definition js (s : string) : jsstring := of_ascii <$> list_ascii_of_string s.

Definition SLASH : char16 := 47%N.
Definition HYPHEN : char16 := 45%N.

(** [WhiteSpace] and [LineTerminator] code points, the ones
    [String.prototype.trim] removes. *)
Definition isWhiteSpace (c : char16) : bool :=
  ((9 <=? c) && (c <=? 13) || (c =? 32) || (c =? 160) || (c =? 5760)
   || (8192 <=? c) && (c <=? 8202) || (c =? 8232) || (c =? 8233)
   || (c =? 8239) || (c =? 8287) || (c =? 12288) || (c =? 65279))%N.

(** Removing the longest run of units satisfying [p] at either end: the
    effect of replacing a match of [^p+] or [p+$] by the empty string. *)
Fixpoint dropWhileStart (p : char16 -> bool) (s : jsstring) : jsstring :=
  match s with
  | c :: s' => if p c then dropWhileStart p s' else s
  | [] => []
  end.

Definition dropWhileEnd (p : char16 -> bool) (s : jsstring) : jsstring :=
  reverse (dropWhileStart p (reverse s)).

Definition trim (s : jsstring) : jsstring :=
  dropWhileEnd isWhiteSpace (dropWhileStart isWhiteSpace s).

(** [s.trim().length === 0] *)
Definition isBlank (s : jsstring) : bool := length (trim s) =? 0.

(** [s.split(sep)] for a one-unit separator: never empty. *)
Fixpoint split (sep : char16) (s : jsstring) : list jsstring :=
  match s with
  | [] => [[]]
  | c :: s' =>
      if (c =? sep)%N then [] :: split sep s'
      else match split sep s' with
           | seg :: rest => (c :: seg) :: rest
           | [] => [[c]]
           end
  end.

Fixpoint startsWith (s p : jsstring) {struct p} : bool :=
  match p, s with
  | [], _ => true
  | a :: p', b :: s' => (a =? b)%N && startsWith s' p'
  | _ :: _, [] => false
  end.

(** [s.slice(n)] for [0 <= n]. *)
Definition slice (s : jsstring) (n : nat) : jsstring := drop n s.

Definition str_eqb (a b : jsstring) : bool := bool_decide (a = b).

(** [String.prototype.toLowerCase], unit by unit. The letters A-Z, and
    the two code points outside ASCII whose lower case contains an ASCII
    letter (KELVIN SIGN, and LATIN CAPITAL LETTER I WITH DOT ABOVE, which
    lowers to [i] and a combining dot), are lowered. Every other unit is
    kept: the cased letters among them lower to units that, like
    themselves, lie outside a-z, 0-9 and U+4E00..U+9FFF, the only ranges
    the callers modelled here tell apart. *)
Definition lowerUnit (c : char16) : jsstring :=
  if ((65 <=? c) && (c <=? 90))%N then [(c + 32)%N]
  else if (c =? 8490)%N then [107%N]
  else if (c =? 304)%N then [105%N; 775%N]
  else [c].

Definition toLowerCase (s : jsstring) : jsstring := s ≫= lowerUnit.

End JsString.
Import JsString.

(** ** JavaScript numbers

    A finite number is the rational it stands for and the three other
    values are kept apart; the doubles are the rationals that rounding
    leaves as they are. Comparisons, the integrality test and the floor are
    exact. Sums and products are rounded as IEEE 754 binary64 arithmetic
    rounds them: to the nearest double, the one with an even mantissa of two
    that are as near, to an infinity from [2^1024] on, and with the spacing
    [2^-1074] below [2^-1022]. The two zeros are not told apart. *)

Module JsNumber.

Inductive number :=
| Finite (q : Q)
| NaN
| PosInfinity
| NegInfinity.

Definition of_nat (n : nat) : number := Finite (inject_Z (Z.of_nat n)).

(** [Number.isInteger] and [Number.isFinite] *)
Definition isInteger (x : number) : bool :=
  match x with
  | Finite q => Qeq_bool (inject_Z (Qfloor q)) q
  | _ => false
  end.

Definition isFinite (x : number) : bool :=
  match x with Finite _ => true | _ => false end.

(** [x <= y] and [x < y]; a comparison with [NaN] is false. *)
Definition num_le (x y : number) : bool :=
  match x, y with
  | NaN, _ | _, NaN => false
  | Finite p, Finite q => Qle_bool p q
  | NegInfinity, _ | _, PosInfinity => true
  | _, _ => false
  end.

Definition num_lt (x y : number) : bool :=
  match x, y with
  | NaN, _ | _, NaN => false
  | Finite p, Finite q => negb (Qle_bool q p)
  | NegInfinity, NegInfinity | PosInfinity, PosInfinity => false
  | NegInfinity, _ | _, PosInfinity => true
  | _, _ => false
  end.

(** The integer a number holds when [isInteger] has been checked. *)
Definition to_Z (x : number) : Z :=
  match x with Finite q => Qfloor q | _ => 0%Z end.

(** *** Rounding to a double *)

(** The integer nearest to [x], the even one of two that are as near. *)
Definition roundHalfEven (x : Q) : Z :=
  let f := Qfloor x in
  match (x - inject_Z f ?= 1 # 2)%Q with
  | Lt => f
  | Gt => (f + 1)%Z
  | Eq => if Z.even f then f else (f + 1)%Z
  end.

(** For [0 < q], the exponent [e] with [2^e <= q < 2^(e+1)]. *)
Definition binade (q : Q) : Z :=
  let l := (Z.log2 (Qnum q) - Z.log2 (Zpos (Qden q)))%Z in
  if Qle_bool (2 ^ l) q then l else (l - 1)%Z.

Definition MANTISSA_BITS : Z := 52.
Definition MIN_EXPONENT : Z := -1074.
Definition OVERFLOW : Q := 2 ^ 1024.

(** For [0 < q], the exponent of the spacing of the doubles around [q],
    and the multiple of that spacing nearest to [q]. *)
Definition ulpExponent (q : Q) : Z := Z.max (binade q - MANTISSA_BITS) MIN_EXPONENT.

Definition nearest (q : Q) : Q :=
  (inject_Z (roundHalfEven (q / 2 ^ ulpExponent q)) * 2 ^ ulpExponent q)%Q.

(** The double nearest to [q], for [0 < q], as a fraction in lowest
    terms. *)
Definition roundPos (q : Q) : number :=
  if Qle_bool OVERFLOW (nearest q) then PosInfinity else Finite (Qred (nearest q)).

Definition num_neg (x : number) : number :=
  match x with
  | Finite q => Finite (- q)
  | NaN => NaN
  | PosInfinity => NegInfinity
  | NegInfinity => PosInfinity
  end.

(** The double a real result is rounded to. *)
Definition round64 (q : Q) : number :=
  match (q ?= 0)%Q with
  | Eq => Finite 0
  | Gt => roundPos q
  | Lt => num_neg (roundPos (- q))
  end.

(** A rational is a double when rounding gives it back. *)
Definition isDouble (q : Q) : bool :=
  match round64 q with
  | Finite v => Qeq_bool v q
  | _ => false
  end.

(** *** Arithmetic *)

(** The sign of a number that is not [NaN]. *)
Definition signOf (x : number) : option comparison :=
  match x with
  | Finite q => Some (q ?= 0)%Q
  | PosInfinity => Some Gt
  | NegInfinity => Some Lt
  | NaN => None
  end.

Definition mulSign (s1 s2 : comparison) : comparison :=
  match s1, s2 with
  | Eq, _ | _, Eq => Eq
  | Gt, s | s, Gt => s
  | Lt, Lt => Gt
  end.

(** An infinity of the given sign; [0 * Infinity] is [NaN]. *)
Definition infinityOf (s : comparison) : number :=
  match s with Gt => PosInfinity | Lt => NegInfinity | Eq => NaN end.

(** [x * y] *)
Definition num_mul (x y : number) : number :=
  match x, y with
  | Finite p, Finite q => round64 (p * q)
  | _, _ =>
      match signOf x, signOf y with
      | Some s1, Some s2 => infinityOf (mulSign s1 s2)
      | _, _ => NaN
      end
  end.

(** [x + y] *)
Definition num_add (x y : number) : number :=
  match x, y with
  | Finite p, Finite q => round64 (p + q)
  | NaN, _ | _, NaN => NaN
  | PosInfinity, NegInfinity | NegInfinity, PosInfinity => NaN
  | PosInfinity, _ | _, PosInfinity => PosInfinity
  | NegInfinity, _ | _, NegInfinity => NegInfinity
  end.

(** [base ** k] for a whole exponent. The result is the double nearest
    to the power, which is what the engines give for the base 2, the one
    the code raises. *)
Definition num_pow (base : Q) (k : Z) : number := round64 (base ^ k).

(** [Math.min(x, y)] *)
Definition num_min (x y : number) : number :=
  match x, y with
  | NaN, _ | _, NaN => NaN
  | _, _ => if num_le x y then x else y
  end.

(** [Math.floor(x)] *)
Definition num_floor (x : number) : number :=
  match x with
  | Finite q => Finite (inject_Z (Qfloor q))
  | _ => x
  end.

(** A number that is not negative: a finite one, or the infinity. *)
Definition isNonNegative (x : number) : Prop :=
  match x with
  | Finite v => (0 <= v)%Q
  | PosInfinity => True
  | _ => False
  end.

End JsNumber.
Import JsNumber.

(** An array read [a[i]]: [None] stands for [undefined]. *)
Definition at_index {A} (a : list A) (i : nat) : option A := a !! i.

(** ** JavaScript values, objects and the heap *)

Module JsHeap.

Abbreviation loc := nat (only parsing).

(** A value is a primitive or a reference to an object of the heap. *)
Inductive value :=
| VUndefined
| VNull
| VBool (b : bool)
| VNum (n : number)
| VStr (s : jsstring)
| VRef (l : loc).

Inductive kind := Plain | Array | Function (arity : nat).

(** The prototype of an object: the initial one of its kind
    ([Object.prototype] for a plain object), which is no object of the
    heap; none; or an object of the heap. *)
Inductive prototype := ProtoInitial | ProtoNull | ProtoRef (l : loc).

(** [props] holds the own enumerable data properties, by name. *)
Record object := { okind : kind; proto : prototype; props : gmap jsstring value }.

Abbreviation heap := (gmap loc object) (only parsing).

Definition isUndefined (v : value) : bool :=
  match v with VUndefined => true | _ => false end.

Definition isNull (v : value) : bool :=
  match v with VNull => true | _ => false end.

Inductive typeTag := TUndefined | TObject | TBoolean | TNumber | TString | TFunction.

#[global] Instance typeTag_eq_dec : EqDecision typeTag.
Proof. solve_decision. Defined.

(** [typeof v]; a reference the heap does not hold is not met. *)
Definition typeof (h : heap) (v : value) : typeTag :=
  match v with
  | VUndefined => TUndefined
  | VNull => TObject
  | VBool _ => TBoolean
  | VNum _ => TNumber
  | VStr _ => TString
  | VRef l =>
      match okind <$> h !! l with
      | Some (Function _) => TFunction
      | _ => TObject
      end
  end.

Definition isArray (h : heap) (v : value) : bool :=
  match v with
  | VRef l => match okind <$> h !! l with Some Array => true | _ => false end
  | _ => false
  end.

(** The property [key] of the object at [l]: its own one or, failing
    that, the one of the first object along its chain of prototypes that
    has one. A chain has no cycle, so the size of the heap bounds its
    length. The members of the initial prototypes, methods such as
    [toString] and the accessor [__proto__], are read by none of the
    calls followed here. *)
Fixpoint lookupProp (fuel : nat) (h : heap) (l : loc) (key : jsstring) : option value :=
  match h !! l with
  | None => None
  | Some o =>
      match o.(props) !! key with
      | Some v => Some v
      | None =>
          match o.(proto), fuel with
          | ProtoRef l', S fuel' => lookupProp fuel' h l' key
          | _, _ => None
          end
      end
  end.

(** [o[key]] *)
Definition getProp (h : heap) (l : loc) (key : jsstring) : value :=
  default VUndefined (lookupProp (size h) h l key).

(** [key in o] *)
Definition hasProp (h : heap) (l : loc) (key : jsstring) : bool :=
  bool_decide (is_Some (lookupProp (size h) h l key)).

Definition PROTO : jsstring := js "__proto__".

(** Whether an assignment to [__proto__] on the object at [l] finds the
    accessor of [Object.prototype]: neither the object nor an object of
    its chain has a property of that name, and the chain ends at an
    initial prototype. *)
Fixpoint reachesProtoSetter (fuel : nat) (h : heap) (l : loc) : bool :=
  match h !! l with
  | None => false
  | Some o =>
      match o.(props) !! PROTO with
      | Some _ => false
      | None =>
          match o.(proto), fuel with
          | ProtoInitial, _ => true
          | ProtoRef l', S fuel' => reachesProtoSetter fuel' h l'
          | _, _ => false
          end
      end
  end.

(** The prototype the setter of [__proto__] takes from a value: an
    object or [null]; for any other value the setter does nothing. *)
Definition asPrototype (v : value) : option prototype :=
  match v with
  | VNull => Some ProtoNull
  | VRef l => Some (ProtoRef l)
  | _ => None
  end.

Definition setOwn (h : heap) (l : loc) (key : jsstring) (v : value) : heap :=
  alter (λ o, {| okind := o.(okind); proto := o.(proto);
                 props := <[key := v]> o.(props) |}) l h.

Definition setPrototype (h : heap) (l : loc) (p : prototype) : heap :=
  alter (λ o, {| okind := o.(okind); proto := p; props := o.(props) |}) l h.

(** [o[key] = v] on the plain object at [l], whose properties, own and
    inherited, are data properties that can be written. The assignment
    makes or overwrites an own property, but for the key [__proto__] when
    it finds the accessor of [Object.prototype]: the setter then replaces
    the prototype of the object, or does nothing, and no own property is
    made. The setter refuses a prototype whose chain comes back to the
    object; the object assigned to below is a new one, which no chain
    reaches. *)
Definition setProp (h : heap) (l : loc) (key : jsstring) (v : value) : heap :=
  if bool_decide (key = PROTO) && reachesProtoSetter (size h) h l
  then match asPrototype v with
       | Some p => setPrototype h l p
       | None => h
       end
  else setOwn h l key v.

(** The names a [for ... in] loop visits and [Object.hasOwn] accepts. *)
Definition ownKeys (h : heap) (l : loc) : list jsstring :=
  match h !! l with
  | Some o => (map_to_list o.(props)).*1
  | None => []
  end.

(** A new object is placed at an address the heap does not use. *)
Definition alloc (h : heap) (o : object) : loc * heap :=
  let l := fresh (dom h) in (l, <[l := o]> h).

End JsHeap.
Import JsHeap.

(** ** A [Map] with string keys, in insertion order *)

Module JsMap.

Section Map.
Context {V : Type}.

Definition t := list (jsstring * V).

Fixpoint get (k : jsstring) (m : t) : option V :=
  match m with
  | [] => None
  | (k', v) :: m' => if decide (k' = k) then Some v else get k m'
  end.

Definition has (k : jsstring) (m : t) : bool :=
  match get k m with Some _ => true | None => false end.

(** An existing key keeps its place, a new one goes last. *)
Fixpoint set (k : jsstring) (v : V) (m : t) : t :=
  match m with
  | [] => [(k, v)]
  | (k', v') :: m' =>
      if decide (k' = k) then (k, v) :: m' else (k', v') :: set k v m'
  end.

Definition keys (m : t) : list jsstring := m.*1.
Definition values (m : t) : list V := m.*2.
Definition size (m : t) : nat := length m.
Definition clear (m : t) : t := [].

End Map.
Arguments t V : clear implicits.

End JsMap.

(** ** Device state merge (domain/device-state.ts) *)

Module DeviceState.

(** The declared type of [patch]: an object, [null] or [undefined]. *)
Inductive patchArg := PatchNull | PatchUndefined | PatchObject (l : loc).

Definition validateStateObject (h : heap) (prev : value) (patch : patchArg) : result unit :=
  if isNull prev || isArray h prev
     || negb (bool_decide (typeof h prev = TObject))
  then Throw TypeError "prev must be a plain object"
  else
    match patch with
    | PatchNull | PatchUndefined => Throw TypeError "patch cannot be null or undefined"
    | PatchObject _ => Ok tt
    end.

(** One turn of the loop over the keys of [patch]. *)
Definition mergeStep (patch result : loc) (h : heap) (key : jsstring) : heap :=
  let value := getProp h patch key in
  if isUndefined value then h else setProp h result key value.

(** The function returns the new object, or throws, and the heap after
    the call. *)
Definition mergeDeviceState (prev : value) (patch : patchArg) (h : heap)
  : result value * heap :=
  match validateStateObject h prev patch, prev, patch with
  | Throw c msg, _, _ => (Throw c msg, h)
  | Ok _, VRef lprev, PatchObject lpatch =>
      (* const result = { ...prev } *)
      let '(result, h1) :=
        alloc h {| okind := Plain; proto := ProtoInitial;
                   props := default ∅ (props <$> h !! lprev) |} in
      let h2 := foldl (mergeStep lpatch result) h1 (ownKeys h1 lpatch) in
      (Ok (VRef result), h2)
  | Ok _, _, _ => (Throw TypeError "prev must be a plain object", h)
  end.



(** A prior state [{a: 1, b: 2}] at address 0 and a patch
    [{b: undefined, c: 3}] at address 1. *)
Definition sampleState : gmap jsstring value :=
  <[js "a" := VNum (of_nat 1)]> (<[js "b" := VNum (of_nat 2)]> ∅).

Definition samplePrev : object :=
  {| okind := Plain; proto := ProtoInitial; props := sampleState |}.

Definition samplePatch : object :=
  {| okind := Plain; proto := ProtoInitial;
     props := <[js "b" := VUndefined]> (<[js "c" := VNum (of_nat 3)]> ∅) |}.

Definition sampleHeap : heap :=
  <[0 := samplePrev]> (<[1 := samplePatch]> ∅).






(** What [JSON.parse] makes of [{"__proto__": {"x": 1}, "b": 2}]: the
    patch at address 1, with an own property [__proto__] that holds the
    object at address 2; the prior state [{a: 1}] is at address 0. *)
Definition protoPatch : object :=
  {| okind := Plain; proto := ProtoInitial;
     props := <[PROTO := VRef 2]> (<[js "b" := VNum (of_nat 2)]> ∅) |}.

Definition protoHeap : heap :=
  <[0 := {| okind := Plain; proto := ProtoInitial;
            props := <[js "a" := VNum (of_nat 1)]> ∅ |}]>
  (<[1 := protoPatch]>
  (<[2 := {| okind := Plain; proto := ProtoInitial;
             props := <[js "x" := VNum (of_nat 1)]> ∅ |}]> ∅)).

End DeviceState.

(** ** Command queue (core/command-queue.ts) *)

Module CommandQueue.

Definition DEFAULT_MAX_QUEUE_SIZE : number := of_nat 1000.

Section Queue.
Context {T : Type}.

(** The closure returned by [createCommandQueue]: the captured
    [maxSize] and the array [queue]. *)
Record CommandQueue := { maxSize : number; queue : list T }.

(** An absent argument takes the default. *)
Definition createCommandQueue (arg : option number) : result CommandQueue :=
  let maxSize := default DEFAULT_MAX_QUEUE_SIZE arg in
  if negb (isInteger maxSize) || num_le maxSize (of_nat 0)
  then Throw RangeError "maxSize must be a positive integer"
  else Ok {| maxSize := maxSize; queue := [] |}.

(** A method returns its result, or the error it throws, and the state
    of the queue after the call. *)
Definition enqueue (cmd : T) (q : CommandQueue) : result nat * CommandQueue :=
  if num_le q.(maxSize) (of_nat (length q.(queue)))
  then (Throw RangeError "Command queue is full", q)
  else
    let q' := {| maxSize := q.(maxSize); queue := q.(queue) ++ [cmd] |} in
    (Ok (length q'.(queue)), q').

Definition dequeue (q : CommandQueue) : option T * CommandQueue :=
  match q.(queue) with
  | [] => (None, q)
  | cmd :: rest => (Some cmd, {| maxSize := q.(maxSize); queue := rest |})
  end.

Definition size (q : CommandQueue) : nat := length q.(queue).

(** Consecutive [enqueue] calls, with the result of each. *)
Fixpoint enqueueAll (cmds : list T) (q : CommandQueue)
  : list (result nat) * CommandQueue :=
  match cmds with
  | [] => ([], q)
  | cmd :: cmds' =>
      let '(r, q1) := enqueue cmd q in
      let '(rs, q2) := enqueueAll cmds' q1 in
      (r :: rs, q2)
  end.

Definition isQueueFull (r : result nat) : Prop :=
  ∃ msg, r = Throw RangeError msg.

End Queue.
Arguments CommandQueue T : clear implicits.

(** A positive integer capacity, and the natural number it holds. *)
Definition validCapacity (m : number) : Prop :=
  isInteger m = true ∧ num_le m (of_nat 0) = false.

Definition capacity (m : number) : nat := Z.to_nat (to_Z m).

End CommandQueue.

(** ** Retry policy (infrastructure/retry-policy.ts) *)

Module RetryPolicy.

Definition DEFAULT_RETRIES : number := of_nat 3.
Definition DEFAULT_BASE_MS : number := of_nat 100.
Definition DEFAULT_MAX_MS : number := of_nat 5000.
Definition EXPONENTIAL_BASE : Q := 2.
(** The literals [0.8] and [0.4] stand for the doubles nearest to them. *)
Definition JITTER_MIN_FACTOR : number := round64 (8 # 10).
Definition JITTER_RANGE : number := round64 (4 # 10).

(** What the run does to the outside, in order: a call of the operation
    (with the number of the attempt), a call of the [onRetry] callback, a
    sleep. *)
Inductive event :=
| EvAttempt (attempt : nat)
| EvOnRetry (attempt : nat) (delayMs : number)
| EvSleep (ms : number).

(** The number of calls the operation has had, the number of draws
    [Math.random] has had, and the events so far. *)
Record world := { opCalls : nat; randomDraws : nat; trace : list event }.

Definition emit (e : event) (w : world) : world :=
  {| opCalls := w.(opCalls); randomDraws := w.(randomDraws);
     trace := w.(trace) ++ [e] |}.

Section Retry.
Context {T E : Type}.

(** How a promise settles. *)
Inductive settled := Fulfilled (v : T) | Rejected (e : E).

(** The operation is known by how its successive calls settle, and
    [Math.random] by its successive draws. *)
Context (op : nat -> settled) (random : nat -> Q).

Record RetryOptions := {
  retries : option number;
  baseMs : option number;
  maxMs : option number;
  jitter : option bool;
  onRetry : option (E -> nat -> number -> result unit)
}.

Record DelayConfig := {
  d_attempt : nat;
  d_baseMs : number;
  d_maxMs : number;
  d_jitter : bool
}.

Inductive AttemptResult := Success (value : T) | Failure (error : E).

Definition callRandom (w : world) : number * world :=
  (Finite (random w.(randomDraws)),
   {| opCalls := w.(opCalls); randomDraws := S w.(randomDraws); trace := w.(trace) |}).

Definition calculateDelay (config : DelayConfig) (w : world) : number * world :=
  let exponentialDelay :=
    num_mul config.(d_baseMs)
      (num_pow EXPONENTIAL_BASE (Z.of_nat config.(d_attempt) - 1)) in
  let delay := num_min exponentialDelay config.(d_maxMs) in
  if config.(d_jitter) then
    let '(u, w') := callRandom w in
    let jitterFactor := num_add JITTER_MIN_FACTOR (num_mul u JITTER_RANGE) in
    (num_floor (num_mul delay jitterFactor), w')
  else (num_floor delay, w).

Definition sleep (ms : number) (w : world) : world := emit (EvSleep ms) w.

Definition validateRetryParams (retries baseMs maxMs : number) : result unit :=
  if num_lt retries (of_nat 0) || negb (isInteger retries)
  then Throw RangeError "retries must be a non-negative integer"
  else if num_le baseMs (of_nat 0) || negb (isFinite baseMs)
  then Throw RangeError "baseMs must be a positive finite number"
  else if num_le maxMs (of_nat 0) || negb (isFinite maxMs)
  then Throw RangeError "maxMs must be a positive finite number"
  else Ok tt.

Record AttemptConfig := {
  attempt : nat;
  maxAttempts : nat;
  a_baseMs : number;
  a_maxMs : number;
  a_jitter : bool;
  a_onRetry : option (E -> nat -> number -> result unit)
}.

Definition callOp (attempt : nat) (w : world) : settled * world :=
  (op w.(opCalls),
   {| opCalls := S w.(opCalls); randomDraws := w.(randomDraws);
      trace := w.(trace) ++ [EvAttempt attempt] |}).

(** What the callback throws is caught and dropped. *)
Definition callOnRetry (config : AttemptConfig) (error : E) (delayMs : number) (w : world)
  : world :=
  match config.(a_onRetry) with
  | Some cb =>
      match cb error config.(attempt) delayMs with
      | Ok _ | Throw _ _ => emit (EvOnRetry config.(attempt) delayMs) w
      end
  | None => w
  end.

Definition executeSingleAttempt (config : AttemptConfig) (w : world)
  : AttemptResult * world :=
  match callOp config.(attempt) w with
  | (Fulfilled value, w1) => (Success value, w1)
  | (Rejected error, w1) =>
      if config.(attempt) =? config.(maxAttempts) then (Failure error, w1)
      else
        let '(delayMs, w2) :=
          calculateDelay {| d_attempt := config.(attempt);
                            d_baseMs := config.(a_baseMs);
                            d_maxMs := config.(a_maxMs);
                            d_jitter := config.(a_jitter) |} w1 in
        let w3 := callOnRetry config error delayMs w2 in
        let w4 := sleep delayMs w3 in
        (Failure error, w4)
  end.

(** How [withRetry] settles: with a value, with the last error of the
    operation ([None] is the initial [undefined] of [lastError]), or
    with the error of the parameter check. *)
Inductive outcome :=
| Resolved (value : T)
| RejectedLast (lastError : option E)
| RejectedCheck (c : error_class) (msg : string).

Definition hasCallback (config : AttemptConfig) : bool :=
  match config.(a_onRetry) with Some _ => true | None => false end.

Definition withAttempt (config : AttemptConfig) (attempt : nat) : AttemptConfig :=
  {| attempt := attempt; maxAttempts := config.(maxAttempts);
     a_baseMs := config.(a_baseMs); a_maxMs := config.(a_maxMs);
     a_jitter := config.(a_jitter); a_onRetry := config.(a_onRetry) |}.

(** The loop [for (attempt = ...; attempt <= maxAttempts; attempt += 1)]
    with [remaining] turns left. *)
Fixpoint retryLoop (config : AttemptConfig) (remaining attempt : nat)
    (lastError : option E) (w : world) : outcome * world :=
  match remaining with
  | O => (RejectedLast lastError, w)
  | S remaining' =>
      match executeSingleAttempt (withAttempt config attempt) w with
      | (Success value, w') => (Resolved value, w')
      | (Failure error, w') =>
          retryLoop config remaining' (S attempt) (Some error) w'
      end
  end.

Definition executeWithRetry (config : AttemptConfig) (w : world) : outcome * world :=
  retryLoop config config.(maxAttempts) 1 None w.

Definition withRetry (opts : RetryOptions) (w : world) : outcome * world :=
  let retries := default DEFAULT_RETRIES opts.(retries) in
  let baseMs := default DEFAULT_BASE_MS opts.(baseMs) in
  let maxMs := default DEFAULT_MAX_MS opts.(maxMs) in
  let jitter := default true opts.(jitter) in
  match validateRetryParams retries baseMs maxMs with
  | Throw c msg => (RejectedCheck c msg, w)
  | Ok _ =>
      let maxAttempts := Z.to_nat (to_Z retries) + 1 in
      executeWithRetry {| attempt := 0; maxAttempts := maxAttempts;
                          a_baseMs := baseMs; a_maxMs := maxMs;
                          a_jitter := jitter; a_onRetry := opts.(onRetry) |} w
  end.

(** What one failed attempt that is not the last leaves in the trace. *)
Definition failedRound (cb : bool) (ad : nat * number) : list event :=
  [EvAttempt ad.1] ++ (if cb then [EvOnRetry ad.1 ad.2] else []) ++ [EvSleep ad.2].


Definition attemptsOf (tr : list event) : list nat :=
  omap (λ e, match e with EvAttempt a => Some a | _ => None end) tr.

End Retry.

Definition initialWorld : world := {| opCalls := 0; randomDraws := 0; trace := [] |}.

(** The value of [delay] before the jitter. *)
Definition cappedDelay (base max : number) (attempt : nat) : number :=
  num_min (num_mul base (num_pow EXPONENTIAL_BASE (Z.of_nat attempt - 1))) max.

(** The delay of the code without jitter, and the factor and the delay of
    the code with jitter at the draw [u]. *)
Definition plainDelay (base max : number) (attempt : nat) : number :=
  (calculateDelay (λ _, 0%Q)
     {| d_attempt := attempt; d_baseMs := base; d_maxMs := max; d_jitter := false |}
     initialWorld).1.

Definition jitterFactor (u : Q) : number :=
  num_add JITTER_MIN_FACTOR (num_mul (Finite u) JITTER_RANGE).

Definition jitteredDelay (base max : number) (attempt : nat) (u : Q) : number :=
  (calculateDelay (λ _, u)
     {| d_attempt := attempt; d_baseMs := base; d_maxMs := max; d_jitter := true |}
     initialWorld).1.

Definition delayOf (base max : number) (jitter : bool) (attempt : nat) (u : Q) : number :=
  if jitter then jitteredDelay base max attempt u else plainDelay base max attempt.

(** The delays of [count] failed attempts from [attempt] on, when
    [draws] draws have been made before; only a delay with jitter makes
    a draw. *)
Fixpoint expectedDelays (random : nat -> Q) (base max : number) (jitter : bool)
    (attempt draws count : nat) : list number :=
  match count with
  | O => []
  | S count' =>
      delayOf base max jitter attempt (random draws)
      :: expectedDelays random base max jitter (S attempt)
           (if jitter then S draws else draws) count'
  end.




(** A base delay and a draw at which the rounded product passes the
    next integer: [14.166666666666666] and [1 - 2^-52], which is
    [0.9999999999999998]. *)
Definition sampleBase : Q := 7975124340135253 # 562949953421312.
Definition sampleDraw : Q := 4503599627370495 # 4503599627370496.

End RetryPolicy.

(** ** Validators and helpers (utils/validators.ts, utils/helpers.ts) *)

Module Utils.

Definition DEFAULT_MAX_STRING_LENGTH : nat := 256.

(** [value] has the type the callers give it, a string. *)
Definition assertNonEmptyString (name : string) (value : jsstring) (maxLen : nat)
  : result jsstring :=
  if length value =? 0 then Throw TypeError (name ++ " cannot be empty")
  else
    let trimmed := trim value in
    if length trimmed =? 0 then Throw TypeError (name ++ " must be non-empty")
    else if maxLen <? length trimmed
         then Throw RangeError (name ++ " exceeds maximum length")
         else Ok trimmed.

Definition isHyphen (c : char16) : bool := (c =? HYPHEN)%N.

(** The class [[a-z0-9\u4e00-\u9fff]]. *)
Definition isKept (c : char16) : bool :=
  ((97 <=? c) && (c <=? 122) || (48 <=? c) && (c <=? 57)
   || (19968 <=? c) && (c <=? 40959))%N.

(** [.replace(/[^a-z0-9\u4e00-\u9fff]/g, '-')] *)
Definition replaceOthers (s : jsstring) : jsstring :=
  (λ c, if isKept c then c else HYPHEN) <$> s.

(** [.replace(/-+/g, '-')]; [inRun] tells that the previous unit was a
    hyphen of the run being replaced. *)
Fixpoint collapseHyphens (inRun : bool) (s : jsstring) : jsstring :=
  match s with
  | [] => []
  | c :: s' =>
      if isHyphen c
      then if inRun then collapseHyphens true s' else HYPHEN :: collapseHyphens true s'
      else c :: collapseHyphens false s'
  end.

(** [.replace(/^-|-$/g, '')]: one hyphen at the start, one at the end. *)
Definition stripOneStart (s : jsstring) : jsstring :=
  match s with
  | c :: s' => if isHyphen c then s' else s
  | [] => []
  end.

Definition stripOneEnd (s : jsstring) : jsstring :=
  reverse (stripOneStart (reverse s)).

Definition toKebabCase (input : jsstring) : jsstring :=
  stripOneEnd (stripOneStart (collapseHyphens false (replaceOthers (toLowerCase (trim input))))).

(** No two hyphens in a row. *)
Definition noDoubleHyphen (v : jsstring) : Prop :=
  ∀ w1 w2, v ≠ w1 ++ [HYPHEN; HYPHEN] ++ w2.

End Utils.

(** ** Device resource URI (domain/device.ts) *)

Module Device.
Import Utils.

Record UriInput := { location : jsstring; friendlyName : jsstring }.

Definition buildDeviceResourceUri (input : UriInput) : result jsstring :=
  location <- assertNonEmptyString "location" input.(location) DEFAULT_MAX_STRING_LENGTH ;;;
  friendlyName <- assertNonEmptyString "friendlyName" input.(friendlyName) DEFAULT_MAX_STRING_LENGTH ;;;
  let normalizedLocation := toKebabCase location in
  let normalizedName := toKebabCase friendlyName in
  Ok (js "iot://home/" ++ normalizedLocation ++ js "/" ++ normalizedName ++ js "/state").

(** The slug as the specification words it: trimmed, lower-cased, every
    run of units that are not alphanumeric replaced by one hyphen, and the
    hyphens at both ends removed. Alphanumeric is read as the class the
    code keeps: a-z, 0-9 and the ideographs U+4E00..U+9FFF. *)
Fixpoint replaceRuns (inRun : bool) (s : jsstring) : jsstring :=
  match s with
  | [] => []
  | c :: s' =>
      if isKept c then c :: replaceRuns false s'
      else if inRun then replaceRuns true s' else HYPHEN :: replaceRuns true s'
  end.

Definition slug (s : jsstring) : jsstring :=
  dropWhileEnd isHyphen (dropWhileStart isHyphen (replaceRuns false (toLowerCase (trim s)))).

Definition uriOfSlugs (loc name : jsstring) : jsstring :=
  js "iot://home/" ++ loc ++ js "/" ++ name ++ js "/state".

(** The claim for every non-empty location and friendly name. *)
Definition uriClaimAsStated (input : UriInput) : Prop :=
  input.(location) ≠ [] → input.(friendlyName) ≠ [] →
  buildDeviceResourceUri input
  = Ok (uriOfSlugs (slug input.(location)) (slug input.(friendlyName))).

End Device.

(** ** Adapter contract (domain/adapter-interface.ts) *)

Module AdapterInterface.

Definition REQUIRED_METHODS : list jsstring :=
  js <$> ["initialize"; "start"; "stop"; "getDeviceState"; "executeCommand";
          "onDeviceStateChange"]%string.

Definition EXPECTED_PARAMS : nat := 2.

Definition isFunction (h : heap) (v : value) : bool :=
  bool_decide (typeof h v = TFunction).

(** [f.length] of a function. *)
Definition functionLength (h : heap) (v : value) : option nat :=
  match v with
  | VRef l => match okind <$> h !! l with Some (Function n) => Some n | _ => None end
  | _ => None
  end.

Definition validateAdapterName (h : heap) (adapterObj : loc) : result unit :=
  match getProp h adapterObj (js "name") with
  | VStr name =>
      if isBlank name then Throw TypeError "Adapter must have a non-empty name property"
      else Ok tt
  | _ => Throw TypeError "Adapter must have a non-empty name property"
  end.

Fixpoint validateMethods (h : heap) (adapterObj : loc) (methods : list jsstring)
  : result unit :=
  match methods with
  | [] => Ok tt
  | methodName :: rest =>
      if negb (isFunction h (getProp h adapterObj methodName))
      then Throw TypeError "Adapter must implement method as a function"
      else validateMethods h adapterObj rest
  end.

Definition validateRequiredMethods (h : heap) (adapterObj : loc) : result unit :=
  validateMethods h adapterObj REQUIRED_METHODS.

Definition validateExecuteCommandParams (h : heap) (adapterObj : loc) : result unit :=
  let executeCommand := getProp h adapterObj (js "executeCommand") in
  if isFunction h executeCommand then
    if negb (bool_decide (functionLength h executeCommand = Some EXPECTED_PARAMS))
    then Throw TypeError "Adapter method executeCommand must accept exactly 2 parameters"
    else Ok tt
  else Ok tt.

Definition validateOptionalScanDevices (h : heap) (adapterObj : loc) : result unit :=
  if hasProp h adapterObj (js "scanDevices")
     && negb (isFunction h (getProp h adapterObj (js "scanDevices")))
  then Throw TypeError "Adapter property scanDevices, if present, must be a function"
  else Ok tt.

Definition ensureAdapterImplements (h : heap) (adapter : value) : result unit :=
  if isNull adapter || isUndefined adapter
     || negb (bool_decide (typeof h adapter = TObject))
  then Throw TypeError "Adapter must be a non-null object"
  else
    match adapter with
    | VRef adapterObj =>
        _ <- validateAdapterName h adapterObj ;;;
        _ <- validateRequiredMethods h adapterObj ;;;
        _ <- validateExecuteCommandParams h adapterObj ;;;
        validateOptionalScanDevices h adapterObj
    | _ => Throw TypeError "Adapter must be a non-null object"
    end.

(** An adapter that meets the contract, at address 0; its methods are
    functions of one, no and two parameters at addresses 1, 2 and 3. *)
Definition sampleAdapterHeap : heap :=
  <[0 := {| okind := Plain; proto := ProtoInitial;
            props := <[js "name" := VStr (js "mqtt")]>
                     (<[js "initialize" := VRef 1]>
                     (<[js "start" := VRef 2]>
                     (<[js "stop" := VRef 2]>
                     (<[js "getDeviceState" := VRef 1]>
                     (<[js "executeCommand" := VRef 3]>
                     (<[js "onDeviceStateChange" := VRef 1]> ∅)))))) |}]>
  (<[1 := {| okind := Function 1; proto := ProtoInitial; props := ∅ |}]>
  (<[2 := {| okind := Function 0; proto := ProtoInitial; props := ∅ |}]>
  (<[3 := {| okind := Function 2; proto := ProtoInitial; props := ∅ |}]> ∅))).

End AdapterInterface.

(** ** Adapter registry (core/adapter-registry.ts) *)

Module AdapterRegistry.
Import AdapterInterface.

(** The [Map] the closures of [createAdapterRegistry] share. *)
Abbreviation registry := (JsMap.t value) (only parsing).

Definition createAdapterRegistry : registry := [].

Definition CONFLICT : string := "Adapter is already registered".

(** [register] reads the adapter in the heap of the moment of the call;
    it returns, or throws, and gives the registry after the call. *)
Definition register (h : heap) (name : jsstring) (adapter : value) (adapters : registry)
  : result unit * registry :=
  if isBlank name
  then (Throw TypeError "Adapter name must be a non-empty string", adapters)
  else if JsMap.has name adapters
  then (Throw PlainError CONFLICT, adapters)
  else
    match ensureAdapterImplements h adapter with
    | Throw c msg => (Throw c msg, adapters)
    | Ok _ => (Ok tt, JsMap.set name adapter adapters)
    end.

Definition get (name : jsstring) (adapters : registry) : option value :=
  JsMap.get name adapters.

Definition has (name : jsstring) (adapters : registry) : bool := JsMap.has name adapters.

(** Any further [register] calls, successful or not, in order. *)
Definition registerAll (calls : list (heap * jsstring * value)%type)
    (adapters : registry) : registry :=
  foldl (λ acc '(h, name, adapter), (register h name adapter acc).2) adapters calls.

(** The registry after [mqtt] and then [http] have been registered. *)
Definition sampleRegistry : registry :=
  [(js "mqtt", VRef 0); (js "http", VRef 0)].

Definition list (adapters : registry) : Datatypes.list jsstring := JsMap.keys adapters.

End AdapterRegistry.

(** ** Device manager (core/device-manager.ts) *)

Module DeviceManager.

(** [id] is [None] when the property is missing. *)
Record DeviceMetadata := {
  id : option jsstring;
  friendlyName : jsstring;
  location : jsstring;
  type : jsstring;
  capabilities : option (list jsstring);
  protocol : option jsstring
}.

(** The private [devices] map. *)
Abbreviation devices := (JsMap.t DeviceMetadata) (only parsing).

Definition BAD_ID : string := "Device id must be a non-empty string".

Definition registerDevice (device : DeviceMetadata) (ds : devices)
  : result unit * devices :=
  match device.(id) with
  | None => (Throw TypeError BAD_ID, ds)
  | Some deviceId =>
      if (length deviceId =? 0) || (length (trim deviceId) =? 0)
      then (Throw TypeError BAD_ID, ds)
      else (Ok tt, JsMap.set deviceId device ds)
  end.

Definition listDevices (ds : devices) : list DeviceMetadata := JsMap.values ds.

Definition getDevice (deviceId : jsstring) (ds : devices) : option DeviceMetadata :=
  JsMap.get deviceId ds.

Definition sampleDevice (name : string) : DeviceMetadata :=
  {| id := Some (js "lamp-1"); friendlyName := js name; location := js "Hall";
     type := js "light"; capabilities := None; protocol := None |}.

End DeviceManager.

(** ** MQTT adapter: topic to device identifier (mqtt-adapter.ts) *)

Module MqttAdapter.

Definition MIN_TOPIC_PARTS : nat := 2.
Definition DEVICE_ID_OFFSET : nat := 2.
Definition STATE : jsstring := js "state".

Definition validateTopicInputs (base topic : jsstring) : result unit :=
  if isBlank base then Throw TypeError "base must be a non-empty string"
  else if isBlank topic then Throw TypeError "topic must be a non-empty string"
  else Ok tt.

(** [null] is [None]. Reading [.length] of an absent array element would
    raise a TypeError; the length test before it excludes that. *)
Definition extractDeviceIdFromTopic (remainder : jsstring) : result (option jsstring) :=
  let parts := split SLASH remainder in
  if (length parts <? MIN_TOPIC_PARTS)
     || bool_decide (at_index parts (length parts - 1) ≠ Some STATE)
  then Ok None
  else
    match at_index parts (length parts - DEVICE_ID_OFFSET) with
    | Some deviceId => Ok (if length deviceId =? 0 then None else Some deviceId)
    | None => Throw TypeError "Cannot read properties of undefined"
    end.

Definition isSlash (c : char16) : bool := (c =? SLASH)%N.

Definition mapTopicToDeviceId (base topic : jsstring) : result (option jsstring) :=
  _ <- validateTopicInputs base topic ;;;
  let normalizedBase := dropWhileEnd isSlash (trim base) in
  let normalizedTopic := trim topic in
  let prefix := normalizedBase ++ [SLASH] in
  if negb (startsWith normalizedTopic prefix) then Ok None
  else
    let remainder := slice normalizedTopic (length prefix) in
    extractDeviceIdFromTopic remainder.

(** The mapping as the specification words it. [b] is [base] with its
    trailing slashes stripped: *)
Definition strippedBase (base b : jsstring) : Prop :=
  (∃ n, base = b ++ replicate n SLASH) ∧ last b ≠ Some SLASH.

(** [topic] starts with the stripped base and a slash, the rest has at
    least two segments, the last of them [state], and the one before it,
    [id], is not empty. *)
Definition extractsId (base topic id : jsstring) : Prop :=
  ∃ b rest front,
    strippedBase base b
    ∧ topic = b ++ [SLASH] ++ rest
    ∧ split SLASH rest = front ++ [id; STATE]
    ∧ id ≠ [].

(** The function returns without an error, and returns an identifier
    exactly in the shape above. *)
Definition mapsAsSpecified (base topic : jsstring) (r : result (option jsstring)) : Prop :=
  ∃ o, r = Ok o ∧ ∀ id, o = Some id ↔ extractsId base topic id.

(** The claim for every non-empty base and topic. *)
Definition mapTopicClaimAsStated (base topic : jsstring) : Prop :=
  base ≠ [] → topic ≠ [] → mapsAsSpecified base topic (mapTopicToDeviceId base topic).

End MqttAdapter.

(** ** MQTT client: wildcard matching and subscription restore (mqtt-client.ts) *)

Module MqttClient.

Definition PLUS : jsstring := js "+".
Definition HASH : jsstring := js "#".

(** The body of both [for] loops of [matchTopic]: levels [i], [i+1], ...
    for [n] iterations; the early [return false] ends the loop. *)
Fixpoint levelsMatch (patternLevels topicLevels : list jsstring) (i n : nat) : bool :=
  match n with
  | O => true
  | S n' =>
      if bool_decide (at_index patternLevels i ≠ Some PLUS)
         && bool_decide (at_index patternLevels i ≠ at_index topicLevels i)
      then false
      else levelsMatch patternLevels topicLevels (S i) n'
  end.

Definition matchTopic (pattern topic : jsstring) : bool :=
  if str_eqb pattern topic then true
  else
    let patternLevels := split SLASH pattern in
    let topicLevels := split SLASH topic in
    if bool_decide (at_index patternLevels (length patternLevels - 1) = Some HASH) then
      if levelsMatch patternLevels topicLevels 0 (length patternLevels - 1)
      then bool_decide (length patternLevels - 1 ≤ length topicLevels)
      else false
    else if bool_decide (length patternLevels ≠ length topicLevels) then false
    else levelsMatch patternLevels topicLevels 0 (length patternLevels).

(** The matching rules as the specification words them. *)
Definition segments (s : jsstring) : list jsstring := split SLASH s.

Definition matchesBySpec (pattern topic : jsstring) : Prop :=
  let ps := segments pattern in
  let ts := segments topic in
  pattern = topic
  ∨ (last ps = Some HASH
     ∧ (∀ i, i < length ps - 1 → ps !! i = Some PLUS ∨ ps !! i = ts !! i)
     ∧ length ps - 1 ≤ length ts)
  ∨ (last ps ≠ Some HASH
     ∧ length ps = length ts
     ∧ (∀ i, i < length ps → ps !! i = Some PLUS ∨ ps !! i = ts !! i)).

(** *** The client and its transport

    A message handler is known by a number, a native client by its rank
    among those [mqtt.connect] has returned. *)
Abbreviation MessageHandler := nat (only parsing).

(** The calls the wrapper makes on native clients, handlers and the
    promise of [connect], in order. *)
Inductive nativeCall :=
| NSubscribeMany (client : nat) (topics : list jsstring)
| NSubscribe (client : nat) (topic : jsstring)
| NPublish (client : nat) (topic : jsstring)
| NEnd (client : nat)
| NHandler (handler : MessageHandler)
| NResolve (client : nat)
| NReject (client : nat).

(** A native client as the wrapper sees it: its [connected] flag and the
    listeners [setupClientListeners] has put on it; a [once] listener is
    taken off when it runs. *)
Record native := {
  connected : bool;
  onceConnect : bool;
  onceError : bool;
  onReconnect : bool;
  onMessage : bool
}.

(** The state the closures of [createMqttClient] share: the
    subscription table, [clientRef.current], and around them the native
    clients and the calls made so far. *)
Record client := {
  subscriptions : JsMap.t MessageHandler;
  current : option nat;
  natives : list native;
  calls : list nativeCall
}.

Definition createMqttClient : client :=
  {| subscriptions := []; current := None; natives := []; calls := [] |}.

Definition logCall (c : nativeCall) (st : client) : client :=
  {| subscriptions := st.(subscriptions); current := st.(current);
     natives := st.(natives); calls := st.(calls) ++ [c] |}.

Definition updateNative (c : nat) (f : native -> native) (st : client) : client :=
  {| subscriptions := st.(subscriptions); current := st.(current);
     natives := alter f c st.(natives); calls := st.(calls) |}.

Definition isConnected (st : client) : bool :=
  match st.(current) with
  | Some c => match st.(natives) !! c with Some n => n.(connected) | None => false end
  | None => false
  end.

(** [restoreSubscriptions(client)] of [createConnectMethod] *)
Definition restoreSubscriptions (c : nat) (st : client) : client :=
  if 0 <? JsMap.size st.(subscriptions)
  then logCall (NSubscribeMany c (JsMap.keys st.(subscriptions))) st
  else st.

Definition listening : native :=
  {| connected := false; onceConnect := true; onceError := true;
     onReconnect := true; onMessage := true |}.

(** [connect()]; [connectThrows] tells whether [mqtt.connect] throws. The
    promise settles later, on the [connect] or [error] event. *)
Definition connect (connectThrows : bool) (st : client) : result unit * client :=
  if isConnected st then (Throw PlainError "MQTT client is already connected", st)
  else if connectThrows then (Throw PlainError "Failed to connect", st)
  else
    (Ok tt,
     {| subscriptions := st.(subscriptions);
        current := Some (length st.(natives));
        natives := st.(natives) ++ [listening];
        calls := st.(calls) |}).

Definition subscribe (topic : jsstring) (handler : MessageHandler) (st : client)
  : result unit * client :=
  match st.(current) with
  | Some c =>
      if negb (isConnected st) then (Throw PlainError "MQTT client is not connected", st)
      else if isBlank topic then (Throw TypeError "topic must be a non-empty string", st)
      else (Ok tt, logCall (NSubscribe c topic) st)
  | None => (Throw PlainError "MQTT client is not connected", st)
  end.

(** The callback given to the native [subscribe]. *)
Definition subscribeCallback (topic : jsstring) (handler : MessageHandler) (err : bool)
    (st : client) : client :=
  if err then st
  else {| subscriptions := JsMap.set topic handler st.(subscriptions);
          current := st.(current); natives := st.(natives); calls := st.(calls) |}.

Definition publish (topic : jsstring) (st : client) : result unit * client :=
  match st.(current) with
  | Some c =>
      if negb (isConnected st) then (Throw PlainError "MQTT client is not connected", st)
      else if isBlank topic then (Throw TypeError "topic must be a non-empty string", st)
      else (Ok tt, logCall (NPublish c topic) st)
  | None => (Throw PlainError "MQTT client is not connected", st)
  end.

Definition disconnect (st : client) : result unit * client :=
  match st.(current) with
  | None => (Ok tt, st)
  | Some c => (Ok tt, logCall (NEnd c) st)
  end.

(** The callback given to the native [end]. *)
Definition endCallback (err : bool) (st : client) : client :=
  if err then st
  else {| subscriptions := JsMap.clear st.(subscriptions); current := None;
          natives := st.(natives); calls := st.(calls) |}.

(** What the transport of a native client emits. *)
Inductive transportEvent :=
| TConnect
| TReconnect
| TError
| TMessage (topic : jsstring)
| TClose.

(** The [message] listener: every handler whose pattern matches. *)
Definition dispatch (topic : jsstring) (st : client) : client :=
  foldl (λ acc '(pattern, handler),
           if matchTopic pattern topic then logCall (NHandler handler) acc else acc)
    st st.(subscriptions).

(** The listeners of [setupClientListeners] on the native client [c]. The
    library raises [connected] before it emits [connect] and lowers it at
    [close]. *)
Definition emitEvent (c : nat) (ev : transportEvent) (st : client) : client :=
  match st.(natives) !! c with
  | None => st
  | Some n =>
      match ev with
      | TConnect =>
          let st1 :=
            updateNative c (λ n, {| connected := true; onceConnect := false;
                                    onceError := n.(onceError);
                                    onReconnect := n.(onReconnect);
                                    onMessage := n.(onMessage) |}) st in
          if n.(onceConnect)
          then logCall (NResolve c) (restoreSubscriptions c st1)
          else st1
      | TReconnect =>
          if n.(onReconnect) then restoreSubscriptions c st else st
      | TError =>
          if n.(onceError)
          then logCall (NReject c)
                 (updateNative c (λ n, {| connected := n.(connected);
                                          onceConnect := n.(onceConnect);
                                          onceError := false;
                                          onReconnect := n.(onReconnect);
                                          onMessage := n.(onMessage) |}) st)
          else st
      | TMessage topic =>
          if n.(onMessage) then dispatch topic st else st
      | TClose =>
          updateNative c (λ n, {| connected := false; onceConnect := n.(onceConnect);
                                  onceError := n.(onceError);
                                  onReconnect := n.(onReconnect);
                                  onMessage := n.(onMessage) |}) st
      end
  end.

(** Everything that can happen to the client: a call of one of its
    methods, a callback of the library, an event of a transport. *)
Inductive action :=
| Connect (connectThrows : bool)
| Subscribe (topic : jsstring) (handler : MessageHandler)
| SubscribeCallback (topic : jsstring) (handler : MessageHandler) (err : bool)
| Publish (topic : jsstring)
| Disconnect
| EndCallback (err : bool)
| Emit (c : nat) (ev : transportEvent).

Definition step (st : client) (a : action) : client :=
  match a with
  | Connect connectThrows => (connect connectThrows st).2
  | Subscribe topic handler => (subscribe topic handler st).2
  | SubscribeCallback topic handler err => subscribeCallback topic handler err st
  | Publish topic => (publish topic st).2
  | Disconnect => (disconnect st).2
  | EndCallback err => endCallback err st
  | Emit c ev => emitEvent c ev st
  end.

Definition run (actions : list action) (st : client) : client :=
  foldl step st actions.

(** The batch a [reconnect] event is to send. *)
Definition restoreBatch (c : nat) (st : client) : list nativeCall :=
  match JsMap.keys st.(subscriptions) with
  | [] => []
  | topics => [NSubscribeMany c topics]
  end.

(** The native client [c] exists: [connect] has created it and put its
    listeners on it. *)
Definition created (c : nat) (st : client) : Prop := c < length st.(natives).

(** A session: connect, the broker acknowledges, two subscriptions each
    acknowledged, and the transport drops. *)
Definition sampleSession : list action :=
  [Connect false; Emit 0 TConnect;
   Subscribe (js "devices/+/state") 1;
   SubscribeCallback (js "devices/+/state") 1 false;
   Subscribe (js "zigbee2mqtt/#") 2;
   SubscribeCallback (js "zigbee2mqtt/#") 2 false;
   Emit 0 TClose].

(** The state reached from creation by [actions], and the state [k]
    [reconnect] events of the native client [c] lead to from [st]. *)
Definition reached (actions : list action) : client := run actions createMqttClient.

Definition afterReconnects (c k : nat) (st : client) : client :=
  run (replicate k (Emit c TReconnect)) st.

(** Every native client has its [reconnect] listener. *)
Definition allListen (st : client) : Prop :=
  Forall (λ n, n.(onReconnect) = true) st.(natives).

(** The topics subscribed to, as the history of the client tells them:
    those whose [subscribe] the broker has acknowledged since the last
    [disconnect] that went through, in the order of their first
    acknowledgement. *)
Definition acknowledge (topics : list jsstring) (a : action) : list jsstring :=
  match a with
  | SubscribeCallback topic _ false =>
      if bool_decide (topic ∈ topics) then topics else topics ++ [topic]
  | EndCallback false => []
  | _ => topics
  end.

Definition acknowledged (actions : list action) : list jsstring :=
  foldl acknowledge [] actions.

End MqttClient.

(** ** Command queue: runs of calls (core/command-queue.ts) *)

Module CommandQueueRuns.
Import CommandQueue.

Section Runs.
Context {T : Type}.

(** Consecutive [dequeue] calls, with the result of each. *)
Fixpoint dequeueN (n : nat) (q : CommandQueue T) : list (option T) * CommandQueue T :=
  match n with
  | O => ([], q)
  | S n' =>
      let '(r, q1) := dequeue q in
      let '(rs, q2) := dequeueN n' q1 in
      (r :: rs, q2)
  end.

(** A call on the queue, whatever it returns or throws. *)
Inductive queueCall := CallEnqueue (cmd : T) | CallDequeue.

Definition afterCall (q : CommandQueue T) (c : queueCall) : CommandQueue T :=
  match c with
  | CallEnqueue cmd => (enqueue cmd q).2
  | CallDequeue => (dequeue q).2
  end.

Definition afterCalls (cs : list queueCall) (q : CommandQueue T) : CommandQueue T :=
  foldl afterCall q cs.

End Runs.

End CommandQueueRuns.

(** ** Retry policy: what the option check accepts *)

Module RetryChecks.

(** A non-negative integer, and a positive finite number. *)
Definition isNonNegativeInteger (x : number) : Prop :=
  ∃ (n : nat) (q : Q), x = Finite q ∧ (q == inject_Z (Z.of_nat n))%Q.

Definition isPositiveFinite (x : number) : Prop :=
  ∃ q : Q, x = Finite q ∧ (0 < q)%Q.

Definition isCheckError {T E : Type} (o : RetryPolicy.outcome (T:=T) (E:=E)) : Prop :=
  ∃ msg, o = RetryPolicy.RejectedCheck RangeError msg.

End RetryChecks.

(** ** Retry policy: reading a trace *)

Module RetryTraces.
Import RetryPolicy.


(** The options of a run whose numbers pass the check. *)
Definition checkedOptions {E : Type} (r : nat) (b m : Q) (jitter : bool)
    (cb : option (E -> nat -> number -> result unit)) : RetryOptions (E:=E) :=
  {| retries := Some (of_nat r); baseMs := Some (Finite b); maxMs := Some (Finite m);
     jitter := Some jitter; onRetry := cb |}.

Definition isSome {A : Type} (o : option A) : bool :=
  match o with Some _ => true | None => false end.

End RetryTraces.

(** ** Strings: joining and the alphabet of slugs *)

Module JsStringMore.

(** [segments.join(sep)] for a one-unit separator. *)
Fixpoint join (sep : char16) (segments : list jsstring) : jsstring :=
  match segments with
  | [] => []
  | [seg] => seg
  | seg :: rest => seg ++ sep :: join sep rest
  end.

(** A unit a slug may hold: one the pattern of [toKebabCase] keeps, or a
    hyphen. *)
Definition isSlugUnit (c : char16) : Prop :=
  Utils.isKept c = true ∨ c = HYPHEN.

(** The shape of a slug: slug units only, no hyphen at either end, no two
    hyphens in a row. *)
Definition isSlug (s : jsstring) : Prop :=
  Forall isSlugUnit s
  ∧ head s ≠ Some HYPHEN
  ∧ last s ≠ Some HYPHEN
  ∧ Utils.noDoubleHyphen s.

(** No white space at either end. *)
Definition isTrimmed (s : jsstring) : Prop :=
  (∀ c, head s = Some c → isWhiteSpace c = false)
  ∧ (∀ c, last s = Some c → isWhiteSpace c = false).

End JsStringMore.

(** ** Topics: patterns without wildcards, and state topics *)

Module Topics.
Import MqttClient MqttAdapter.

(** No segment of the pattern is [+] or [#]. *)
Definition hasNoWildcard (pattern : jsstring) : Prop :=
  ∀ seg, seg ∈ split SLASH pattern → seg ≠ PLUS ∧ seg ≠ HASH.

(** [prefix/#] *)
Definition subtreePattern (prefix : jsstring) : jsstring := prefix ++ SLASH :: HASH.

(** The topic [prefix] itself or a topic below it. *)
Definition inSubtree (prefix topic : jsstring) : Prop :=
  topic = prefix ∨ ∃ rest, topic = prefix ++ SLASH :: rest.

(** The state topic [<base>/<deviceId>/state] of the default convention. *)
Definition stateTopic (base deviceId : jsstring) : jsstring :=
  base ++ SLASH :: deviceId ++ SLASH :: STATE.

End Topics.

(** ** Adapter contract and registries: what is accepted, what is reached *)

Module Contracts.
Import AdapterInterface.

(** The contract in words: an object ([typeof] gives "object", so not a
    function), with a [name] that is a string and not blank, the six methods as functions,
    [executeCommand] declared with two parameters, and [scanDevices], when
    the property is there, a function. *)
Definition meetsContract (h : heap) (adapter : value) : Prop :=
  ∃ l,
    adapter = VRef l ∧ typeof h adapter = TObject
    ∧ (∃ name, getProp h l (js "name") = VStr name ∧ isBlank name = false)
    ∧ (∀ m, m ∈ REQUIRED_METHODS → isFunction h (getProp h l m) = true)
    ∧ functionLength h (getProp h l (js "executeCommand")) = Some EXPECTED_PARAMS
    ∧ (hasProp h l (js "scanDevices") = true →
       isFunction h (getProp h l (js "scanDevices")) = true).

(** The registries [register] calls lead to from a new one. *)
Definition reachedRegistry (calls : list (heap * jsstring * value)%type) : JsMap.t value :=
  AdapterRegistry.registerAll calls AdapterRegistry.createAdapterRegistry.

(** The device directories [registerDevice] calls lead to from a new one. *)
Definition registerDevices (devices : list DeviceManager.DeviceMetadata)
    (ds : JsMap.t DeviceManager.DeviceMetadata) : JsMap.t DeviceManager.DeviceMetadata :=
  foldl (λ acc d, (DeviceManager.registerDevice d acc).2) ds devices.

End Contracts.

(** ** Device state merge: the arguments the checks see *)

Module DeviceStateChecks.
Import DeviceState.


End DeviceStateChecks.

(** ** In-memory state store (storage/state-store.ts) *)

Module StateStore.
Import DeviceState.

(** The [Map] the four closures of [createInMemoryStateStore] share. *)
Abbreviation store := (JsMap.t value) (only parsing).

Definition createInMemoryStateStore : store := [].

Definition BAD_KEY : string := "key must be a non-empty string".
Definition BAD_PARTIAL : string := "partial must be an object".

(** [store.get(key)] of the [Map]: [undefined] for a key it does not hold. *)
Definition stored (key : jsstring) (st : store) : value :=
  default VUndefined (JsMap.get key st).

Definition get (key : jsstring) (st : store) : result value :=
  if isBlank key then Throw TypeError BAD_KEY
  else Ok (stored key st).

Definition set (key : jsstring) (val : value) (st : store) : result unit * store :=
  if isBlank key then (Throw TypeError BAD_KEY, st)
  else (Ok tt, JsMap.set key val st).

(** A value whose [typeof] is "object", as the argument of
    [mergeDeviceState]. *)
Definition asPatch (partial : value) : option patchArg :=
  match partial with
  | VNull => Some PatchNull
  | VUndefined => Some PatchUndefined
  | VRef l => Some (PatchObject l)
  | _ => None
  end.

(** [patch] gives what it resolves or rejects with, the heap and the
    [Map] after the call. The empty object for a first write is made
    before the merge. *)
Definition patch (key : jsstring) (partial : value) (h : heap) (st : store)
  : result value * heap * store :=
  if isBlank key then (Throw TypeError BAD_KEY, h, st)
  else if negb (bool_decide (typeof h partial = TObject))
  then (Throw TypeError BAD_PARTIAL, h, st)
  else
    let current := stored key st in
    let '(base, h0) :=
      if isUndefined current
      then let '(l, h0) :=
             alloc h {| okind := Plain; proto := ProtoInitial; props := ∅ |} in
           (VRef l, h0)
      else (current, h) in
    match asPatch partial with
    | None => (Throw TypeError BAD_PARTIAL, h, st)
    | Some p =>
        match mergeDeviceState base p h0 with
        | (Ok merged, h1) => (Ok merged, h1, JsMap.set key merged st)
        | (Throw c msg, h1) => (Throw c msg, h1, st)
        end
    end.

(** [keys(prefix)]; [None] is a call without argument. *)
Definition keys (prefix : option jsstring) (st : store) : list jsstring :=
  let allKeys := JsMap.keys st in
  match prefix with
  | None => allKeys
  | Some p =>
      if length p =? 0 then allKeys
      else List.filter (λ key, startsWith key p) allKeys
  end.



End StateStore.

(** ** Device manager: state patches (core/device-manager.ts) *)

Module DeviceManagerState.

Definition BAD_DEVICE_ID : string := "deviceId must be a non-empty string".
Definition BAD_PATCH : string := "patch must be a plain object".
Definition PATCH_FAILED : string := "Failed to apply state patch for device".

Definition validatePatch (h : heap) (patch : value) : result unit :=
  if negb (bool_decide (typeof h patch = TObject)) || isNull patch || isArray h patch
  then Throw TypeError BAD_PATCH
  else Ok tt.


(** [applyStatePatch] over the in-memory store; what the store throws is
    caught and a plain Error thrown in its place. *)
Definition applyStatePatch (deviceId : jsstring) (patch : value) (h : heap)
    (st : JsMap.t value) : result value * heap * JsMap.t value :=
  if isBlank deviceId then (Throw TypeError BAD_DEVICE_ID, h, st)
  else
    match validatePatch h patch with
    | Throw c msg => (Throw c msg, h, st)
    | Ok _ =>
        match StateStore.patch deviceId patch h st with
        | (Ok updatedState, h', st') => (Ok updatedState, h', st')
        | (Throw _ _, h', st') => (Throw PlainError PATCH_FAILED, h', st')
        end
    end.

(** A plain patch [{power: "on"}] at address 0, over an empty store. *)
Definition samplePowerPatch : object :=
  {| okind := Plain; proto := ProtoInitial;
     props := <[js "power" := VStr (js "on")]> ∅ |}.

Definition samplePatchHeap : heap := <[0 := samplePowerPatch]> ∅.

End DeviceManagerState.

(** ** MQTT client: messages and the end of a session *)

Module MqttSessions.
Import MqttClient.

(** The handlers of the patterns that match [topic], in the order of the
    subscription table. *)
Definition handlersFor (topic : jsstring) (subs : JsMap.t nat) : list nat :=
  (List.filter (λ ph, matchTopic ph.1 topic) subs).*2.

(** The promise of a [connect] call being settled. *)
Definition isSettlement (c : nativeCall) : bool :=
  match c with
  | NResolve _ | NReject _ => true
  | _ => false
  end.

(** Transport events, each of some native client, in order. *)
Definition emitAll (events : list (nat * transportEvent)) (st : client) : client :=
  run ((λ ce, Emit ce.1 ce.2) <$> events) st.

(** [disconnect()] carried through: the native [end] has called back
    without error. *)
Definition disconnected (st : client) : client := endCallback false st.

(** What holds of every state the client reaches: every native client
    has its [message] listener, and no topic is twice in the table. *)
Definition sound (st : client) : Prop :=
  Forall (λ n, n.(onMessage) = true) st.(natives)
  ∧ NoDup (JsMap.keys st.(subscriptions)).

(** No subscription and no current client: the state after a
    [disconnect] and what transport events leave of it. *)
Definition silent (st : client) : Prop :=
  st.(subscriptions) = [] ∧ st.(current) = None.

End MqttSessions.

(** ** Device manager: resources by URI (core/device-manager.ts) *)

Module DeviceResources.
Import DeviceManager.

(** The URI [getDeviceStates] and [readDeviceResource] give a device. *)
Definition uriOf (device : DeviceMetadata) : result jsstring :=
  Device.buildDeviceResourceUri
    {| Device.location := device.(location);
       Device.friendlyName := device.(friendlyName) |}.

(** [devices.find(...)] of [readDeviceResource]: an exception of the
    callback ends the search. *)
Fixpoint findByUri (uri : jsstring) (devices : list DeviceMetadata)
  : result (option DeviceMetadata) :=
  match devices with
  | [] => Ok None
  | device :: rest =>
      deviceUri <- uriOf device ;;;
      if str_eqb deviceUri uri then Ok (Some device) else findByUri uri rest
  end.

(** The device [readDeviceResource] builds its resource from; [None] is
    [undefined]. The text of the resource, the stored state as JSON, is
    left out. *)
Definition readDeviceResource (uri : jsstring) (ds : JsMap.t DeviceMetadata)
  : result (option DeviceMetadata) :=
  findByUri uri (listDevices ds).

(** A device whose URI is built and is not [uri]. *)
Definition passedOver (uri : jsstring) (device : DeviceMetadata) : Prop :=
  ∃ deviceUri, uriOf device = Ok deviceUri ∧ deviceUri ≠ uri.

Definition lampIn (id loc name : string) : DeviceMetadata :=
  {| id := Some (js id); friendlyName := js name; location := js loc;
     type := js "light"; capabilities := None; protocol := None |}.

(** Two devices whose names differ in case and spacing only. *)
Definition sampleDirectory : JsMap.t DeviceMetadata :=
  [(js "lamp-1", lampIn "lamp-1" "Living Room" "Main Light");
   (js "lamp-2", lampIn "lamp-2" "living-room" "main light")].

End DeviceResources.

(** ** Command validation (utils/command-validator.ts) *)

Module CommandValidator.

Definition BRIGHTNESS_MIN : number := of_nat 0.
Definition BRIGHTNESS_MAX : number := of_nat 255.
Definition COLOR_TEMP_MIN : number := of_nat 1500.
Definition COLOR_TEMP_MAX : number := of_nat (Z.to_nat 6500).
Definition VALID_POWER_VALUES : list jsstring := js <$> ["ON"; "OFF"; "on"; "off"]%string.

(** [assertNonEmptyString] on a value of any type. *)
Definition assertNonEmptyStringOf (name : string) (v : value) : result jsstring :=
  match v with
  | VStr s => Utils.assertNonEmptyString name s Utils.DEFAULT_MAX_STRING_LENGTH
  | _ => Throw TypeError (name ++ " must be a string")
  end.

Definition outOfRange (lo hi : number) (v : value) : bool :=
  match v with
  | VNum n => num_lt n lo || num_lt hi n
  | _ => true
  end.

Definition validateBrightness (brightness : value) : result unit :=
  if outOfRange BRIGHTNESS_MIN BRIGHTNESS_MAX brightness
  then Throw RangeError "brightness must be a number between 0 and 255"
  else Ok tt.

Definition validateColorTemp (colorTemp : value) : result unit :=
  if outOfRange COLOR_TEMP_MIN COLOR_TEMP_MAX colorTemp
  then Throw RangeError "color_temp must be a number between 1500 and 6500"
  else Ok tt.

Definition validatePower (power : value) : result unit :=
  match power with
  | VStr s =>
      if bool_decide (s ∈ VALID_POWER_VALUES) then Ok tt
      else Throw RangeError "power must be one of: ON, OFF, on, off"
  | _ => Throw RangeError "power must be one of: ON, OFF, on, off"
  end.

(** One of the three guarded checks: the key is in [cmd] and the
    capability is listed. *)
Definition checked (h : heap) (cmd : loc) (key capability : jsstring)
    (capabilities : list jsstring) : bool :=
  hasProp h cmd key && bool_decide (capability ∈ capabilities).

Definition validateCommand (h : heap) (cmd : loc) (capabilities : list jsstring)
  : result unit :=
  _ <- assertNonEmptyStringOf "deviceId" (getProp h cmd (js "deviceId")) ;;;
  _ <- (if checked h cmd (js "brightness") (js "brightness") capabilities
        then validateBrightness (getProp h cmd (js "brightness")) else Ok tt) ;;;
  _ <- (if checked h cmd (js "colorTemp") (js "color_temp") capabilities
        then validateColorTemp (getProp h cmd (js "colorTemp")) else Ok tt) ;;;
  if checked h cmd (js "power") (js "power") capabilities
  then validatePower (getProp h cmd (js "power")) else Ok tt.

(** A number the range check lets through: not below [lo], not above
    [hi]. *)
Definition within (lo hi : number) (v : value) : Prop :=
  ∃ n, v = VNum n ∧ num_lt n lo = false ∧ num_lt hi n = false.

(** The device id is a string, not blank, of at most 256 units once
    trimmed. *)
Definition goodDeviceId (v : value) : Prop :=
  ∃ s, v = VStr s ∧ isBlank s = false
       ∧ length (trim s) ≤ Utils.DEFAULT_MAX_STRING_LENGTH.

End CommandValidator.

(** ** State emitter of the adapters (adapters/base-adapter.ts) *)

Module StateEmitter.

(** A callback is known by a number. What a callback does to the emitter
    itself while it runs is left out. *)
Inductive emitted :=
| Called (cb : nat) (deviceId : jsstring) (state : value)
| Logged (cb : nat).

(** The [Set] of subscribers, in insertion order, and what has been
    called and logged so far. *)
Record emitter := { subscribers : list nat; emissions : list emitted }.

Definition createStateEmitter : emitter := {| subscribers := []; emissions := [] |}.

(** [subscribers.add(cb)] *)
Definition add (cb : nat) (s : list nat) : list nat :=
  if bool_decide (cb ∈ s) then s else s ++ [cb].

Definition onDeviceStateChange (cb : nat) (e : emitter) : emitter :=
  {| subscribers := add cb e.(subscribers); emissions := e.(emissions) |}.

(** One turn of [forEach]: the callback is called, and what it throws is
    caught and logged. *)
Definition notify (throws : nat → bool) (deviceId : jsstring) (state : value) (cb : nat)
  : list emitted :=
  Called cb deviceId state :: (if throws cb then [Logged cb] else []).

Definition emitState (throws : nat → bool) (deviceId : jsstring) (state : value)
    (e : emitter) : result unit * emitter :=
  if isBlank deviceId
  then (Throw TypeError "deviceId must be a non-empty string", e)
  else
    (Ok tt,
     {| subscribers := e.(subscribers);
        emissions := e.(emissions)
                     ++ concat (notify throws deviceId state <$> e.(subscribers)) |}).

Definition subscribeAll (cbs : list nat) (e : emitter) : emitter :=
  foldl (λ acc cb, onDeviceStateChange cb acc) e cbs.

(** How often [cb] is called in a run of emissions. *)
Definition callsTo (cb : nat) (l : list emitted) : nat :=
  length (List.filter (λ ev, match ev with
                             | Called cb' _ _ => bool_decide (cb' = cb)
                             | Logged _ => false
                             end) l).

End StateEmitter.

(** ** Security manager: rate limit and audit log (infrastructure/security.ts) *)

Module SecurityManager.

Inductive SecurityLevel := Low | Medium | High | Critical.

(** [rateLimiting] holds [maxRequestsPerMinute]; an absent list or limit
    is [None]. *)
Record DeviceSecurityConfig := {
  deviceId : jsstring;
  securityLevel : SecurityLevel;
  requiresConfirmation : bool;
  allowedOperations : option (list jsstring);
  deniedOperations : option (list jsstring);
  rateLimiting : option number
}.

(** The counter [count] is a whole number; [resetTime] is in
    milliseconds, as [Date.now()]. *)
Record RateLimitTracker := { count : nat; resetTime : Z }.

(** An entry of the audit log, as [logOperation] builds it from its
    arguments and the clock. *)
Record AuditLogEntry := {
  timestamp : jsstring;
  entryDeviceId : jsstring;
  operation : jsstring;
  success : bool
}.

Definition DEFAULT_MAX_AUDIT_LOG_SIZE : number := of_nat 1000.
Definition RATE_LIMIT_WINDOW_MS : Z := 60000.

Record manager := {
  configs : JsMap.t DeviceSecurityConfig;
  auditLog : list AuditLogEntry;
  rateLimitTrackers : JsMap.t RateLimitTracker;
  maxAuditLogSize : number
}.

Definition createSecurityManager (maxAuditLogSize : option number) : manager :=
  {| configs := []; auditLog := []; rateLimitTrackers := [];
     maxAuditLogSize := default DEFAULT_MAX_AUDIT_LOG_SIZE maxAuditLogSize |}.

Definition configureDevice (config : DeviceSecurityConfig) (m : manager) : manager :=
  {| configs := JsMap.set config.(deviceId) config m.(configs);
     auditLog := m.(auditLog); rateLimitTrackers := m.(rateLimitTrackers);
     maxAuditLogSize := m.(maxAuditLogSize) |}.

(** Why a request is refused. *)
Inductive refusal := ExplicitlyDenied | NotInAllowedList | RateLimitExceeded.

Inductive permission := Allowed | Refused (reason : refusal).

Definition isAllowed (p : permission) : bool :=
  match p with Allowed => true | Refused _ => false end.

Definition withTrackers (trackers : JsMap.t RateLimitTracker) (m : manager) : manager :=
  {| configs := m.(configs); auditLog := m.(auditLog);
     rateLimitTrackers := trackers; maxAuditLogSize := m.(maxAuditLogSize) |}.

(** [checkRateLimit]; [now] is what [Date.now()] gives. *)
Definition checkRateLimit (now : Z) (device : jsstring) (maxRequestsPerMinute : number)
    (m : manager) : permission * manager :=
  let renew :=
    (Allowed,
     withTrackers (JsMap.set device {| count := 1;
                                       resetTime := now + RATE_LIMIT_WINDOW_MS |}
                     m.(rateLimitTrackers)) m) in
  match JsMap.get device m.(rateLimitTrackers) with
  | None => renew
  | Some tracker =>
      if (tracker.(resetTime) <=? now)%Z then renew
      else if num_le maxRequestsPerMinute (of_nat tracker.(count))
      then (Refused RateLimitExceeded, m)
      else
        (Allowed,
         withTrackers (JsMap.set device {| count := S tracker.(count);
                                           resetTime := tracker.(resetTime) |}
                         m.(rateLimitTrackers)) m)
  end.

Definition includes (x : jsstring) (l : list jsstring) : bool := bool_decide (x ∈ l).

Definition checkPermission (now : Z) (device op : jsstring) (m : manager)
  : permission * manager :=
  match JsMap.get device m.(configs) with
  | None => (Allowed, m)
  | Some config =>
      if match config.(deniedOperations) with
         | Some denied => includes op denied
         | None => false
         end
      then (Refused ExplicitlyDenied, m)
      else if match config.(allowedOperations) with
              | Some allowed => (0 <? length allowed) && negb (includes op allowed)
              | None => false
              end
      then (Refused NotInAllowedList, m)
      else
        match config.(rateLimiting) with
        | Some maxRequestsPerMinute => checkRateLimit now device maxRequestsPerMinute m
        | None => (Allowed, m)
        end
  end.

(** [checkPermission] for one device and operation at each of [times]. *)
Fixpoint checkAll (times : list Z) (device op : jsstring) (m : manager)
  : list permission * manager :=
  match times with
  | [] => ([], m)
  | now :: rest =>
      let '(p, m1) := checkPermission now device op m in
      let '(ps, m2) := checkAll rest device op m1 in
      (p :: ps, m2)
  end.

(** The lists of the configuration let the operation through. *)
Definition listsPermit (config : DeviceSecurityConfig) (op : jsstring) : Prop :=
  (∀ denied, config.(deniedOperations) = Some denied → op ∉ denied)
  ∧ (∀ allowed, config.(allowedOperations) = Some allowed →
                allowed = [] ∨ op ∈ allowed).

(** [logOperation]: the entry is added at the end, and the oldest one is
    dropped when the log has grown past its bound. *)
Definition logOperation (entry : AuditLogEntry) (m : manager) : manager :=
  let pushed := m.(auditLog) ++ [entry] in
  {| configs := m.(configs);
     auditLog := if num_lt m.(maxAuditLogSize) (of_nat (length pushed))
                 then tail pushed else pushed;
     rateLimitTrackers := m.(rateLimitTrackers);
     maxAuditLogSize := m.(maxAuditLogSize) |}.

Definition logAll (entries : list AuditLogEntry) (m : manager) : manager :=
  foldl (λ acc entry, logOperation entry acc) m entries.

(** The critical configuration of [generateDefaultSecurityConfig], with
    its limit of 10 requests a minute, for a door lock. *)
Definition sampleLock : DeviceSecurityConfig :=
  {| deviceId := js "lock-1"; securityLevel := Critical; requiresConfirmation := true;
     allowedOperations := Some (js <$> ["read"; "status"]%string);
     deniedOperations := Some (js <$> ["unlock"; "disarm"]%string);
     rateLimiting := Some (of_nat 10) |}.

Definition sampleEntry (op : string) : AuditLogEntry :=
  {| timestamp := js "2024-01-01T00:00:00.000Z"; entryDeviceId := js "lock-1";
     operation := js op; success := true |}.

End SecurityManager.

(** ** Embedded broker: the port search (infrastructure/embedded-mqtt-broker.ts) *)

Module EmbeddedBroker.

Definition MAX_PORT_ATTEMPTS : nat := 10.
Definition MAX_PORT : number := Finite 65535.

(** A port [listen] takes: a whole number from 0 to 65535. *)
Definition isLegalPort (port : number) : bool :=
  isInteger port && num_le (of_nat 0) port && num_le port MAX_PORT.

(** [testPort(port, host)]. For a port it does not take, [listen] throws a
    RangeError inside the executor of the promise, which rejects with it.
    For any other port the promise resolves, to [true] when the server
    has listened and to [false] on its [error] event; [available] tells
    which of the two happens for a port. *)
Definition testPort (available : Z → bool) (port : number) : result bool :=
  if isLegalPort port then Ok (available (to_Z port))
  else Throw RangeError "Port should be >= 0 and < 65536".

(** The loop of [findAvailablePort] from its turn [i] on, with
    [remaining] turns left. *)
Fixpoint probe (available : Z → bool) (basePort : number) (i remaining : nat)
  : result number :=
  match remaining with
  | O => Throw PlainError "Unable to find available port"
  | S remaining' =>
      let port := num_add basePort (of_nat i) in
      isAvailable <- testPort available port ;;;
      if isAvailable then Ok port
      else probe available basePort (S i) remaining'
  end.

Definition findAvailablePort (available : Z → bool) (basePort : number)
    (maxAttempts : nat) : result number :=
  probe available basePort 0 maxAttempts.

(** The port [k] places after the whole number [b]. *)
Definition portAt (b : Z) (k : nat) : Z := (b + Z.of_nat k)%Z.

(** The ports 65530 to 65535 are taken, every other one is free. *)
Definition lastPortsTaken (port : Z) : bool := negb ((65530 <=? port) && (port <=? 65535))%Z.

End EmbeddedBroker.

(** * Properties *)

(** ** Rounding to a double *)

Module DoubleFacts.

Local Open Scope Q_scope.

Lemma rhe_bounds x : (Qfloor x <= roundHalfEven x <= Qfloor x + 1)%Z.
Proof.
  unfold roundHalfEven. destruct (_ ?= _); [destruct (Z.even _)|..]; lia.
Qed.

Lemma rhe_comp x y : x == y → roundHalfEven x = roundHalfEven y.
Proof.
  intros Hxy. unfold roundHalfEven.
  rewrite (Qfloor_comp _ _ Hxy).
  assert (x - inject_Z (Qfloor y) == y - inject_Z (Qfloor y)) as Heq by (by rewrite Hxy).
  by rewrite (Qcompare_comp _ _ Heq _ _ (Qeq_refl _)).
Qed.

Lemma rhe_Z n : roundHalfEven (inject_Z n) = n.
Proof.
  unfold roundHalfEven. rewrite Qfloor_Z.
  assert ((inject_Z n - inject_Z n ?= 1 # 2) = Lt) as ->; [|done].
  apply (proj1 (Qlt_alt _ _)). lra.
Qed.

Lemma rhe_ge x K : inject_Z K <= x → (K <= roundHalfEven x)%Z.
Proof.
  intros Hx. apply Qfloor_resp_le in Hx. rewrite Qfloor_Z in Hx.
  pose proof (rhe_bounds x). lia.
Qed.

Lemma rhe_le x K : x <= inject_Z K → (roundHalfEven x <= K)%Z.
Proof.
  intros Hx. pose proof (rhe_bounds x) as Hb. pose proof (Qfloor_le x) as Hf.
  destruct (Z_lt_le_dec (Qfloor x) K) as [Hlt|Hge]; [lia|].
  assert (Qfloor x = K) as HK.
  { apply Z.le_antisymm; [|done]. rewrite Zle_Qle. lra. }
  unfold roundHalfEven. rewrite HK.
  assert ((x - inject_Z K ?= 1 # 2) = Lt) as ->; [|lia].
  apply (proj1 (Qlt_alt _ _)). rewrite <- HK in Hx |- *. lra.
Qed.

Lemma rhe_mono x y : x <= y → (roundHalfEven x <= roundHalfEven y)%Z.
Proof.
  intros Hxy. pose proof (Qfloor_resp_le _ _ Hxy) as Hf.
  pose proof (rhe_bounds x) as Hx. pose proof (rhe_bounds y) as Hy.
  destruct (Z_lt_le_dec (Qfloor x) (Qfloor y)) as [Hlt|Hge]; [lia|].
  assert (Qfloor x = Qfloor y) as Heq by lia.
  unfold roundHalfEven. rewrite Heq.
  destruct (Qcompare_spec (x - inject_Z (Qfloor y)) (1 # 2)) as [H1|H1|H1];
    destruct (Qcompare_spec (y - inject_Z (Qfloor y)) (1 # 2)) as [H2|H2|H2];
    try (destruct (Z.even _)); try lia; exfalso; lra.
Qed.

Lemma pow2_pos e : 0 < 2 ^ e.
Proof. by apply Qpower_0_lt. Qed.

Lemma pow2_le e1 e2 : (e1 <= e2)%Z → 2 ^ e1 <= 2 ^ e2.
Proof. intros. apply Qpower_le_compat_l; [done|lra]. Qed.

Lemma pow2_lt e1 e2 : (e1 < e2)%Z → 2 ^ e1 < 2 ^ e2.
Proof. intros. apply Qpower_lt_compat_l; [done|lra]. Qed.

Lemma pow2_lt_inv e1 e2 : 2 ^ e1 < 2 ^ e2 → (e1 < e2)%Z.
Proof. intros. apply (Qpower_lt_compat_l_inv 2); [done|lra]. Qed.

Lemma pow2_plus e1 e2 : 2 ^ (e1 + e2) == 2 ^ e1 * 2 ^ e2.
Proof. apply Qpower_plus. lra. Qed.

Lemma pow2_minus e1 e2 : 2 ^ (e1 - e2) == 2 ^ e1 / 2 ^ e2.
Proof. apply Qpower_minus. lra. Qed.

Lemma pow2_Z n : (0 <= n)%Z → inject_Z (2 ^ n) == 2 ^ n.
Proof. intros. by rewrite Zpower_Qpower. Qed.

Lemma div_lt_div n d a b : 0 < d → 0 < b → n * b < a * d → n / d < a / b.
Proof.
  intros Hd Hb H. apply (Qlt_shift_div_l (n / d) a b); [done|].
  assert (n / d * b == n * b / d) as Heq by (field; lra). rewrite Heq.
  by apply Qlt_shift_div_r.
Qed.

Lemma div_le_div n d a b : 0 < d → 0 < b → n * b <= a * d → n / d <= a / b.
Proof.
  intros Hd Hb H. apply (Qle_shift_div_l (n / d) a b); [done|].
  assert (n / d * b == n * b / d) as Heq by (field; lra). rewrite Heq.
  by apply Qle_shift_div_r.
Qed.

Lemma binade_spec q : 0 < q → 2 ^ binade q <= q ∧ q < 2 ^ (binade q + 1).
Proof.
  intros Hq. unfold binade.
  destruct q as [n d]. simpl Qnum. simpl Qden.
  assert (0 < n)%Z as Hn by (unfold Qlt in Hq; simpl in Hq; lia).
  set (a := Z.log2 n). set (b := Z.log2 (Z.pos d)).
  destruct (Z.log2_spec n Hn) as [Ha1 Ha2]. fold a in Ha1, Ha2.
  destruct (Z.log2_spec (Z.pos d) (Pos2Z.is_pos d)) as [Hb1 Hb2]. fold b in Hb1, Hb2.
  assert (0 <= a)%Z as Ha0 by apply Z.log2_nonneg.
  assert (0 <= b)%Z as Hb0 by apply Z.log2_nonneg.
  assert (n # d == inject_Z n / inject_Z (Z.pos d)) as Hnd by apply Qmake_Qdiv.
  assert (0 < inject_Z (Z.pos d)) as Hd.
  { change 0 with (inject_Z 0). rewrite <- Zlt_Qlt. lia. }
  pose proof (pow2_pos a) as Hpa. pose proof (pow2_pos b) as Hpb.
  assert (2 ^ a <= inject_Z n) as HA1 by (rewrite <- pow2_Z, <- Zle_Qle; done).
  assert (∀ z c, (0 <= c)%Z → (z < 2 ^ (c + 1))%Z → inject_Z z < 2 * 2 ^ c) as Hdouble.
  { intros z c Hc Hz. replace (c + 1)%Z with (Z.succ c) in Hz by lia.
    rewrite Z.pow_succ_r in Hz by done.
    rewrite Zlt_Qlt, inject_Z_mult, pow2_Z in Hz by done.
    exact Hz. }
  assert (inject_Z n < 2 * 2 ^ a) as HA2 by by apply Hdouble.
  assert (2 ^ b <= inject_Z (Z.pos d)) as HB1 by (rewrite <- pow2_Z, <- Zle_Qle; done).
  assert (inject_Z (Z.pos d) < 2 * 2 ^ b) as HB2 by by apply Hdouble.
  destruct (Qle_bool (2 ^ (a - b)) (n # d)) eqn:Hle.
  - apply Qle_bool_iff in Hle. split; [done|].
    rewrite Hnd. replace (a - b + 1)%Z with ((a + 1) - b)%Z by lia.
    rewrite pow2_minus, pow2_plus. change (2 ^ 1) with 2.
    apply div_lt_div; [done..|]. nra.
  - assert (n # d < 2 ^ (a - b)) as Hlt.
    { apply Qnot_le_lt. intros H. apply Qle_bool_iff in H. congruence. }
    replace (a - b - 1 + 1)%Z with (a - b)%Z by lia. split; [|done].
    rewrite Hnd. replace (a - b - 1)%Z with (a - (b + 1))%Z by lia.
    rewrite pow2_minus, pow2_plus. change (2 ^ 1) with 2.
    apply div_le_div; [nra|done|]. nra.
Qed.

Lemma binade_unique q e : 0 < q → 2 ^ e <= q → q < 2 ^ (e + 1) → binade q = e.
Proof.
  intros Hq H1 H2. destruct (binade_spec q Hq) as [B1 B2].
  assert (binade q < e + 1)%Z by (apply pow2_lt_inv; lra).
  assert (e < binade q + 1)%Z by (apply pow2_lt_inv; lra).
  lia.
Qed.

Lemma binade_mono q1 q2 : 0 < q1 → q1 <= q2 → (binade q1 <= binade q2)%Z.
Proof.
  intros Hq Hle. destruct (binade_spec q1 Hq) as [B1 _].
  destruct (binade_spec q2) as [_ B2]; [lra|].
  assert (binade q1 < binade q2 + 1)%Z by (apply pow2_lt_inv; lra). lia.
Qed.

Lemma binade_comp q1 q2 : 0 < q1 → q1 == q2 → binade q1 = binade q2.
Proof.
  intros Hq Heq. symmetry. destruct (binade_spec q1 Hq) as [B1 B2].
  apply binade_unique; lra.
Qed.

Lemma pow2_cancel e ex : 2 ^ e / 2 ^ ex == 2 ^ (e - ex).
Proof. symmetry. apply pow2_minus. Qed.

Lemma scaled_le q ex g :
  (ex <= g)%Z → q <= 2 ^ g → inject_Z (roundHalfEven (q / 2 ^ ex)) * 2 ^ ex <= 2 ^ g.
Proof.
  intros Hg Hq. pose proof (pow2_pos ex) as Hex.
  assert (q / 2 ^ ex <= inject_Z (2 ^ (g - ex))) as Hx.
  { rewrite pow2_Z by lia. rewrite <- pow2_cancel.
    apply div_le_div; [done..|]. nra. }
  apply rhe_le in Hx. rewrite Zle_Qle, pow2_Z in Hx by lia.
  assert (2 ^ g == 2 ^ (g - ex) * 2 ^ ex) as Hg2.
  { rewrite <- pow2_plus. by replace (g - ex + ex)%Z with g by lia. }
  rewrite Hg2. nra.
Qed.

Lemma scaled_ge q ex g :
  (ex <= g)%Z → 2 ^ g <= q → 2 ^ g <= inject_Z (roundHalfEven (q / 2 ^ ex)) * 2 ^ ex.
Proof.
  intros Hg Hq. pose proof (pow2_pos ex) as Hex.
  assert (inject_Z (2 ^ (g - ex)) <= q / 2 ^ ex) as Hx.
  { rewrite pow2_Z by lia. rewrite <- pow2_cancel.
    apply div_le_div; [done..|]. nra. }
  apply rhe_ge in Hx. rewrite Zle_Qle, pow2_Z in Hx by lia.
  assert (2 ^ g == 2 ^ (g - ex) * 2 ^ ex) as Hg2.
  { rewrite <- pow2_plus. by replace (g - ex + ex)%Z with g by lia. }
  rewrite Hg2. nra.
Qed.

Lemma nearest_mono q1 q2 : 0 < q1 → q1 <= q2 → nearest q1 <= nearest q2.
Proof.
  intros Hq Hle. assert (0 < q2) as Hq2 by lra.
  pose proof (binade_mono q1 q2 Hq Hle) as HE.
  destruct (binade_spec q1 Hq) as [_ B1]. destruct (binade_spec q2 Hq2) as [B2 _].
  unfold nearest, ulpExponent, MANTISSA_BITS, MIN_EXPONENT in *.
  set (E1 := binade q1) in *. set (E2 := binade q2) in *.
  set (ex1 := Z.max (E1 - 52) (-1074)). set (ex2 := Z.max (E2 - 52) (-1074)).
  assert (ex1 <= ex2)%Z as Hex by lia.
  destruct (Z.eq_dec ex1 ex2) as [Heq|Hne].
  - rewrite <- Heq. pose proof (pow2_pos ex1) as Hp.
    assert (q1 / 2 ^ ex1 <= q2 / 2 ^ ex1) as Hx by (apply div_le_div; [done..|nra]).
    apply rhe_mono in Hx. rewrite Zle_Qle in Hx. nra.
  - set (g := Z.max (E1 + 1) ex1).
    apply (Qle_trans _ (2 ^ g)).
    + apply scaled_le; [lia|].
      apply (Qle_trans _ (2 ^ (E1 + 1))); [lra|]. apply pow2_le. lia.
    + apply (Qle_trans _ (2 ^ E2)); [apply pow2_le; lia|].
      apply scaled_ge; [lia|done].
Qed.

Lemma nearest_nonneg q : 0 < q → 0 <= nearest q.
Proof.
  intros Hq. unfold nearest. pose proof (pow2_pos (ulpExponent q)) as Hp.
  assert (0 <= q / 2 ^ ulpExponent q) as Hx.
  { apply Qle_shift_div_l; [done|]. lra. }
  apply (rhe_ge _ 0) in Hx. rewrite Zle_Qle in Hx. change (inject_Z 0) with 0 in Hx.
  apply Qmult_le_0_compat; lra.
Qed.

Lemma roundPos_mono q1 q2 :
  0 < q1 → q1 <= q2 → num_le (roundPos q1) (roundPos q2) = true.
Proof.
  intros Hq Hle. pose proof (nearest_mono q1 q2 Hq Hle) as Hn.
  unfold roundPos.
  destruct (Qle_bool OVERFLOW (nearest q2)) eqn:H2.
  - by destruct (Qle_bool OVERFLOW (nearest q1)).
  - destruct (Qle_bool OVERFLOW (nearest q1)) eqn:H1.
    + apply Qle_bool_iff in H1. assert (OVERFLOW <= nearest q2) as H by lra.
      apply Qle_bool_iff in H. congruence.
    + simpl. apply Qle_bool_iff. by rewrite !Qred_correct.
Qed.

Lemma round64_pos q : 0 < q → round64 q = roundPos q.
Proof. intros Hq. unfold round64. by rewrite (proj1 (Qgt_alt _ _) Hq). Qed.

Lemma round64_zero q : q == 0 → round64 q = Finite 0.
Proof. intros Hq. unfold round64. by rewrite (proj1 (Qeq_alt _ _) Hq). Qed.

(** Rounding keeps the order of real numbers that are not negative. *)
Lemma round64_mono q1 q2 :
  0 <= q1 → q1 <= q2 → num_le (round64 q1) (round64 q2) = true.
Proof.
  intros H1 Hle. destruct (Qlt_le_dec 0 q1) as [Hpos|Hzero].
  - rewrite !round64_pos by lra. by apply roundPos_mono.
  - rewrite (round64_zero q1) by lra.
    destruct (Qlt_le_dec 0 q2) as [Hpos2|Hzero2].
    + rewrite round64_pos by done. unfold roundPos.
      destruct (Qle_bool _ _); [done|]. simpl.
      apply Qle_bool_iff. rewrite Qred_correct. by apply nearest_nonneg.
    + rewrite (round64_zero q2) by lra. done.
Qed.

(** A multiple [m * 2^e] of a power of two with [m] below [2^53] and
    [e] not below the least exponent is its own nearest double. *)
Lemma nearest_exact m e q :
  (0 < m < 2 ^ 53)%Z → (-1074 <= e)%Z → q == inject_Z m * 2 ^ e → nearest q == q.
Proof.
  intros [Hm0 Hm] He Hq.
  pose proof (pow2_pos e) as Hpe.
  assert (0 < inject_Z m) as Hm0' by (change 0 with (inject_Z 0); by rewrite <- Zlt_Qlt).
  assert (inject_Z m < 2 ^ 53) as Hm'.
  { rewrite <- pow2_Z by done. by rewrite <- Zlt_Qlt. }
  assert (0 < q) as Hq0 by nra.
  destruct (binade_spec q Hq0) as [B1 B2].
  assert (binade q < 53 + e)%Z as HE.
  { apply pow2_lt_inv. rewrite pow2_plus. nra. }
  unfold nearest, ulpExponent, MANTISSA_BITS, MIN_EXPONENT.
  set (ex := Z.max (binade q - 52) (-1074)).
  assert (ex <= e)%Z as Hex by lia.
  pose proof (pow2_pos ex) as Hpex.
  assert (2 ^ e == 2 ^ (e - ex) * 2 ^ ex) as Hsplit.
  { rewrite <- pow2_plus. by replace (e - ex + ex)%Z with e by lia. }
  assert (q / 2 ^ ex == inject_Z (m * 2 ^ (e - ex))) as Hx.
  { rewrite inject_Z_mult, pow2_Z by lia. rewrite Hq, Hsplit. field. lra. }
  rewrite (rhe_comp _ _ Hx), rhe_Z.
  rewrite inject_Z_mult, pow2_Z by lia. rewrite Hq, Hsplit. ring.
Qed.

Lemma isDouble_repr q :
  0 < q → isDouble q = true →
  ∃ m e, (0 < m < 2 ^ 53)%Z ∧ (-1074 <= e)%Z ∧ q == inject_Z m * 2 ^ e ∧ q < OVERFLOW.
Proof.
  intros Hq Hd. unfold isDouble in Hd. rewrite round64_pos in Hd by done.
  unfold roundPos in Hd.
  destruct (Qle_bool OVERFLOW (nearest q)) eqn:Hover; [done|].
  apply Qeq_bool_iff in Hd. rewrite Qred_correct in Hd.
  assert (q < OVERFLOW) as Hlt.
  { apply Qnot_le_lt. intros H. rewrite <- Hd in H. apply Qle_bool_iff in H. congruence. }
  destruct (binade_spec q Hq) as [B1 B2].
  unfold nearest, ulpExponent, MANTISSA_BITS, MIN_EXPONENT in Hd.
  set (ex := Z.max (binade q - 52) (-1074)) in *.
  set (m := roundHalfEven (q / 2 ^ ex)) in *.
  pose proof (pow2_pos ex) as Hpex.
  assert (m <= 2 ^ 53)%Z as Hm.
  { apply rhe_le. rewrite pow2_Z by done.
    apply Qle_shift_div_r; [done|]. rewrite <- pow2_plus.
    apply (Qle_trans _ (2 ^ (binade q + 1))); [lra|]. apply pow2_le. lia. }
  assert (0 < m)%Z as Hm0.
  { rewrite Zlt_Qlt. change (inject_Z 0) with 0. nra. }
  destruct (Z.eq_dec m (2 ^ 53)%Z) as [Heq|Hne].
  - exists (2 ^ 52)%Z, (ex + 1)%Z. split; [lia|]. split; [lia|]. split; [|done].
    rewrite <- Hd, Heq, pow2_plus. change (2 ^ 1) with 2.
    rewrite !pow2_Z by done.
    assert (2 ^ 53 == 2 ^ 52 * 2) as H53 by (by vm_compute). rewrite H53. ring.
  - exists m, ex. split; [lia|]. split; [lia|]. split; [by symmetry|done].
Qed.


(** A double below 1 is at most [1 - 2^-53]. *)
Lemma double_below_one u : 0 <= u → u < 1 → isDouble u = true → u <= 1 - 2 ^ (-53).
Proof.
  intros H0 H1 Hd.
  assert (2 ^ (-53) <= 1 # 2) as Hsmall by (by vm_compute).
  destruct (Qlt_le_dec 0 u) as [Hpos|Hzero]; [|lra].
  destruct (isDouble_repr u Hpos Hd) as (m & e & [Hm0 Hm] & He & Hq & _).
  pose proof (pow2_pos e) as Hpe.
  assert (1 <= inject_Z m) as Hm1 by (change 1 with (inject_Z 1); rewrite <- Zle_Qle; lia).
  assert (inject_Z m <= 2 ^ 53) as Hm53.
  { rewrite <- pow2_Z by done. rewrite <- Zle_Qle. lia. }
  destruct (Z_lt_le_dec e (-53)) as [Hlow|Hhigh].
  - assert (2 ^ e <= 2 ^ (-54)) as Hp by (apply pow2_le; lia).
    assert (2 ^ 53 * 2 ^ (-54) == 1 # 2) as Hhalf by (by vm_compute).
    rewrite Hq. nra.
  - destruct (Z_lt_le_dec e 0) as [Hneg|Hnonneg].
    + pose proof (pow2_pos (- e)) as Hpk.
      assert (2 ^ e * 2 ^ (- e) == 1) as Hinv.
      { rewrite <- pow2_plus. by replace (e + - e)%Z with 0%Z by lia. }
      assert (inject_Z m < 2 ^ (- e)) as Hlt.
      { rewrite Hq in H1. nra. }
      rewrite <- pow2_Z, <- Zlt_Qlt in Hlt by lia.
      assert (inject_Z m <= 2 ^ (- e) - 1) as Hle.
      { rewrite <- pow2_Z by lia. unfold Qminus. change (- (1)) with (inject_Z (-1)).
        rewrite <- inject_Z_plus, <- Zle_Qle. lia. }
      assert (2 ^ (-53) <= 2 ^ e) as Hp by (apply pow2_le; lia).
      assert (0 <= (2 ^ (- e) - 1 - inject_Z m) * 2 ^ e) as Hprod
        by (apply Qmult_le_0_compat; lra).
      nra.
    + assert (1 <= 2 ^ e) as Hp by (change 1 with (2 ^ 0); apply pow2_le; lia).
      rewrite Hq in H1. nra.
Qed.

Lemma nearest_comp q1 q2 : 0 < q1 → q1 == q2 → nearest q1 == nearest q2.
Proof.
  intros Hq Heq. unfold nearest, ulpExponent.
  rewrite <- (binade_comp q1 q2 Hq Heq).
  set (ex := Z.max (binade q1 - MANTISSA_BITS) MIN_EXPONENT).
  assert (q1 / 2 ^ ex == q2 / 2 ^ ex) as Hx by (by rewrite Heq).
  by rewrite (rhe_comp _ _ Hx).
Qed.

Lemma roundPos_comp q1 q2 : 0 < q1 → q1 == q2 → roundPos q1 = roundPos q2.
Proof.
  intros Hq Heq. pose proof (nearest_comp q1 q2 Hq Heq) as Hn. unfold roundPos.
  assert (Qle_bool OVERFLOW (nearest q1) = Qle_bool OVERFLOW (nearest q2)) as ->.
  { destruct (Qle_bool OVERFLOW (nearest q2)) eqn:H2.
    - apply Qle_bool_iff. apply Qle_bool_iff in H2. by rewrite Hn.
    - destruct (Qle_bool OVERFLOW (nearest q1)) eqn:H1; [|done].
      apply Qle_bool_iff in H1. rewrite Hn in H1. apply Qle_bool_iff in H1. congruence. }
  destruct (Qle_bool _ _); [done|]. f_equal. by apply Qred_complete.
Qed.

(** Rounding gives one result for the fractions of one rational. *)
Lemma round64_comp q1 q2 : q1 == q2 → round64 q1 = round64 q2.
Proof.
  intros Heq. unfold round64.
  rewrite (Qcompare_comp q1 q2 Heq 0 0 (Qeq_refl 0)).
  destruct (q2 ?= 0) eqn:Hs; [done| |].
  - f_equal. apply roundPos_comp; [|by rewrite Heq].
    apply (proj2 (Qlt_alt _ _)) in Hs. lra.
  - apply roundPos_comp; [|done]. apply (proj2 (Qgt_alt _ _)) in Hs. lra.
Qed.





Lemma round64_nonneg q : 0 <= q → ∀ v, round64 q = Finite v → 0 <= v.
Proof.
  intros Hq v Hv. pose proof (round64_mono 0 q (Qle_refl 0) Hq) as Hm.
  rewrite (round64_zero 0), Hv in Hm by done. by apply Qle_bool_iff in Hm.
Qed.

(** What lies below a number that rounding keeps finite is rounded to a
    finite number below. *)
Lemma round64_le_finite q B b :
  0 <= q → q <= B → round64 B = Finite b →
  ∃ v, round64 q = Finite v ∧ 0 <= v ∧ v <= b.
Proof.
  intros Hq HB Hb. pose proof (round64_mono q B Hq HB) as Hm. rewrite Hb in Hm.
  destruct (round64 q) as [v| | |] eqn:Hv; try done.
  - exists v. split; [done|]. split; [by eapply round64_nonneg|by apply Qle_bool_iff].
  - pose proof (round64_mono 0 q (Qle_refl 0) Hq) as H0.
    by rewrite (round64_zero 0), Hv in H0.
Qed.

Lemma round64_ge_finite q A a :
  0 <= A → A <= q → round64 A = Finite a →
  ∀ v, round64 q = Finite v → a <= v.
Proof.
  intros HA Hq Ha v Hv. pose proof (round64_mono A q HA Hq) as Hm.
  rewrite Ha, Hv in Hm. by apply Qle_bool_iff.
Qed.



Lemma Qred_inject_Z n : Qred (inject_Z n) = inject_Z n.
Proof.
  unfold Qred, inject_Z.
  generalize (Z.ggcd_gcd n 1) (Z.ggcd_correct_divisors n 1).
  destruct (Z.ggcd n 1) as (g & a & b). cbn [fst snd].
  intros Hg [Ha Hb]. rewrite Z.gcd_1_r in Hg. subst g.
  rewrite Z.mul_1_l in Ha, Hb. by subst.
Qed.

(** A whole number below [2^53] is a double. *)
Lemma round64_whole n : (0 <= n < 2 ^ 53)%Z → round64 (inject_Z n) = Finite (inject_Z n).
Proof.
  intros [Hn0 Hn]. destruct (Z.eq_dec n 0%Z) as [->|Hne]; [done|].
  assert (0 < inject_Z n) as Hpos.
  { change 0 with (inject_Z 0). rewrite <- Zlt_Qlt. lia. }
  rewrite round64_pos by done. unfold roundPos.
  assert (nearest (inject_Z n) == inject_Z n) as Hexact.
  { apply (nearest_exact n 0); [lia|done|]. change (2 ^ 0) with 1. ring. }
  assert (inject_Z n < OVERFLOW) as Hlt.
  { apply (Qlt_trans _ (2 ^ 53)).
    - rewrite <- pow2_Z by done. rewrite <- Zlt_Qlt. lia.
    - apply pow2_lt. lia. }
  destruct (Qle_bool OVERFLOW (nearest (inject_Z n))) eqn:Hover.
  - apply Qle_bool_iff in Hover. rewrite Hexact in Hover. lra.
  - f_equal. rewrite (Qred_complete _ _ Hexact). apply Qred_inject_Z.
Qed.

End DoubleFacts.

Section SplitFacts.

Lemma split_nonempty sep s : split sep s ≠ [].
Proof.
  destruct s as [|c s]; simpl; [done|].
  destruct (c =? sep)%N; [done|]. by destruct (split sep s).
Qed.

End SplitFacts.

Section StringFacts.

Lemma startsWith_spec s p : startsWith s p = true ↔ ∃ rest, s = p ++ rest.
Proof.
  revert s. induction p as [|a p IH]; intros s; simpl.
  - split; [eauto|done].
  - destruct s as [|b s].
    + split; [done|]. by intros [rest ?].
    + rewrite andb_true_iff, N.eqb_eq, IH. split.
      * intros [-> [rest ->]]. eauto.
      * intros [rest [= -> ->]]. eauto.
Qed.

Lemma dropWhileStart_replicate p c n s :
  p c = true → dropWhileStart p (replicate n c ++ s) = dropWhileStart p s.
Proof. intros Hc. induction n as [|n IH]; simpl; [done|]. by rewrite Hc. Qed.

Lemma dropWhileStart_head p s :
  (∀ c, head s = Some c → p c = false) → dropWhileStart p s = s.
Proof. destruct s as [|c s]; simpl; [done|]. intros H. by rewrite H. Qed.

Lemma dropWhileStart_decomp c s :
  ∃ n, s = replicate n c ++ dropWhileStart (λ x, x =? c)%N s
       ∧ head (dropWhileStart (λ x, x =? c)%N s) ≠ Some c.
Proof.
  induction s as [|a s (n & IH1 & IH2)]; simpl.
  - by exists 0.
  - destruct (N.eqb_spec a c) as [->|Hne].
    + exists (S n). simpl. split; [by rewrite <- IH1|done].
    + exists 0. split; [done|]. simpl. congruence.
Qed.

End StringFacts.

Module MqttClientProps.
Import MqttClient.

Lemma levelsMatch_spec ps ts i n :
  levelsMatch ps ts i n = true ↔
  ∀ j, i ≤ j < i + n → ps !! j = Some PLUS ∨ ps !! j = ts !! j.
Proof.
  revert i. induction n as [|n IH]; intros i; simpl.
  - split; [intros _ j Hj; lia | done].
  - unfold at_index.
    destruct (decide (ps !! i = Some PLUS)) as [Hp|Hp].
    + rewrite (bool_decide_eq_false_2 (ps !! i ≠ Some PLUS)) by tauto.
      simpl. rewrite IH. split.
      * intros H j Hj. destruct (decide (j = i)) as [->|]; [by left|].
        apply H; lia.
      * intros H j Hj. apply H; lia.
    + rewrite (bool_decide_eq_true_2 (ps !! i ≠ Some PLUS)) by done. simpl.
      destruct (decide (ps !! i = ts !! i)) as [He|He].
      * rewrite bool_decide_eq_false_2 by tauto. rewrite IH. split.
        -- intros H j Hj. destruct (decide (j = i)) as [->|]; [by right|].
           apply H; lia.
        -- intros H j Hj. apply H; lia.
      * rewrite bool_decide_eq_true_2 by done. split; [done|].
        intros H. destruct (H i) as [?|?]; [lia|done|done].
Qed.

Lemma last_at_index (l : list jsstring) : at_index l (length l - 1) = last l.
Proof.
  unfold at_index. destruct l as [|x l] using rev_ind; [done|].
  rewrite last_snoc, length_app. simpl.
  replace (length l + 1 - 1) with (length l) by lia.
  by rewrite lookup_app_r, Nat.sub_diag by lia.
Qed.

(** C5. [matchTopic pattern topic] is true exactly when the strings are
    equal, or the pattern ends in the segment [#] and every earlier
    pattern segment is [+] or the topic's segment at that place, the topic
    having at least that many segments, or the pattern has no trailing
    [#], as many segments as the topic, and every segment is [+] or the
    topic's; with the three examples of the specification. *)
Theorem matchTopic_correct :
  (∀ pattern topic, matchTopic pattern topic = true ↔ matchesBySpec pattern topic)
  ∧ matchTopic (js "devices/+/state") (js "devices/lamp-1/state") = true
  ∧ matchTopic (js "devices/+/state") (js "devices/a/b/state") = false
  ∧ matchTopic (js "zigbee2mqtt/#") (js "zigbee2mqtt/floor1/lamp/state") = true.
Proof.
  split; [|by vm_compute].
  intros pattern topic. unfold matchTopic, matchesBySpec, segments, str_eqb.
  destruct (decide (pattern = topic)) as [Heq|Hne].
  { rewrite bool_decide_eq_true_2 by done. split; [by left|done]. }
  rewrite bool_decide_eq_false_2 by done.
  rewrite last_at_index.
  set (ps := split SLASH pattern). set (ts := split SLASH topic).
  destruct (decide (last ps = Some HASH)) as [Hh|Hh].
  - rewrite bool_decide_eq_true_2 by done.
    destruct (levelsMatch ps ts 0 (length ps - 1)) eqn:Hl.
    + pose proof (proj1 (levelsMatch_spec _ _ _ _) Hl) as Hl'.
      rewrite bool_decide_eq_true. split.
      * intros Hlen. right; left. split; [done|]. split; [|lia].
        intros i Hi. apply Hl'. lia.
      * intros [?|[(_ & _ & ?)|(? & _)]]; [done|lia|done].
    + split; [done|]. intros [?|[(_ & H & _)|(? & _)]]; [done| |done].
      assert (levelsMatch ps ts 0 (length ps - 1) = true) as Ht; [|congruence].
      apply levelsMatch_spec. intros j Hj. apply H. lia.
  - rewrite bool_decide_eq_false_2 by done.
    destruct (decide (length ps = length ts)) as [Hlen|Hlen].
    + rewrite bool_decide_eq_false_2 by tauto. rewrite levelsMatch_spec. split.
      * intros H. right; right. repeat split; [done..|].
        intros i Hi. apply H. lia.
      * intros [?|[(? & _)|(_ & _ & H)]]; [done..|].
        intros j Hj. apply H. lia.
    + rewrite bool_decide_eq_true_2 by done. split; [done|].
      intros [?|[(? & _)|(_ & ? & _)]]; done.
Qed.

End MqttClientProps.

Module MqttAdapterProps.
Import MqttAdapter.

Lemma isBlank_true s : isBlank s = true ↔ trim s = [].
Proof.
  unfold isBlank. rewrite Nat.eqb_eq. by destruct (trim s).
Qed.

Lemma isBlank_false s : isBlank s = false ↔ trim s ≠ [].
Proof.
  rewrite <- isBlank_true. by destruct (isBlank s).
Qed.

Lemma strippedBase_compute base : strippedBase base (dropWhileEnd isSlash base).
Proof.
  unfold strippedBase, dropWhileEnd, isSlash.
  destruct (dropWhileStart_decomp SLASH (reverse base)) as (n & Hd & Hh).
  split.
  - exists n. rewrite <- (reverse_involutive base) at 1.
    rewrite Hd at 1. by rewrite reverse_app, reverse_replicate.
  - by rewrite last_reverse.
Qed.

Lemma strippedBase_unique base b :
  strippedBase base b → dropWhileEnd isSlash base = b.
Proof.
  intros [[n ->] Hl]. unfold dropWhileEnd.
  rewrite reverse_app, reverse_replicate.
  rewrite dropWhileStart_replicate by done.
  rewrite dropWhileStart_head; [apply reverse_involutive|].
  intros c Hc. rewrite head_reverse in Hc. unfold isSlash.
  apply N.eqb_neq. congruence.
Qed.

Lemma two_last_lookup (front : list jsstring) x y :
  let parts := front ++ [x; y] in
  at_index parts (length parts - 1) = Some y
  ∧ at_index parts (length parts - 2) = Some x.
Proof.
  simpl. unfold at_index. rewrite length_app. simpl. split.
  - rewrite lookup_app_r by lia.
    by replace (length front + 2 - 1 - length front) with 1 by lia.
  - rewrite lookup_app_r by lia.
    by replace (length front + 2 - 2 - length front) with 0 by lia.
Qed.

Lemma extractDeviceIdFromTopic_spec remainder :
  ∃ o, extractDeviceIdFromTopic remainder = Ok o
       ∧ ∀ id, o = Some id ↔
               ∃ front, split SLASH remainder = front ++ [id; STATE] ∧ id ≠ [].
Proof.
  unfold extractDeviceIdFromTopic, MIN_TOPIC_PARTS, DEVICE_ID_OFFSET.
  pose proof (split_nonempty SLASH remainder) as Hne.
  destruct (split SLASH remainder) as [|y parts] using rev_ind; [done|].
  clear IHparts Hne.
  destruct parts as [|x front] using rev_ind.
  { exists None. split; [done|]. intros id. split; [done|].
    intros (front & Heq & _). apply (f_equal length) in Heq.
    rewrite !length_app in Heq. simpl in Heq. lia. }
  clear IHfront. rewrite <- (assoc_L (++)). simpl.
  destruct (two_last_lookup front x y) as [Hy Hx]. simpl in Hy, Hx.
  rewrite Hy, Hx.
  replace (length (front ++ [x; y]) <? 2) with false
    by (symmetry; apply Nat.ltb_ge; rewrite length_app; simpl; lia).
  simpl.
  assert (∀ f id, front ++ [x; y] = f ++ [id; STATE] → x = id ∧ y = STATE) as Hinj.
  { intros f id Heq.
    change [x; y] with ([x] ++ [y]) in Heq. change [id; STATE] with ([id] ++ [STATE]) in Heq.
    rewrite !(assoc_L (++)) in Heq.
    apply app_inj_tail in Heq as [Heq ->]. by apply app_inj_tail in Heq as [_ ->]. }
  destruct (decide (y = STATE)) as [->|Hy'].
  - rewrite bool_decide_eq_false_2 by (intros H; by apply H).
    destruct x as [|c x]; simpl.
    + exists None. split; [done|]. intros id. split; [done|].
      intros (f & Heq & Hid). by destruct (Hinj _ _ Heq) as [<- _].
    + exists (Some (c :: x)). split; [done|]. intros id. split.
      * intros [= <-]. by exists front.
      * intros (f & Heq & _). by destruct (Hinj _ _ Heq) as [<- _].
  - rewrite bool_decide_eq_true_2 by congruence.
    exists None. split; [done|]. intros id. split; [done|].
    intros (f & Heq & _). by destruct (Hinj _ _ Heq) as [_ ?].
Qed.

Lemma mapTopicToDeviceId_nonblank base topic :
  isBlank base = false → isBlank topic = false →
  mapsAsSpecified (trim base) (trim topic) (mapTopicToDeviceId base topic).
Proof.
  intros Hb Ht. unfold mapTopicToDeviceId, validateTopicInputs, mapsAsSpecified.
  rewrite Hb, Ht. simpl.
  set (b := dropWhileEnd isSlash (trim base)).
  destruct (startsWith (trim topic) (b ++ [SLASH])) eqn:Hs; simpl.
  - apply startsWith_spec in Hs as [rest Hrest]. unfold slice.
    rewrite Hrest, drop_app_length.
    destruct (extractDeviceIdFromTopic_spec rest) as (o & -> & Ho).
    exists o. split; [done|]. intros id. rewrite Ho. split.
    + intros (front & Hsp & Hid). exists b, rest, front.
      split; [apply strippedBase_compute|]. by rewrite (assoc_L (++)).
    + intros (b' & rest' & front & Hsb & Htop & Hsp & Hid).
      apply strippedBase_unique in Hsb. fold b in Hsb. subst b'.
      rewrite (assoc_L (++)) in Htop. apply app_inv_head in Htop. subst rest'.
      by exists front.
  - exists None. split; [done|]. intros id. split; [done|].
    intros (b' & rest' & front & Hsb & Htop & _).
    apply strippedBase_unique in Hsb. fold b in Hsb. subst b'.
    assert (startsWith (trim topic) (b ++ [SLASH]) = true) as Hs'; [|congruence].
    apply startsWith_spec. exists rest'. by rewrite <- (assoc_L (++)).
Qed.

(** C6, as the code has it. A base or topic that is blank (empty once
    trimmed) raises a TypeError. Otherwise both are trimmed first, the
    trailing slashes of the base are stripped, and the function returns the
    second-to-last segment of the rest of the topic exactly when the topic
    starts with the stripped base and a slash, the rest has at least two
    segments ending in [state], and that segment is not empty; every other
    shape gives [null]. The two examples of the specification hold. *)
Theorem mapTopicToDeviceId_correct :
  (∀ base topic,
     (isBlank base = true ∨ isBlank topic = true →
      ∃ msg, mapTopicToDeviceId base topic = Throw TypeError msg)
     ∧ (isBlank base = false → isBlank topic = false →
        mapsAsSpecified (trim base) (trim topic) (mapTopicToDeviceId base topic)))
  ∧ mapTopicToDeviceId (js "zigbee2mqtt") (js "zigbee2mqtt/lamp/state") = Ok (Some (js "lamp"))
  ∧ mapTopicToDeviceId (js "zigbee2mqtt") (js "zigbee2mqtt/lamp/config") = Ok None.
Proof.
  split; [|by vm_compute].
  intros base topic. split; [|apply mapTopicToDeviceId_nonblank].
  unfold mapTopicToDeviceId, validateTopicInputs.
  destruct (isBlank base); simpl; [eauto|].
  intros [? | ->]; [done|eauto].
Qed.

(** Both branches of the theorem at concrete inputs. *)
Lemma mapTopicToDeviceId_correct_witness :
  (∃ msg, mapTopicToDeviceId (js "  ") (js "zigbee2mqtt/lamp/state") = Throw TypeError msg)
  ∧ mapsAsSpecified (trim (js " zigbee2mqtt// ")) (trim (js " zigbee2mqtt/lamp/state"))
      (mapTopicToDeviceId (js " zigbee2mqtt// ") (js " zigbee2mqtt/lamp/state")).
Proof.
  destruct mapTopicToDeviceId_correct as [H _]. split.
  - apply (H (js "  ") (js "zigbee2mqtt/lamp/state")). left. reflexivity.
  - apply (H (js " zigbee2mqtt// ") (js " zigbee2mqtt/lamp/state")); reflexivity.
Defined.

(** C6 as stated fails: a base of one space is not empty, yet the call
    raises a TypeError instead of returning [null]. *)
Lemma mapTopicClaimAsStated_fails :
  ¬ mapTopicClaimAsStated (js " ") (js "zigbee2mqtt/lamp/state").
Proof.
  unfold mapTopicClaimAsStated. intros H.
  destruct H as (o & Ho & _); [done|done|].
  vm_compute in Ho. discriminate Ho.
Qed.

End MqttAdapterProps.

Module DeviceProps.
Import Utils Device.

(** *** Trimming *)

Lemma dropWhileStart_split p s :
  ∃ w, s = w ++ dropWhileStart p s ∧ Forall (λ c, p c = true) w
       ∧ ∀ c, head (dropWhileStart p s) = Some c → p c = false.
Proof.
  induction s as [|a s (w & IH1 & IH2 & IH3)]; simpl.
  - exists []. by repeat split.
  - destruct (p a) eqn:Ha.
    + exists (a :: w). simpl. split; [by rewrite <- IH1|]. split; [by constructor|done].
    + exists []. repeat split; [done|]. simpl. by intros c [= <-].
Qed.

Lemma dropWhileStart_all p w s :
  Forall (λ c, p c = true) w → dropWhileStart p (w ++ s) = dropWhileStart p s.
Proof. induction 1 as [|c w Hc _ IH]; simpl; [done|]. by rewrite Hc. Qed.

Lemma dropWhileEnd_split p s :
  ∃ w, s = dropWhileEnd p s ++ w ∧ Forall (λ c, p c = true) w
       ∧ ∀ c, last (dropWhileEnd p s) = Some c → p c = false.
Proof.
  unfold dropWhileEnd.
  destruct (dropWhileStart_split p (reverse s)) as (w & H1 & H2 & H3).
  exists (reverse w). split; [|split].
  - rewrite <- reverse_app, <- H1. by rewrite reverse_involutive.
  - by apply Forall_reverse.
  - intros c. rewrite last_reverse. apply H3.
Qed.

Lemma dropWhileEnd_last p s :
  (∀ c, last s = Some c → p c = false) → dropWhileEnd p s = s.
Proof.
  intros H. unfold dropWhileEnd. rewrite dropWhileStart_head.
  - apply reverse_involutive.
  - intros c. rewrite head_reverse. apply H.
Qed.

Lemma trim_idempotent s : trim (trim s) = trim s.
Proof.
  unfold trim.
  set (t := dropWhileStart isWhiteSpace s).
  destruct (dropWhileStart_split isWhiteSpace s) as (_ & _ & _ & Hh). fold t in Hh.
  destruct (dropWhileEnd_split isWhiteSpace t) as (w & Ht & _ & Hl).
  set (r := dropWhileEnd isWhiteSpace t) in *.
  rewrite (dropWhileStart_head _ r); [by apply dropWhileEnd_last|].
  intros c Hc. apply Hh. rewrite Ht. by destruct r.
Qed.

(** *** The two pipelines agree *)

Lemma isKept_not_hyphen c : isKept c = true → isHyphen c = false.
Proof.
  unfold isKept, isHyphen, HYPHEN. intros H. apply N.eqb_neq. intros ->.
  by vm_compute in H.
Qed.

Lemma collapse_replace b u :
  collapseHyphens b (replaceOthers u) = replaceRuns b u.
Proof.
  revert b. induction u as [|c u IH]; intros b; simpl; [done|].
  destruct (isKept c) eqn:Hk.
  - rewrite (isKept_not_hyphen _ Hk). f_equal. apply IH.
  - change (isHyphen HYPHEN) with true. simpl. destruct b; by rewrite IH.
Qed.

Lemma replaceRuns_shape b u :
  noDoubleHyphen (replaceRuns b u)
  ∧ (b = true → head (replaceRuns b u) ≠ Some HYPHEN).
Proof.
  revert b. induction u as [|c u IH]; intros b; simpl.
  - split; [|done]. intros [|? w1] w2; done.
  - destruct (isKept c) eqn:Hk.
    + assert (c ≠ HYPHEN) as Hc.
      { intros ->. by vm_compute in Hk. }
      split; [|simpl; congruence].
      intros [|a w1] w2; simpl; [congruence|].
      intros [= _ H]. by apply (proj1 (IH false) w1 w2).
    + destruct b; [apply IH|]. split; [|done].
      intros [|a w1] w2; simpl.
      * intros [= H]. apply (proj2 (IH true) eq_refl). by rewrite H.
      * intros [= _ H]. by apply (proj1 (IH true) w1 w2).
Qed.

Lemma noDoubleHyphen_tail c v : noDoubleHyphen (c :: v) → noDoubleHyphen v.
Proof. intros H w1 w2 ->. by apply (H (c :: w1) w2). Qed.

Lemma noDoubleHyphen_reverse v : noDoubleHyphen v → noDoubleHyphen (reverse v).
Proof.
  intros H w1 w2 Heq. apply (H (reverse w2) (reverse w1)).
  rewrite <- (reverse_involutive v), Heq.
  by rewrite !reverse_app, <- (assoc_L (++)).
Qed.

Lemma stripOneStart_noDouble v :
  noDoubleHyphen v →
  dropWhileStart isHyphen v = stripOneStart v ∧ noDoubleHyphen (stripOneStart v).
Proof.
  destruct v as [|a v]; simpl; [done|]. intros H.
  destruct (isHyphen a) eqn:Ha; [|done].
  apply N.eqb_eq in Ha as ->.
  split; [|by eapply noDoubleHyphen_tail].
  apply dropWhileStart_head. intros c Hc. apply N.eqb_neq. intros ->.
  destruct v as [|b v]; simplify_eq/=. by apply (H [] v).
Qed.

Lemma stripOneEnd_noDouble v :
  noDoubleHyphen v → dropWhileEnd isHyphen v = stripOneEnd v.
Proof.
  intros H. unfold dropWhileEnd, stripOneEnd. f_equal.
  by apply stripOneStart_noDouble, noDoubleHyphen_reverse.
Qed.

Lemma toKebabCase_slug s : toKebabCase s = slug s.
Proof.
  unfold toKebabCase, slug. rewrite collapse_replace.
  destruct (replaceRuns_shape false (toLowerCase (trim s))) as [Hn _].
  destruct (stripOneStart_noDouble _ Hn) as [-> Hn'].
  symmetry. by apply stripOneEnd_noDouble.
Qed.

Lemma assertNonEmptyString_ok name value maxLen :
  isBlank value = false → length (trim value) ≤ maxLen →
  assertNonEmptyString name value maxLen = Ok (trim value).
Proof.
  unfold isBlank, assertNonEmptyString. intros Hb Hlen. rewrite Hb.
  destruct value as [|c value]; [done|]. simpl.
  by rewrite (proj2 (Nat.ltb_ge _ _) Hlen).
Qed.

Lemma assertNonEmptyString_blank name value maxLen :
  isBlank value = true →
  ∃ msg, assertNonEmptyString name value maxLen = Throw TypeError msg.
Proof.
  unfold isBlank, assertNonEmptyString. intros ->.
  destruct (length value =? 0); eauto.
Qed.

Lemma assertNonEmptyString_long name value maxLen :
  isBlank value = false → maxLen < length (trim value) →
  ∃ msg, assertNonEmptyString name value maxLen = Throw RangeError msg.
Proof.
  unfold isBlank, assertNonEmptyString. intros Hb Hlen. rewrite Hb.
  destruct value as [|c value]; [done|]. cbn [length Nat.eqb].
  rewrite (proj2 (Nat.ltb_lt _ _) Hlen). by eexists.
Qed.

(** C8, as the code has it. For a location and a friendly name that are
    not blank and are at most 256 code units long once trimmed,
    [buildDeviceResourceUri] returns exactly
    [iot://home/<location-slug>/<name-slug>/state], each slug being the
    input trimmed, lower-cased, with every run of units other than a-z,
    0-9 and the ideographs U+4E00..U+9FFF replaced by one hyphen and the
    hyphens at both ends removed. In every other case it throws, the
    location being checked before the friendly name: a TypeError for a
    blank location; a RangeError for a location longer than 256 units
    once trimmed, whatever the friendly name; and, past the checks of the
    location, a TypeError for a blank friendly name and a RangeError for
    one longer than 256 units once trimmed. [Living-Room] with
    [  MAIN  LIGHT ] gives [iot://home/living-room/main-light/state]. *)
Theorem buildDeviceResourceUri_correct :
  (∀ loc name,
     isBlank loc = false → isBlank name = false →
     length (trim loc) ≤ 256 → length (trim name) ≤ 256 →
     buildDeviceResourceUri {| location := loc; friendlyName := name |}
     = Ok (uriOfSlugs (slug loc) (slug name)))
  ∧ (∀ loc name,
       isBlank loc = true →
       ∃ msg, buildDeviceResourceUri {| location := loc; friendlyName := name |}
              = Throw TypeError msg)
  ∧ (∀ loc name,
       isBlank loc = false → 256 < length (trim loc) →
       ∃ msg, buildDeviceResourceUri {| location := loc; friendlyName := name |}
              = Throw RangeError msg)
  ∧ (∀ loc name,
       isBlank loc = false → length (trim loc) ≤ 256 → isBlank name = true →
       ∃ msg, buildDeviceResourceUri {| location := loc; friendlyName := name |}
              = Throw TypeError msg)
  ∧ (∀ loc name,
       isBlank loc = false → length (trim loc) ≤ 256 →
       isBlank name = false → 256 < length (trim name) →
       ∃ msg, buildDeviceResourceUri {| location := loc; friendlyName := name |}
              = Throw RangeError msg)
  ∧ buildDeviceResourceUri
      {| location := js "Living-Room"; friendlyName := js "  MAIN  LIGHT " |}
    = Ok (js "iot://home/living-room/main-light/state").
Proof.
  split; [|split; [|split; [|split; [|split; [|by vm_compute]]]]].
  - intros loc name Hl Hn Hll Hln. unfold buildDeviceResourceUri. simpl.
    rewrite (assertNonEmptyString_ok _ loc) by done. simpl.
    rewrite (assertNonEmptyString_ok _ name) by done. simpl.
    rewrite !toKebabCase_slug. unfold slug, uriOfSlugs.
    by rewrite !trim_idempotent.
  - intros loc name Hl. unfold buildDeviceResourceUri. simpl.
    destruct (assertNonEmptyString_blank "location" loc DEFAULT_MAX_STRING_LENGTH Hl)
      as [msg ->].
    by exists msg.
  - intros loc name Hl Hlen. unfold buildDeviceResourceUri. simpl.
    destruct (assertNonEmptyString_long "location" loc DEFAULT_MAX_STRING_LENGTH Hl Hlen)
      as [msg ->].
    by exists msg.
  - intros loc name Hl Hlen Hn. unfold buildDeviceResourceUri. simpl.
    rewrite (assertNonEmptyString_ok _ loc) by done. simpl.
    destruct (assertNonEmptyString_blank "friendlyName" name DEFAULT_MAX_STRING_LENGTH Hn)
      as [msg ->].
    by exists msg.
  - intros loc name Hl Hlen Hn Hnlen. unfold buildDeviceResourceUri. simpl.
    rewrite (assertNonEmptyString_ok _ loc) by done. simpl.
    destruct (assertNonEmptyString_long "friendlyName" name DEFAULT_MAX_STRING_LENGTH
                Hn Hnlen) as [msg ->].
    by exists msg.
Qed.

(** A location and a name with white space and an ideograph; a blank
    location; a location of 257 units with a blank name, which raises the
    RangeError of the location; a blank name and a name of 257 units after
    a location that passes. *)
Lemma buildDeviceResourceUri_correct_witness :
  buildDeviceResourceUri
    {| location := js " Kitchen_2 "; friendlyName := [23458; 21381; 32%N; 76; 97; 109; 112]%N |}
  = Ok (uriOfSlugs (slug (js " Kitchen_2 ")) (slug [23458; 21381; 32; 76; 97; 109; 112]%N))
  ∧ (∃ msg, buildDeviceResourceUri {| location := js "  "; friendlyName := js "lamp" |}
            = Throw TypeError msg)
  ∧ (∃ msg, buildDeviceResourceUri
              {| location := replicate 257 97%N; friendlyName := js "  " |}
            = Throw RangeError msg)
  ∧ (∃ msg, buildDeviceResourceUri {| location := js "hall"; friendlyName := js "  " |}
            = Throw TypeError msg)
  ∧ (∃ msg, buildDeviceResourceUri
              {| location := js "hall"; friendlyName := replicate 257 97%N |}
            = Throw RangeError msg).
Proof.
  destruct buildDeviceResourceUri_correct as (H1 & H2 & H3 & H4 & H5 & _).
  split; [|split; [|split; [|split]]].
  - apply H1; [reflexivity|reflexivity|vm_compute; lia|vm_compute; lia].
  - apply H2. reflexivity.
  - apply H3; [reflexivity|vm_compute; lia].
  - apply H4; [reflexivity|vm_compute; lia|reflexivity].
  - apply H5; [reflexivity|vm_compute; lia|reflexivity|vm_compute; lia].
Defined.

(** C8 as stated fails: a location of one space is not empty, yet the
    call raises a TypeError instead of returning a URI. *)
Lemma uriClaimAsStated_fails :
  ¬ uriClaimAsStated {| location := js " "; friendlyName := js "lamp" |}.
Proof.
  unfold uriClaimAsStated. simpl. intros H.
  assert (js " " ≠ [] ∧ js "lamp" ≠ []) as [H1 H2] by done.
  specialize (H H1 H2). vm_compute in H. discriminate H.
Qed.

End DeviceProps.

Module CommandQueueProps.
Import CommandQueue.

Section Capacity.
Context {T : Type}.
Implicit Types (q : CommandQueue T) (cmds : list T).

Lemma validCapacity_le m k :
  validCapacity m → num_le m (of_nat k) = true ↔ capacity m ≤ k.
Proof.
  intros [Hi Hp]. destruct m as [x| | |]; try done.
  unfold capacity, of_nat, num_le, isInteger, to_Z in *.
  apply Qeq_bool_eq in Hi.
  assert (¬ (x <= inject_Z (Z.of_nat 0))%Q) as Hpos.
  { intros H. apply Qle_bool_iff in H. congruence. }
  rewrite Qle_bool_iff. remember (Qfloor x) as z eqn:Hz. clear Hz.
  rewrite <- Hi in Hpos |- *.
  rewrite <- Zle_Qle in Hpos |- *. lia.
Qed.

Lemma validCapacity_pos m : validCapacity m → 0 < capacity m.
Proof.
  intros Hv. destruct (decide (capacity m ≤ 0)) as [H|H]; [|lia].
  apply (validCapacity_le m 0 Hv) in H. destruct Hv. congruence.
Qed.

Lemma enqueue_room cmd q :
  validCapacity q.(maxSize) → size q < capacity q.(maxSize) →
  enqueue cmd q
  = (Ok (S (size q)), {| maxSize := q.(maxSize); queue := q.(queue) ++ [cmd] |}).
Proof.
  intros Hv Hlt. unfold enqueue, size in *.
  destruct (num_le _ _) eqn:Hle.
  - apply (validCapacity_le _ _ Hv) in Hle. lia.
  - simpl. by rewrite length_app, Nat.add_1_r.
Qed.

Lemma enqueue_full cmd q :
  validCapacity q.(maxSize) → capacity q.(maxSize) ≤ size q →
  isQueueFull (fst (enqueue cmd q)) ∧ snd (enqueue cmd q) = q.
Proof.
  intros Hv Hle. unfold enqueue, size in *.
  rewrite (proj2 (validCapacity_le _ _ Hv) Hle). simpl.
  split; [by eexists|done].
Qed.

Lemma enqueueAll_room cmds q :
  validCapacity q.(maxSize) → size q + length cmds ≤ capacity q.(maxSize) →
  enqueueAll cmds q
  = (Ok <$> seq (S (size q)) (length cmds),
     {| maxSize := q.(maxSize); queue := q.(queue) ++ cmds |}).
Proof.
  revert q. induction cmds as [|cmd cmds IH]; intros q Hv Hle; simpl.
  - rewrite app_nil_r. by destruct q.
  - simpl in Hle. rewrite enqueue_room by (done || lia).
    rewrite IH by (simpl; unfold size in *; simpl; rewrite ?length_app; simpl; done || lia).
    simpl. unfold size. simpl. rewrite length_app, Nat.add_1_r.
    by rewrite <- (assoc_L (++)).
Qed.

End Capacity.

(** C2. A queue created with a positive integer capacity [n] accepts [n]
    consecutive [enqueue] calls from empty, the k-th returning the length
    [k]; the next [enqueue] throws the queue-full RangeError and leaves the
    queue as it was (nothing is evicted); after one [dequeue], which takes
    the oldest command, one more [enqueue] succeeds and the following one
    throws again. A capacity that is not an integer or not positive makes
    [createCommandQueue] throw a RangeError. *)
Theorem queue_capacity {T : Type} :
  (∀ (m : number) (cmds : list T) (x y z : T),
     validCapacity m → length cmds = capacity m →
     ∃ q0 qn q1 q2 first,
       createCommandQueue (Some m) = Ok q0 ∧ size q0 = 0
       ∧ enqueueAll cmds q0 = (Ok <$> seq 1 (capacity m), qn)
       ∧ qn.(queue) = cmds
       ∧ isQueueFull (fst (enqueue x qn)) ∧ snd (enqueue x qn) = qn
       ∧ dequeue qn = (Some first, q1) ∧ head cmds = Some first
       ∧ enqueue y q1 = (Ok (capacity m), q2)
       ∧ isQueueFull (fst (enqueue z q2)) ∧ snd (enqueue z q2) = q2)
  ∧ (∀ (m : number),
       isInteger m = false ∨ num_le m (of_nat 0) = true →
       ∃ msg, createCommandQueue (T:=T) (Some m) = Throw RangeError msg).
Proof.
  split.
  - intros m cmds x y z Hv Hlen.
    pose proof (validCapacity_pos m Hv) as Hpos.
    set (q0 := {| maxSize := m; queue := @nil T |}).
    destruct cmds as [|first rest]; [simpl in Hlen; lia|].
    set (cmds := first :: rest) in *.
    set (qn := {| maxSize := m; queue := cmds |}).
    set (q1 := {| maxSize := m; queue := rest |}).
    set (q2 := {| maxSize := m; queue := rest ++ [y] |}).
    exists q0, qn, q1, q2, first.
    assert (length rest = capacity m - 1) as Hrest by (simpl in Hlen; lia).
    split; [|split; [done|]].
    { unfold createCommandQueue. simpl. destruct Hv as [-> ->]. done. }
    split; [|split; [done|]].
    { rewrite enqueueAll_room by (simpl; done || lia). by rewrite Hlen. }
    split; [|split]; [apply enqueue_full; simpl; unfold size; simpl; done || lia..|].
    split; [done|]. split; [done|].
    split.
    { rewrite enqueue_room by (simpl; unfold size; simpl; done || lia).
      unfold size. simpl. rewrite Hrest. f_equal. f_equal. lia. }
    split; apply enqueue_full; simpl; unfold size; simpl;
      rewrite ?length_app; simpl; done || lia.
  - intros m Hbad. unfold createCommandQueue. simpl.
    destruct Hbad as [-> | ->]; simpl; [|rewrite orb_true_r]; by eexists.
Qed.

(** Capacity 3 with three commands, then the fourth refused. *)
Lemma queue_capacity_witness :
  ∃ q0 qn q1 q2 first,
    createCommandQueue (Some (of_nat 3)) = Ok q0 ∧ size q0 = 0
    ∧ enqueueAll [10; 20; 30] q0 = (Ok <$> seq 1 (capacity (of_nat 3)), qn)
    ∧ qn.(queue) = [10; 20; 30]
    ∧ isQueueFull (fst (enqueue 40 qn)) ∧ snd (enqueue 40 qn) = qn
    ∧ dequeue qn = (Some first, q1) ∧ head [10; 20; 30] = Some first
    ∧ enqueue 50 q1 = (Ok (capacity (of_nat 3)), q2)
    ∧ isQueueFull (fst (enqueue 60 q2)) ∧ snd (enqueue 60 q2) = q2.
Proof.
  apply (proj1 (queue_capacity (T:=nat)) (of_nat 3) [10; 20; 30] 40 50 60).
  - split; reflexivity.
  - reflexivity.
Defined.

End CommandQueueProps.

Module DeviceStateProps.
Import DeviceState.

























End DeviceStateProps.

Module RetryPolicyProps.
Import RetryPolicy DoubleFacts.

Lemma isInteger_of_nat n : isInteger (of_nat n) = true.
Proof. unfold isInteger, of_nat. rewrite Qfloor_Z. apply Qeq_bool_refl. Qed.

Lemma to_Z_of_nat n : Z.to_nat (to_Z (of_nat n)) = n.
Proof. unfold to_Z, of_nat. rewrite Qfloor_Z. apply Nat2Z.id. Qed.

Lemma num_lt_of_nat_0 n : num_lt (of_nat n) (of_nat 0) = false.
Proof.
  unfold num_lt, of_nat. apply negb_false_iff, Qle_bool_iff.
  rewrite <- Zle_Qle. lia.
Qed.

(** *** The numbers of a delay *)

Section Delays.
Local Open Scope Q_scope.

Lemma round64_isNonNegative q : 0 <= q → isNonNegative (round64 q).
Proof.
  intros Hq. pose proof (round64_mono 0 q (Qle_refl 0) Hq) as Hm.
  rewrite (round64_zero 0) in Hm by done.
  destruct (round64 q) as [v| | |]; try done. by apply Qle_bool_iff in Hm.
Qed.

Lemma num_le_refl_nonneg x : isNonNegative x → num_le x x = true.
Proof. destruct x as [v| | |]; try done. intros _. apply Qle_bool_iff. lra. Qed.

Lemma num_floor_mono x y : num_le x y = true → num_le (num_floor x) (num_floor y) = true.
Proof.
  destruct x as [p| | |], y as [q| | |]; try done. simpl. intros H.
  apply Qle_bool_iff in H. apply Qle_bool_iff. rewrite <- Zle_Qle.
  by apply Qfloor_resp_le.
Qed.

Lemma num_pow_isNonNegative k : isNonNegative (num_pow EXPONENTIAL_BASE k).
Proof.
  apply round64_isNonNegative. apply Qlt_le_weak. apply pow2_pos.
Qed.

Lemma num_pow_mono k1 k2 :
  (k1 <= k2)%Z →
  num_le (num_pow EXPONENTIAL_BASE k1) (num_pow EXPONENTIAL_BASE k2) = true.
Proof.
  intros Hk. apply round64_mono; [apply Qlt_le_weak, pow2_pos|by apply pow2_le].
Qed.

Lemma num_mul_infinity b : 0 < b → num_mul (Finite b) PosInfinity = PosInfinity.
Proof.
  intros Hb. unfold num_mul, signOf. by rewrite (proj1 (Qgt_alt _ _) Hb).
Qed.

Lemma num_mul_isNonNegative b x :
  0 < b → isNonNegative x → isNonNegative (num_mul (Finite b) x).
Proof.
  intros Hb Hx. destruct x as [v| | |]; try done.
  - apply round64_isNonNegative. simpl in Hx. nra.
  - by rewrite num_mul_infinity.
Qed.

Lemma num_mul_mono b x y :
  0 < b → isNonNegative x → num_le x y = true →
  num_le (num_mul (Finite b) x) (num_mul (Finite b) y) = true.
Proof.
  intros Hb Hx Hle. destruct x as [p| | |], y as [q| | |]; try done.
  - simpl in Hx. apply Qle_bool_iff in Hle. apply round64_mono; nra.
  - rewrite num_mul_infinity by done.
    pose proof (num_mul_isNonNegative b (Finite p) Hb Hx) as Hn.
    by destruct (num_mul (Finite b) (Finite p)).
  - by rewrite num_mul_infinity.
Qed.

(** The minimum with a positive cap is a finite number up to the cap. *)
Lemma num_min_cap x m :
  isNonNegative x → 0 < m →
  ∃ d, num_min x (Finite m) = Finite d ∧ 0 <= d ∧ d <= m.
Proof.
  intros Hx Hm. destruct x as [v| | |]; try done.
  - unfold num_min, num_le. simpl in Hx. destruct (Qle_bool v m) eqn:Hle.
    + apply Qle_bool_iff in Hle. by exists v.
    + exists m. split; [done|]. lra.
  - exists m. split; [done|]. lra.
Qed.

Lemma num_min_mono x y m :
  isNonNegative x → num_le x y = true →
  num_le (num_min x (Finite m)) (num_min y (Finite m)) = true.
Proof.
  intros Hx Hle. destruct x as [p| | |], y as [q| | |]; try done.
  - unfold num_min, num_le in *. apply Qle_bool_iff in Hle.
    destruct (Qle_bool p m) eqn:Hp, (Qle_bool q m) eqn:Hq;
      try apply Qle_bool_iff in Hp; try apply Qle_bool_iff in Hq;
      apply Qle_bool_iff; try lra.
    assert (p <= m) as H by lra. apply Qle_bool_iff in H. congruence.
  - unfold num_min, num_le. destruct (Qle_bool p m) eqn:Hp.
    + done.
    + apply Qle_bool_iff. lra.
  - simpl. apply Qle_bool_iff. lra.
Qed.

Lemma cappedDelay_finite b m a :
  0 < b → 0 < m →
  ∃ d, cappedDelay (Finite b) (Finite m) a = Finite d ∧ 0 <= d ∧ d <= m.
Proof.
  intros Hb Hm. unfold cappedDelay. apply num_min_cap; [|done].
  apply num_mul_isNonNegative; [done|]. apply num_pow_isNonNegative.
Qed.

Lemma cappedDelay_mono b m a :
  0 < b →
  num_le (cappedDelay (Finite b) (Finite m) a) (cappedDelay (Finite b) (Finite m) (S a))
  = true.
Proof.
  intros Hb. unfold cappedDelay. apply num_min_mono.
  - apply num_mul_isNonNegative; [done|]. apply num_pow_isNonNegative.
  - apply num_mul_mono; [done|apply num_pow_isNonNegative|].
    apply num_pow_mono. lia.
Qed.




Lemma plainDelay_floor base max a :
  plainDelay base max a = num_floor (cappedDelay base max a).
Proof. done. Qed.

Lemma jitteredDelay_floor base max a u :
  jitteredDelay base max a u
  = num_floor (num_mul (cappedDelay base max a) (jitterFactor u)).
Proof. done. Qed.

(** The two constants of the jitter, as fractions. *)
Lemma JITTER_MIN_FACTOR_value :
  JITTER_MIN_FACTOR = Finite (3602879701896397 # 4503599627370496).
Proof. by vm_compute. Qed.

Lemma JITTER_RANGE_value :
  JITTER_RANGE = Finite (3602879701896397 # 9007199254740992).
Proof. by vm_compute. Qed.

Lemma jitterFactor_unfold u :
  jitterFactor u
  = num_add (Finite (3602879701896397 # 4503599627370496))
      (round64 (u * (3602879701896397 # 9007199254740992))).
Proof. unfold jitterFactor. by rewrite JITTER_MIN_FACTOR_value, JITTER_RANGE_value. Qed.

(** The factor of a draw up to the last double below 1. *)
Lemma jitterFactor_range u :
  0 <= u → u <= 1 - 2 ^ (-53) →
  ∃ f, jitterFactor u = Finite f ∧ 8 # 10 <= f ∧ f <= 12 # 10.
Proof.
  intros H0 H1. rewrite jitterFactor_unfold.
  set (c08 := 3602879701896397 # 4503599627370496).
  set (c04 := 3602879701896397 # 9007199254740992).
  assert (0 < c04) as Hc04 by done.
  destruct (round64_le_finite (u * c04) ((1 - 2 ^ (-53)) * c04)
              (7205759403792793 # 18014398509481984))
    as (v & Hv & Hv0 & Hv1); [nra|nra|by vm_compute|].
  rewrite Hv. unfold num_add.
  destruct (round64_le_finite (c08 + v) (c08 + (7205759403792793 # 18014398509481984))
              (5404319552844595 # 4503599627370496))
    as (f & Hf & Hf0 & Hf1); [unfold c08; lra|lra|by vm_compute|].
  exists f. split; [done|]. split.
  - assert (c08 <= f) as Hlow.
    { apply (round64_ge_finite (c08 + v) c08 c08); [done|lra|by vm_compute|done]. }
    unfold c08 in Hlow. lra.
  - lra.
Qed.



End Delays.

Section Runs.
Context {T E : Type} (op : nat -> settled (T:=T) (E:=E)) (random : nat -> Q).

Lemma calculateDelay_spec a base max jitter w :
  calculateDelay random
    {| d_attempt := a; d_baseMs := base; d_maxMs := max; d_jitter := jitter |} w
  = (delayOf base max jitter a (random w.(randomDraws)),
     if jitter
     then {| opCalls := w.(opCalls); randomDraws := S w.(randomDraws);
             trace := w.(trace) |}
     else w).
Proof. by destruct jitter. Qed.

Lemma callOnRetry_trace (config : AttemptConfig (E:=E)) error delayMs w :
  callOnRetry config error delayMs w
  = {| opCalls := w.(opCalls); randomDraws := w.(randomDraws);
       trace := w.(trace)
                ++ (if hasCallback config then [EvOnRetry config.(attempt) delayMs] else []) |}.
Proof.
  unfold callOnRetry, hasCallback, emit.
  destruct (a_onRetry config) as [cb|].
  - by destruct (cb _ _ _).
  - rewrite app_nil_r. by destruct w.
Qed.

(** One failed attempt that is not the last. *)
Lemma executeSingleAttempt_fails (errs : nat -> E) config a w :
  (∀ i, op i = Rejected (errs i)) →
  a ≠ config.(maxAttempts) →
  let d := delayOf config.(a_baseMs) config.(a_maxMs) config.(a_jitter) a
             (random w.(randomDraws)) in
  executeSingleAttempt op random (withAttempt config a) w
  = (Failure (errs w.(opCalls)),
     {| opCalls := S w.(opCalls);
        randomDraws := if config.(a_jitter) then S w.(randomDraws) else w.(randomDraws);
        trace := w.(trace) ++ failedRound (hasCallback config) (a, d) |}).
Proof.
  intros Hop Hne d. unfold executeSingleAttempt, callOp. rewrite Hop.
  cbn [attempt maxAttempts withAttempt].
  rewrite (proj2 (Nat.eqb_neq _ _) Hne).
  cbn [a_baseMs a_maxMs a_jitter withAttempt].
  rewrite calculateDelay_spec. cbn [randomDraws]. fold d.
  rewrite callOnRetry_trace.
  change (hasCallback (withAttempt config a)) with (hasCallback config).
  unfold sleep, emit, failedRound. cbn [attempt withAttempt fst snd].
  destruct (a_jitter config); cbn [opCalls randomDraws trace];
    by rewrite <- !(assoc_L (++)).
Qed.

(** The last attempt, failed. *)
Lemma executeSingleAttempt_last (errs : nat -> E) config w :
  (∀ i, op i = Rejected (errs i)) →
  executeSingleAttempt op random (withAttempt config config.(maxAttempts)) w
  = (Failure (errs w.(opCalls)),
     {| opCalls := S w.(opCalls); randomDraws := w.(randomDraws);
        trace := w.(trace) ++ [EvAttempt config.(maxAttempts)] |}).
Proof.
  intros Hop. unfold executeSingleAttempt, callOp. rewrite Hop.
  cbn [attempt maxAttempts withAttempt]. by rewrite Nat.eqb_refl.
Qed.

(** The loop over an operation that fails at every call. *)
Lemma retryLoop_always_fails (errs : nat -> E) config n a last w :
  (∀ i, op i = Rejected (errs i)) →
  a + n = S config.(maxAttempts) →
  ∃ w',
    retryLoop op random config n a last w
    = (RejectedLast (match n with
                     | O => last
                     | S k => Some (errs (w.(opCalls) + k))
                     end), w')
    ∧ w'.(opCalls) = w.(opCalls) + n
    ∧ w'.(trace)
      = w.(trace)
        ++ flat_map (failedRound (hasCallback config))
             (zip (seq a (n - 1))
                (expectedDelays random config.(a_baseMs) config.(a_maxMs)
                   config.(a_jitter) a w.(randomDraws) (n - 1)))
        ++ match n with O => [] | S k => [EvAttempt (a + k)] end.
Proof.
  intros Hop. revert a last w. induction n as [|n IH]; intros a last w Ha.
  { exists w. simpl. rewrite app_nil_r. by rewrite Nat.add_0_r. }
  cbn [retryLoop].
  destruct (decide (a = maxAttempts config)) as [->|Hmore].
  - assert (n = 0) as -> by lia.
    rewrite (executeSingleAttempt_last errs) by done.
    eexists. cbn [retryLoop]. split; [by rewrite Nat.add_0_r|].
    cbn [opCalls trace]. split; [lia|]. simpl. by rewrite Nat.add_0_r.
  - destruct n as [|k]; [lia|].
    rewrite (executeSingleAttempt_fails errs) by done.
    match goal with
    | |- context [retryLoop _ _ _ _ _ _ ?w1] =>
        destruct (IH (S a) (Some (errs (opCalls w))) w1) as (w' & Hrun & Hcalls & Htrace);
        [lia|]
    end.
    cbn [opCalls randomDraws trace] in Hrun, Hcalls, Htrace.
    exists w'. rewrite Hrun. split; [|split].
    + do 4 f_equal. lia.
    + lia.
    + rewrite Htrace.
      replace (S (S k) - 1) with (S k) by lia.
      replace (S k - 1) with k by lia.
      cbn [seq expectedDelays zip zip_with flat_map].
      replace (S a + k) with (a + S k) by lia.
      by rewrite <- !(assoc_L (++)).
Qed.

Lemma expectedDelays_length base max jitter a draws count :
  length (expectedDelays random base max jitter a draws count) = count.
Proof.
  revert a draws. induction count as [|c IH]; intros a draws; cbn [expectedDelays length];
    [done|].
  by rewrite IH.
Qed.


Lemma expectedDelays_lookup base max jitter a draws count i :
  i < count →
  expectedDelays random base max jitter a draws count !! i
  = Some (delayOf base max jitter (a + i)
            (random (draws + (if jitter then i else 0)))).
Proof.
  revert a draws i. induction count as [|c IH]; intros a draws i Hi; [lia|].
  cbn [expectedDelays]. destruct i as [|i].
  - rewrite Nat.add_0_r. replace (draws + (if jitter then 0 else 0)) with draws; [done|].
    destruct jitter; lia.
  - change ((?x :: ?l) !! S i) with (l !! i). rewrite IH by lia.
    do 2 f_equal; [lia|]. f_equal. destruct jitter; lia.
Qed.


Lemma attemptsOf_rounds cb (attempts : list nat) (delays : list number) :
  length attempts = length delays →
  attemptsOf (flat_map (failedRound cb) (zip attempts delays)) = attempts.
Proof.
  revert delays. induction attempts as [|a attempts IH]; intros [|d delays] Hlen;
    simplify_eq/=; [done|].
  unfold attemptsOf in *. rewrite omap_app, IH by done. by destruct cb.
Qed.


(** A run of [withRetry] whose options pass the check, over an
    operation that fails at every call. *)
Lemma withRetry_always_fails (errs : nat -> E) (r : nat) (b m : Q) jitter cb w :
  (∀ i, op i = Rejected (errs i)) →
  (0 < b)%Q → (0 < m)%Q →
  ∃ w',
    withRetry op random
      {| retries := Some (of_nat r); baseMs := Some (Finite b);
         maxMs := Some (Finite m); jitter := Some jitter; onRetry := cb |} w
    = (RejectedLast (Some (errs (w.(opCalls) + r))), w')
    ∧ w'.(opCalls) = w.(opCalls) + (r + 1)
    ∧ w'.(trace)
      = w.(trace)
        ++ flat_map (failedRound (match cb with Some _ => true | None => false end))
             (zip (seq 1 r)
                (expectedDelays random (Finite b) (Finite m) jitter 1 w.(randomDraws) r))
        ++ [EvAttempt (r + 1)].
Proof.
  intros Hop Hb Hm. unfold withRetry.
  cbn [default from_option id retries baseMs maxMs RetryPolicy.jitter onRetry].
  unfold validateRetryParams.
  rewrite num_lt_of_nat_0, isInteger_of_nat. cbn [negb orb isFinite].
  assert (∀ q, (0 < q)%Q → num_le (Finite q) (of_nat 0) = false) as Hpos.
  { intros q Hq. unfold num_le, of_nat. destruct (Qle_bool q _) eqn:Hle; [|done].
    apply Qle_bool_iff in Hle. simpl in Hle. by apply Qlt_not_le in Hq. }
  rewrite !Hpos by done. cbn [orb]. rewrite to_Z_of_nat.
  unfold executeWithRetry. cbn [maxAttempts].
  set (config := {| attempt := 0; maxAttempts := r + 1; a_baseMs := Finite b;
                    a_maxMs := Finite m; a_jitter := jitter; a_onRetry := cb |}).
  destruct (retryLoop_always_fails errs config (r + 1) 1 None w Hop)
    as (w' & Hrun & Hcalls & Htrace); [simpl; lia|].
  exists w'. rewrite Hrun. clear Hrun. replace (r + 1) with (S r) in * by lia.
  split; [done|]. split; [done|].
  rewrite Htrace. replace (S r - 1) with r by lia.
  cbn [a_baseMs a_maxMs a_jitter config hasCallback a_onRetry]. by destruct cb.
Qed.

End Runs.

(** C3. For every number [r] of retries and every operation that fails at
    each call, [withRetry(op, {retries: r})] calls the operation [r + 1]
    times, one call after the other, each failed call but the last being
    followed by one sleep before the next call and the last call by
    nothing, and rejects with the error of the last call as it is. With
    [retries: 0] there is one call and no sleep. *)
Theorem withRetry_retry_count {T E : Type} (errs : nat -> E) (random : nat -> Q)
    (r : nat) (w : world) :
  ∃ w' delays,
    withRetry (T:=T) (λ i, Rejected (errs i)) random
      {| retries := Some (of_nat r); baseMs := None; maxMs := None;
         jitter := None; onRetry := None |} w
    = (RejectedLast (Some (errs (w.(opCalls) + r))), w')
    ∧ w'.(opCalls) = w.(opCalls) + (r + 1)
    ∧ length delays = r
    ∧ w'.(trace)
      = w.(trace)
        ++ flat_map (λ ad, [EvAttempt ad.1; EvSleep ad.2]) (zip (seq 1 r) delays)
        ++ [EvAttempt (r + 1)]
    ∧ attemptsOf w'.(trace) = attemptsOf w.(trace) ++ seq 1 (r + 1)
    ∧ (r = 0 → w'.(trace) = w.(trace) ++ [EvAttempt 1]).
Proof.
  destruct (withRetry_always_fails (T:=T) (λ i, Rejected (errs i)) random errs r
              100 5000 true None w) as (w' & Hrun & Hcalls & Htrace); [done..|].
  exists w', (expectedDelays random (Finite 100) (Finite 5000) true 1 w.(randomDraws) r).
  split; [exact Hrun|]. split; [done|].
  split; [apply expectedDelays_length|].
  split; [exact Htrace|]. split.
  - rewrite Htrace. unfold attemptsOf. rewrite !omap_app.
    fold (attemptsOf (flat_map (failedRound false)
            (zip (seq 1 r)
               (expectedDelays random (Finite 100) (Finite 5000) true 1 (randomDraws w) r)))).
    rewrite attemptsOf_rounds by (by rewrite length_seq, expectedDelays_length).
    rewrite seq_app. simpl. by rewrite Nat.add_1_r.
  - intros ->. by rewrite Htrace.
Qed.

(** One attempt for [retries: 0], three for [retries: 2]. *)
Lemma withRetry_retry_count_witness :
  ∃ w' delays,
    withRetry (T:=unit) (λ i, Rejected i) (λ _, 0%Q)
      {| retries := Some (of_nat 0); baseMs := None; maxMs := None;
         jitter := None; onRetry := None |} initialWorld
    = (RejectedLast (Some 0), w')
    ∧ w'.(opCalls) = 0 + (0 + 1)
    ∧ length delays = 0
    ∧ w'.(trace)
      = [] ++ flat_map (λ ad, [EvAttempt ad.1; EvSleep ad.2]) (zip (seq 1 0) delays)
        ++ [EvAttempt (0 + 1)]
    ∧ attemptsOf w'.(trace) = attemptsOf [] ++ seq 1 (0 + 1)
    ∧ (0 = 0 → w'.(trace) = [] ++ [EvAttempt 1]).
Proof.
  apply (withRetry_retry_count (T:=unit) (λ i, i) (λ _, 0%Q) 0 initialWorld).
Defined.




End RetryPolicyProps.

Module JsMapProps.

Section Facts.
Context {V : Type}.
Implicit Types (m : JsMap.t V) (k : jsstring) (v : V).

Lemma get_set_eq k v m : JsMap.get k (JsMap.set k v m) = Some v.
Proof.
  induction m as [|[k' v'] m IH]; simpl.
  - by rewrite decide_True.
  - destruct (decide (k' = k)) as [->|Hne]; simpl.
    + by rewrite decide_True.
    + by rewrite decide_False.
Qed.

Lemma get_set_ne k k' v m : k ≠ k' → JsMap.get k' (JsMap.set k v m) = JsMap.get k' m.
Proof.
  intros Hne. induction m as [|[k0 v0] m IH]; simpl.
  - by rewrite decide_False.
  - destruct (decide (k0 = k)) as [->|Hne0]; simpl.
    + by rewrite !decide_False.
    + by rewrite IH.
Qed.

Lemma keys_set_present k v m :
  JsMap.has k m = true → JsMap.keys (JsMap.set k v m) = JsMap.keys m.
Proof.
  unfold JsMap.has, JsMap.keys. induction m as [|[k' v'] m IH]; simpl; [done|].
  destruct (decide (k' = k)) as [->|Hne]; simpl; [done|].
  intros H. f_equal. by apply IH.
Qed.

Lemma keys_set_absent k v m :
  JsMap.has k m = false → JsMap.keys (JsMap.set k v m) = JsMap.keys m ++ [k].
Proof.
  unfold JsMap.has, JsMap.keys. induction m as [|[k' v'] m IH]; simpl; [done|].
  destruct (decide (k' = k)) as [->|Hne]; simpl; [done|].
  intros H. f_equal. by apply IH.
Qed.

End Facts.

End JsMapProps.

Module AdapterRegistryProps.
Import AdapterInterface JsMapProps.

Lemma register_keeps h name adapter adapters known kept :
  AdapterRegistry.get known adapters = Some kept →
  AdapterRegistry.get known (AdapterRegistry.register h name adapter adapters).2 = Some kept.
Proof.
  unfold AdapterRegistry.register, AdapterRegistry.get. intros Hk.
  destruct (isBlank name); [done|].
  destruct (JsMap.has name adapters) eqn:Hhas; [done|].
  destruct (ensureAdapterImplements h adapter); [|done]. simpl.
  rewrite get_set_ne; [done|]. intros ->.
  unfold JsMap.has in Hhas. by rewrite Hk in Hhas.
Qed.

Lemma registerAll_keeps calls adapters known kept :
  AdapterRegistry.get known adapters = Some kept →
  AdapterRegistry.get known (AdapterRegistry.registerAll calls adapters) = Some kept.
Proof.
  unfold AdapterRegistry.registerAll. revert adapters.
  induction calls as [|[[h name] adapter] calls IH]; intros adapters Hk; simpl; [done|].
  by apply IH, register_keeps.
Qed.

(** C7. Once [register(name, adapter)] has succeeded, a [register] call
    with the same name, made at any later time and with any adapter,
    throws the conflict error and leaves the registry as it was: the
    original adapter is still what [get(name)] returns, and the names and
    their order are those of before the call. *)
Theorem register_same_name_conflict
    (h : heap) (name : jsstring) (adapter : value) (before after : JsMap.t value)
    (calls : list (heap * jsstring * value)%type) (later : JsMap.t value)
    (h' : heap) (adapter' : value) :
  AdapterRegistry.register h name adapter before = (Ok tt, after) →
  later = AdapterRegistry.registerAll calls after →
  AdapterRegistry.register h' name adapter' later
  = (Throw PlainError AdapterRegistry.CONFLICT, later)
  ∧ AdapterRegistry.get name later = Some adapter
  ∧ AdapterRegistry.get name (AdapterRegistry.register h' name adapter' later).2
    = Some adapter
  ∧ AdapterRegistry.list (AdapterRegistry.register h' name adapter' later).2
    = AdapterRegistry.list later.
Proof.
  intros Hreg ->. set (later := AdapterRegistry.registerAll calls after).
  assert (isBlank name = false ∧ AdapterRegistry.get name after = Some adapter)
    as [Hname Hget].
  { unfold AdapterRegistry.register in Hreg.
    destruct (isBlank name); [done|].
    destruct (JsMap.has name before); [done|].
    destruct (ensureAdapterImplements h adapter); [|done].
    injection Hreg as <-. split; [done|]. apply get_set_eq. }
  assert (AdapterRegistry.get name later = Some adapter) as Hlater
    by by apply registerAll_keeps.
  assert (AdapterRegistry.register h' name adapter' later
          = (Throw PlainError AdapterRegistry.CONFLICT, later)) as Hsecond.
  { unfold AdapterRegistry.register. rewrite Hname.
    unfold AdapterRegistry.get in Hlater. unfold JsMap.has. by rewrite Hlater. }
  rewrite Hsecond. done.
Qed.

(** One adapter registered as [mqtt], another name registered after it,
    then [mqtt] again. *)
Lemma register_same_name_conflict_witness :
  AdapterRegistry.register sampleAdapterHeap (js "mqtt") VNull AdapterRegistry.sampleRegistry
  = (Throw PlainError AdapterRegistry.CONFLICT, AdapterRegistry.sampleRegistry)
  ∧ AdapterRegistry.get (js "mqtt") AdapterRegistry.sampleRegistry = Some (VRef 0)
  ∧ AdapterRegistry.get (js "mqtt")
      (AdapterRegistry.register sampleAdapterHeap (js "mqtt") VNull AdapterRegistry.sampleRegistry).2
    = Some (VRef 0)
  ∧ AdapterRegistry.list
      (AdapterRegistry.register sampleAdapterHeap (js "mqtt") VNull AdapterRegistry.sampleRegistry).2
    = AdapterRegistry.list AdapterRegistry.sampleRegistry.
Proof.
  apply (register_same_name_conflict sampleAdapterHeap (js "mqtt") (VRef 0)
           AdapterRegistry.createAdapterRegistry [(js "mqtt", VRef 0)]
           [(sampleAdapterHeap, js "http", VRef 0)] AdapterRegistry.sampleRegistry
           sampleAdapterHeap VNull).
  - vm_compute. reflexivity.
  - vm_compute. reflexivity.
Defined.

End AdapterRegistryProps.

Module DeviceManagerProps.
Import DeviceManager JsMapProps.

Lemma isBlank_empty : isBlank [] = true.
Proof. reflexivity. Qed.

(** C10. [registerDevice] throws a TypeError exactly when the id is
    missing, empty or blank, and then changes nothing. For any other id it
    succeeds whether or not a device with that id is registered already:
    the metadata stored for the id is then the new one, every other device
    is as before, and an id that was present keeps its place while a new
    one is added last. *)
Theorem registerDevice_replaces :
  (∀ (device : DeviceMetadata) (ds : JsMap.t DeviceMetadata) deviceId,
     device.(id) = Some deviceId → isBlank deviceId = false →
     ∃ ds',
       registerDevice device ds = (Ok tt, ds')
       ∧ getDevice deviceId ds' = Some device
       ∧ (∀ other, other ≠ deviceId → getDevice other ds' = getDevice other ds)
       ∧ JsMap.keys ds'
         = if JsMap.has deviceId ds then JsMap.keys ds else JsMap.keys ds ++ [deviceId])
  ∧ (∀ (device : DeviceMetadata) (ds : JsMap.t DeviceMetadata),
       registerDevice device ds = (Throw TypeError BAD_ID, ds)
       ↔ (device.(id) = None ∨ device.(id) = Some []
          ∨ ∃ deviceId, device.(id) = Some deviceId ∧ isBlank deviceId = true))
  ∧ (∀ (device : DeviceMetadata) (ds : JsMap.t DeviceMetadata),
       registerDevice device ds = (Throw TypeError BAD_ID, ds)
       ∨ ∃ ds', registerDevice device ds = (Ok tt, ds')).
Proof.
  split; [|split].
  - intros device ds deviceId Hid Hblank. unfold registerDevice, getDevice.
    rewrite Hid. unfold isBlank in Hblank. rewrite Hblank.
    destruct deviceId as [|c deviceId]; [done|]. simpl.
    eexists. split; [done|]. split; [apply get_set_eq|].
    split; [intros other Hne; by apply get_set_ne|].
    destruct (JsMap.has (c :: deviceId) ds) eqn:Hhas.
    + by apply keys_set_present.
    + by apply keys_set_absent.
  - intros device ds. unfold registerDevice, isBlank.
    destruct (id device) as [deviceId|]; [|naive_solver].
    destruct deviceId as [|c deviceId]; [naive_solver|]. simpl.
    destruct (length (trim (c :: deviceId)) =? 0) eqn:Hb; [naive_solver|].
    split; [done|]. intros [?|[?|(s & [= <-] & Hs)]]; try done.
    by rewrite Hb in Hs.
  - intros device ds. unfold registerDevice.
    destruct (id device) as [deviceId|]; [|by left].
    destruct (_ || _); [by left|right; by eexists].
Qed.

(** The id [lamp-1] registered twice, with two friendly names. *)
Lemma registerDevice_replaces_witness :
  ∃ ds',
    registerDevice (sampleDevice "New") [(js "lamp-1", sampleDevice "Old")] = (Ok tt, ds')
    ∧ getDevice (js "lamp-1") ds' = Some (sampleDevice "New")
    ∧ (∀ other, other ≠ js "lamp-1" →
                getDevice other ds' = getDevice other [(js "lamp-1", sampleDevice "Old")])
    ∧ JsMap.keys ds'
      = if JsMap.has (js "lamp-1") [(js "lamp-1", sampleDevice "Old")]
        then JsMap.keys [(js "lamp-1", sampleDevice "Old")]
        else JsMap.keys [(js "lamp-1", sampleDevice "Old")] ++ [js "lamp-1"].
Proof.
  apply (proj1 registerDevice_replaces (sampleDevice "New")
           [(js "lamp-1", sampleDevice "Old")] (js "lamp-1")); reflexivity.
Defined.

End DeviceManagerProps.

Module MqttRestoreProps.
Import MqttClient.

Lemma logCall_listen c st : allListen (logCall c st) ↔ allListen st.
Proof. done. Qed.

Lemma restoreSubscriptions_listen c st :
  allListen st → allListen (restoreSubscriptions c st).
Proof. unfold restoreSubscriptions. by destruct (0 <? _). Qed.

Lemma updateNative_listen c f st :
  (∀ n, onReconnect (f n) = onReconnect n) →
  allListen st → allListen (updateNative c f st).
Proof.
  intros Hf Hst. unfold allListen, updateNative. simpl.
  apply Forall_alter; [done|]. intros n _ Hn. by rewrite Hf.
Qed.

Lemma dispatch_natives topic st : natives (dispatch topic st) = natives st.
Proof.
  unfold dispatch. generalize (subscriptions st) as subs. intros subs.
  revert st. induction subs as [|[pattern handler] subs IH]; intros st; simpl; [done|].
  rewrite IH. by destruct (matchTopic pattern topic).
Qed.

Lemma step_listen st a : allListen st → allListen (step st a).
Proof.
  intros Hst. destruct a as [throws|topic handler|topic handler err|topic| |err|c ev]; simpl.
  - unfold connect. destruct (isConnected st); [done|]. destruct throws; [done|].
    unfold allListen. simpl. apply Forall_app. split; [done|]. by constructor.
  - unfold subscribe. destruct (current st); [|done].
    destruct (negb _); [done|]. by destruct (isBlank topic).
  - unfold subscribeCallback. by destruct err.
  - unfold publish. destruct (current st); [|done].
    destruct (negb _); [done|]. by destruct (isBlank topic).
  - unfold disconnect. by destruct (current st).
  - unfold endCallback. by destruct err.
  - unfold emitEvent. destruct (natives st !! c) as [n|]; [|done].
    destruct ev as [| | |topic|].
    + destruct (onceConnect n).
      * apply logCall_listen, restoreSubscriptions_listen. by apply updateNative_listen.
      * by apply updateNative_listen.
    + destruct (onReconnect n); [|done]. by apply restoreSubscriptions_listen.
    + destruct (onceError n); [|done].
      apply logCall_listen. by apply updateNative_listen.
    + destruct (onMessage n); [|done]. unfold allListen. by rewrite dispatch_natives.
    + by apply updateNative_listen.
Qed.

Lemma run_listen actions st : allListen st → allListen (run actions st).
Proof.
  unfold run. revert st. induction actions as [|a actions IH]; intros st Hst; simpl; [done|].
  by apply IH, step_listen.
Qed.

Lemma restoreSubscriptions_calls c st :
  restoreSubscriptions c st
  = {| subscriptions := st.(subscriptions); current := st.(current);
       natives := st.(natives); calls := st.(calls) ++ restoreBatch c st |}.
Proof.
  unfold restoreSubscriptions, restoreBatch, JsMap.size, JsMap.keys, logCall.
  destruct (subscriptions st) as [|[topic handler] subs] eqn:Hs; simpl.
  - rewrite app_nil_r. destruct st; simpl in *. by subst.
  - done.
Qed.

Lemma reconnect_restores c st :
  created c st → allListen st →
  emitEvent c TReconnect st = restoreSubscriptions c st.
Proof.
  unfold created, allListen, emitEvent. intros Hc Hst.
  destruct (lookup_lt_is_Some_2 _ _ Hc) as [n Hn]. rewrite Hn.
  by rewrite (Forall_lookup_1 _ _ _ _ Hst Hn).
Qed.

Lemma reconnects_restore c st k :
  created c st → allListen st →
  run (replicate k (Emit c TReconnect)) st
  = {| subscriptions := st.(subscriptions); current := st.(current);
       natives := st.(natives);
       calls := st.(calls) ++ concat (replicate k (restoreBatch c st)) |}.
Proof.
  intros Hc Hst. revert st Hc Hst. induction k as [|k IH]; intros st Hc Hst.
  - unfold run. simpl. rewrite app_nil_r. by destruct st.
  - unfold run in *. cbn [replicate foldl step].
    rewrite reconnect_restores, restoreSubscriptions_calls by done.
    rewrite IH; [|done..]. simpl. by rewrite <- (assoc_L (++)).
Qed.

Lemma has_key_listed {V : Type} (k : jsstring) (m : JsMap.t V) :
  JsMap.has k m = bool_decide (k ∈ JsMap.keys m).
Proof.
  unfold JsMap.has, JsMap.keys. induction m as [|[k' v'] m IH]; simpl; [done|].
  destruct (decide (k' = k)) as [->|Hne].
  - symmetry. apply bool_decide_eq_true_2. by left.
  - rewrite IH. apply bool_decide_ext. split; [by right|].
    intros [?|?]%elem_of_cons; [congruence|done].
Qed.

Lemma dispatch_subscriptions topic st :
  subscriptions (dispatch topic st) = subscriptions st.
Proof.
  unfold dispatch. generalize (subscriptions st) at 1 as subs. intros subs.
  revert st. induction subs as [|[pattern handler] subs IH]; intros st; simpl; [done|].
  rewrite IH. by destruct (matchTopic pattern topic).
Qed.

(** The keys of the table follow the acknowledgements. *)
Lemma step_keys st a :
  JsMap.keys (subscriptions (step st a))
  = acknowledge (JsMap.keys (subscriptions st)) a.
Proof.
  destruct a as [throws|topic handler|topic handler err|topic| |err|c ev]; simpl.
  - unfold connect. destruct (isConnected st); [done|]. by destruct throws.
  - unfold subscribe. destruct (current st); [|done].
    destruct (negb _); [done|]. by destruct (isBlank topic).
  - unfold subscribeCallback. destruct err; [done|]. cbn [subscriptions].
    rewrite <- has_key_listed. destruct (JsMap.has topic (subscriptions st)) eqn:Hhas.
    + by apply JsMapProps.keys_set_present.
    + by apply JsMapProps.keys_set_absent.
  - unfold publish. destruct (current st); [|done].
    destruct (negb _); [done|]. by destruct (isBlank topic).
  - unfold disconnect. by destruct (current st).
  - unfold endCallback. by destruct err.
  - unfold emitEvent. destruct (natives st !! c) as [n|]; [|done].
    destruct ev as [| | |topic|].
    + destruct (onceConnect n); [|done]. cbn [logCall subscriptions].
      unfold restoreSubscriptions. by destruct (0 <? _).
    + destruct (onReconnect n); [|done].
      unfold restoreSubscriptions. by destruct (0 <? _).
    + by destruct (onceError n).
    + destruct (onMessage n); [|done]. by rewrite dispatch_subscriptions.
    + done.
Qed.

Lemma run_keys actions st :
  JsMap.keys (subscriptions (run actions st))
  = foldl acknowledge (JsMap.keys (subscriptions st)) actions.
Proof.
  unfold run. revert st. induction actions as [|a actions IH]; intros st; simpl; [done|].
  by rewrite IH, step_keys.
Qed.

(** A topic acknowledged stays among the topics until a [disconnect]
    goes through. *)
Lemma acknowledge_keeps topic topics actions :
  topic ∈ topics → EndCallback false ∉ actions →
  topic ∈ foldl acknowledge topics actions.
Proof.
  revert topics. induction actions as [|a actions IH]; intros topics Hin Hno; simpl;
    [done|].
  apply not_elem_of_cons in Hno as [Hne Hno]. apply IH; [|done].
  destruct a as [| |t h err| | |err|]; try done.
  - destruct err; [done|]. simpl. case_bool_decide; [done|].
    apply elem_of_app. by left.
  - by destruct err.
Qed.

Lemma acknowledged_after before topic handler after :
  EndCallback false ∉ after →
  topic ∈ acknowledged (before ++ SubscribeCallback topic handler false :: after).
Proof.
  intros Hno. unfold acknowledged. rewrite foldl_app. cbn [foldl].
  apply acknowledge_keeps; [|done]. simpl. case_bool_decide; [done|].
  apply elem_of_app. right. by left.
Qed.

(** C9. In any state the client can reach from its creation, whatever
    calls, callbacks and transport events came before, each [reconnect]
    event of a native client that [connect] has created makes the wrapper
    send, by itself, one [subscribe] call whose topics are all the keys of
    the subscription table of that moment, in their order (and no call for
    an empty table), and changes nothing else; [k] events in a row send [k]
    such calls. The keys of the table are the topics whose subscription
    has been acknowledged since the last [disconnect] that went through:
    a topic subscribed to, with no such [disconnect] since, is among the
    topics of the call a [reconnect] event sends. *)
Theorem reconnect_restores_subscriptions (actions : list action) (c k : nat)
    (st : client) :
  st = reached actions →
  created c st →
  (afterReconnects c k st).(subscriptions) = st.(subscriptions)
  ∧ (afterReconnects c k st).(calls)
    = st.(calls) ++ concat (replicate k (restoreBatch c st))
  ∧ emitEvent c TReconnect st
    = {| subscriptions := st.(subscriptions); current := st.(current);
         natives := st.(natives); calls := st.(calls) ++ restoreBatch c st |}
  ∧ (∀ topic, topic ∈ JsMap.keys st.(subscriptions) →
              restoreBatch c st = [NSubscribeMany c (JsMap.keys st.(subscriptions))])
  ∧ JsMap.keys st.(subscriptions) = acknowledged actions
  ∧ (∀ before topic handler after,
       actions = before ++ SubscribeCallback topic handler false :: after →
       EndCallback false ∉ after →
       ∃ topics,
         topic ∈ topics
         ∧ (emitEvent c TReconnect st).(calls) = st.(calls) ++ [NSubscribeMany c topics]
         ∧ (afterReconnects c k st).(calls)
           = st.(calls) ++ replicate k (NSubscribeMany c topics)).
Proof.
  intros -> Hc. set (st := reached actions) in *.
  assert (allListen st) as Hst by (apply run_listen; constructor).
  assert (JsMap.keys st.(subscriptions) = acknowledged actions) as Hkeys.
  { unfold st, reached. by rewrite run_keys. }
  assert (∀ topic, topic ∈ JsMap.keys st.(subscriptions) →
            restoreBatch c st = [NSubscribeMany c (JsMap.keys st.(subscriptions))])
    as Hbatch.
  { intros topic Hin. unfold restoreBatch.
    destruct (JsMap.keys (subscriptions st)); [|done]. by apply elem_of_nil in Hin. }
  unfold afterReconnects. rewrite reconnects_restore by done. simpl.
  split; [done|]. split; [done|]. split.
  { by rewrite reconnect_restores, restoreSubscriptions_calls. }
  split; [exact Hbatch|]. split; [exact Hkeys|].
  intros before topic handler after Hactions Hno.
  assert (topic ∈ JsMap.keys st.(subscriptions)) as Hin.
  { rewrite Hkeys, Hactions. by apply acknowledged_after. }
  exists (JsMap.keys st.(subscriptions)). split; [done|].
  rewrite reconnect_restores, restoreSubscriptions_calls by done. cbn [calls].
  rewrite (Hbatch topic Hin). split; [done|]. f_equal.
  clear. induction k as [|k IH]; [done|]. cbn [replicate concat]. by rewrite IH.
Qed.

(** Connected, two topics subscribed, then two [reconnect] events. *)
Lemma reconnect_restores_subscriptions_witness :
  (afterReconnects 0 2 (reached sampleSession)).(subscriptions)
  = (reached sampleSession).(subscriptions)
  ∧ (afterReconnects 0 2 (reached sampleSession)).(calls)
    = (reached sampleSession).(calls)
      ++ concat (replicate 2 (restoreBatch 0 (reached sampleSession)))
  ∧ emitEvent 0 TReconnect (reached sampleSession)
    = {| subscriptions := (reached sampleSession).(subscriptions);
         current := (reached sampleSession).(current);
         natives := (reached sampleSession).(natives);
         calls := (reached sampleSession).(calls)
                  ++ restoreBatch 0 (reached sampleSession) |}
  ∧ (∀ topic, topic ∈ JsMap.keys (reached sampleSession).(subscriptions) →
              restoreBatch 0 (reached sampleSession)
              = [NSubscribeMany 0 (JsMap.keys (reached sampleSession).(subscriptions))])
  ∧ JsMap.keys (reached sampleSession).(subscriptions) = acknowledged sampleSession
  ∧ (∀ before topic handler after,
       sampleSession = before ++ SubscribeCallback topic handler false :: after →
       EndCallback false ∉ after →
       ∃ topics,
         topic ∈ topics
         ∧ (emitEvent 0 TReconnect (reached sampleSession)).(calls)
           = (reached sampleSession).(calls) ++ [NSubscribeMany 0 topics]
         ∧ (afterReconnects 0 2 (reached sampleSession)).(calls)
           = (reached sampleSession).(calls) ++ replicate 2 (NSubscribeMany 0 topics)).
Proof.
  apply (reconnect_restores_subscriptions sampleSession 0 2 (reached sampleSession)).
  - reflexivity.
  - unfold created. vm_compute. lia.
Defined.

(** The session of the test, evaluated: after the two subscriptions have
    been acknowledged and the transport has dropped, each of two
    [reconnect] events sends one call with both topics. *)
Lemma reconnect_sends_both_topics :
  acknowledged sampleSession = [js "devices/+/state"; js "zigbee2mqtt/#"]
  ∧ (afterReconnects 0 2 (reached sampleSession)).(calls)
    = (reached sampleSession).(calls)
      ++ [NSubscribeMany 0 [js "devices/+/state"; js "zigbee2mqtt/#"];
          NSubscribeMany 0 [js "devices/+/state"; js "zigbee2mqtt/#"]].
Proof. split; by vm_compute. Qed.

End MqttRestoreProps.

(** * The cases of the repository's unit tests, evaluated on the embedding *)

Module UnitTestCases.
Import Utils Device MqttAdapter MqttClient DeviceState.

Example toKebabCase_spaces : toKebabCase (js "  Main   Light  ") = js "main-light".
Proof. reflexivity. Qed.

Example toKebabCase_separators :
  toKebabCase (js "Living_Room-Main.Light") = js "living-room-main-light".
Proof. reflexivity. Qed.

Example toKebabCase_ends : toKebabCase (js "___hello___") = js "hello".
Proof. reflexivity. Qed.

Example toKebabCase_blank : toKebabCase (js "   ") = js "".
Proof. reflexivity. Qed.

(** The three ideographs U+5BA2 U+5385 U+706F are kept as they are. *)
Example toKebabCase_ideographs :
  toKebabCase [23458; 21381; 28783]%N = [23458; 21381; 28783]%N.
Proof. reflexivity. Qed.

Example assertNonEmptyString_trims :
  assertNonEmptyString "device_id" (js "  abc  ") 256 = Ok (js "abc").
Proof. reflexivity. Qed.

Example assertNonEmptyString_blank_throws :
  assertNonEmptyString "field" (js "   ") 256 = Throw TypeError "field must be non-empty".
Proof. reflexivity. Qed.

Example assertNonEmptyString_long_throws :
  assertNonEmptyString "field" (replicate 300 120%N) 256
  = Throw RangeError "field exceeds maximum length".
Proof. reflexivity. Qed.

Example buildDeviceResourceUri_long_location :
  buildDeviceResourceUri {| location := replicate 257 120%N; friendlyName := js "lamp" |}
  = Throw RangeError "location exceeds maximum length".
Proof. reflexivity. Qed.

Example mapTopic_trailing_slashes :
  mapTopicToDeviceId (js "zigbee2mqtt///") (js "zigbee2mqtt/lamp/state")
  = Ok (Some (js "lamp")).
Proof. reflexivity. Qed.

Example mapTopic_surrounding_blanks :
  mapTopicToDeviceId (js "  zigbee2mqtt  ") (js "  zigbee2mqtt/lamp/state  ")
  = Ok (Some (js "lamp")).
Proof. reflexivity. Qed.

Example mapTopic_blank_base :
  mapTopicToDeviceId (js "   ") (js "zigbee2mqtt/lamp/state")
  = Throw TypeError "base must be a non-empty string".
Proof. reflexivity. Qed.

Example mapTopic_empty_id :
  mapTopicToDeviceId (js "zigbee2mqtt") (js "zigbee2mqtt//state") = Ok None.
Proof. reflexivity. Qed.

Example mapTopic_nested :
  mapTopicToDeviceId (js "zigbee2mqtt") (js "zigbee2mqtt/floor1/room2/lamp/state")
  = Ok (Some (js "lamp")).
Proof. reflexivity. Qed.

Example mapTopic_other_base :
  mapTopicToDeviceId (js "zigbee2mqtt") (js "zigbee/lamp/state") = Ok None.
Proof. reflexivity. Qed.

Example matchTopic_hash_alone : matchTopic (js "zigbee2mqtt/#") (js "zigbee2mqtt") = true.
Proof. reflexivity. Qed.

(** [{a: 1, b: 2}] merged with [{b: undefined, c: 3}] is [{a: 1, b: 2, c: 3}],
    in a new object at address 2. *)
Example mergeDeviceState_undefined_ignored :
  (mergeDeviceState (VRef 0) (PatchObject 1) sampleHeap).1 = Ok (VRef 2)
  ∧ getProp (mergeDeviceState (VRef 0) (PatchObject 1) sampleHeap).2 2 (js "a")
    = VNum (of_nat 1)
  ∧ getProp (mergeDeviceState (VRef 0) (PatchObject 1) sampleHeap).2 2 (js "b")
    = VNum (of_nat 2)
  ∧ getProp (mergeDeviceState (VRef 0) (PatchObject 1) sampleHeap).2 2 (js "c")
    = VNum (of_nat 3).
Proof. by vm_compute. Qed.

Example mergeDeviceState_null_patch :
  (mergeDeviceState (VRef 0) PatchNull sampleHeap).1
  = Throw TypeError "patch cannot be null or undefined".
Proof. reflexivity. Qed.

Example mergeDeviceState_null_prev :
  (mergeDeviceState VNull (PatchObject 1) sampleHeap).1
  = Throw TypeError "prev must be a plain object".
Proof. reflexivity. Qed.

End UnitTestCases.

(** * Further properties of the code *)

Module CommandQueueRunsProps.
Import CommandQueue CommandQueueRuns CommandQueueProps.

Lemma dequeueN_drains {T : Type} (m : number) (cmds : list T) (k : nat) :
  dequeueN (length cmds + k) {| maxSize := m; queue := cmds |}
  = ((Some <$> cmds) ++ replicate k None, {| maxSize := m; queue := [] |}).
Proof.
  induction cmds as [|cmd cmds IH]; simpl.
  - induction k as [|k IHk]; simpl; [done|]. by rewrite IHk.
  - by rewrite IH.
Qed.

(** X1. The queue is first in, first out: the commands enqueued into a new
    queue, within its capacity, come out of consecutive [dequeue] calls in
    the order they went in; every [dequeue] after that returns [undefined]
    and leaves the queue empty. *)
Theorem queue_fifo {T : Type} (m : number) (cmds : list T) (k : nat) :
  validCapacity m → length cmds ≤ capacity m →
  ∃ q0 qn,
    createCommandQueue (Some m) = Ok q0
    ∧ (enqueueAll cmds q0).2 = qn
    ∧ size qn = length cmds
    ∧ dequeueN (length cmds + k) qn = ((Some <$> cmds) ++ replicate k None, q0)
    ∧ dequeue q0 = (None, q0).
Proof.
  intros Hv Hlen.
  exists {| maxSize := m; queue := [] |}, {| maxSize := m; queue := cmds |}.
  split; [|split; [|split; [done|split; [apply dequeueN_drains|done]]]].
  - unfold createCommandQueue. simpl. by destruct Hv as [-> ->].
  - by rewrite enqueueAll_room by (simpl; done || lia).
Qed.

Lemma queue_fifo_witness :
  ∃ q0 qn,
    createCommandQueue (Some (of_nat 3)) = Ok q0
    ∧ (enqueueAll [7; 8] q0).2 = qn
    ∧ size qn = length [7; 8]
    ∧ dequeueN (length [7; 8] + 1) qn = ((Some <$> [7; 8]) ++ replicate 1 None, q0)
    ∧ dequeue q0 = (None, q0).
Proof.
  apply (queue_fifo (of_nat 3) [7; 8] 1).
  - split; reflexivity.
  - vm_compute. lia.
Defined.

Lemma afterCall_bounded {T : Type} (q : CommandQueue T) (c : queueCall) :
  validCapacity q.(maxSize) → size q ≤ capacity q.(maxSize) →
  (afterCall q c).(maxSize) = q.(maxSize)
  ∧ size (afterCall q c) ≤ capacity q.(maxSize).
Proof.
  intros Hv Hle. destruct c as [cmd|]; simpl.
  - unfold enqueue. destruct (num_le _ _) eqn:Hfull; simpl; [done|].
    split; [done|]. unfold size in *. simpl. rewrite length_app. simpl.
    destruct (decide (capacity (maxSize q) ≤ length (queue q))) as [Hc|Hc]; [|lia].
    apply (validCapacity_le _ _ Hv) in Hc. congruence.
  - unfold dequeue, size in *. destruct (queue q) as [|cmd rest] eqn:Hq; simpl in *.
    + rewrite Hq. simpl. split; [done|lia].
    + split; [done|lia].
Qed.

(** X2. Whatever [enqueue] and [dequeue] calls are made on a queue, in any
    order and whether they succeed or throw, its length never exceeds the
    capacity it was created with. *)
Theorem queue_never_exceeds_capacity {T : Type} (m : number) (q0 : CommandQueue T)
    (cs : list queueCall) :
  createCommandQueue (Some m) = Ok q0 →
  validCapacity m ∧ size (afterCalls cs q0) ≤ capacity m.
Proof.
  intros Hc.
  assert (validCapacity m ∧ q0 = {| maxSize := m; queue := [] |}) as [Hv ->].
  { unfold createCommandQueue in Hc. simpl in Hc. unfold validCapacity.
    destruct (isInteger m); simpl in Hc; [|done].
    destruct (num_le m (of_nat 0)); simpl in Hc; [done|]. by injection Hc as <-. }
  split; [done|].
  assert (∀ q : CommandQueue T, q.(maxSize) = m → size q ≤ capacity m →
            size (afterCalls cs q) ≤ capacity m) as Hall.
  { unfold afterCalls. induction cs as [|c cs IH]; intros q Hm Hq; simpl; [done|].
    destruct (afterCall_bounded q c) as [Hm' Hq']; [by rewrite Hm..|].
    apply IH; [by rewrite Hm'|by rewrite <- Hm]. }
  apply Hall; [done|]. unfold size. simpl. lia.
Qed.

Lemma queue_never_exceeds_capacity_witness :
  validCapacity (of_nat 2)
  ∧ size (afterCalls [CallEnqueue 1; CallEnqueue 2; CallEnqueue 3; CallDequeue; CallEnqueue 4]
            {| maxSize := of_nat 2; queue := [] |})
    ≤ capacity (of_nat 2).
Proof.
  apply (queue_never_exceeds_capacity (of_nat 2) {| maxSize := of_nat 2; queue := [] |}).
  reflexivity.
Defined.

End CommandQueueRunsProps.

Module RetryChecksProps.
Import RetryPolicy RetryChecks RetryPolicyProps.

Lemma num_le_pos q : num_le (Finite q) (of_nat 0) = false ↔ (0 < q)%Q.
Proof.
  unfold num_le, of_nat. change (inject_Z (Z.of_nat 0)) with 0%Q. split.
  - intros H. apply Qnot_le_lt. intros Hle. apply Qle_bool_iff in Hle.
    rewrite Hle in H. done.
  - intros H. destruct (Qle_bool q 0) eqn:Hle; [|done].
    apply Qle_bool_iff in Hle. by apply Qlt_not_le in H.
Qed.

Lemma check_positive_finite (x : number) :
  num_le x (of_nat 0) || negb (isFinite x) = false ↔ isPositiveFinite x.
Proof.
  unfold isPositiveFinite. destruct x as [q| | |]; simpl.
  - rewrite orb_false_r. change (Qle_bool q (inject_Z (Z.of_nat 0)))
      with (num_le (Finite q) (of_nat 0)). rewrite num_le_pos. split.
    + intros H. by exists q.
    + by intros (q' & [= <-] & H).
  - split; [done|]. by intros (q' & ? & _).
  - split; [done|]. by intros (q' & ? & _).
  - split; [done|]. by intros (q' & ? & _).
Qed.

Lemma check_retries (x : number) :
  num_lt x (of_nat 0) || negb (isInteger x) = false ↔ isNonNegativeInteger x.
Proof.
  unfold isNonNegativeInteger. destruct x as [q| | |]; simpl;
    [|split; [done|by intros (? & ? & ? & _)]..].
  rewrite orb_false_iff, !negb_false_iff. split.
  - intros [Hlt Hint]. apply Qle_bool_iff in Hlt. apply Qeq_bool_eq in Hint.
    exists (Z.to_nat (Qfloor q)), q. split; [done|].
    rewrite <- Hint in Hlt. rewrite <- Zle_Qle in Hlt.
    rewrite Z2Nat.id by (simpl in Hlt; lia). by symmetry.
  - intros (n & q' & [= <-] & Hq). split.
    + apply Qle_bool_iff. rewrite Hq. rewrite <- Zle_Qle. lia.
    + apply Qeq_bool_iff. rewrite Hq at 2. by rewrite Hq, Qfloor_Z.
Qed.

Lemma validateRetryParams_ok (r b m : number) :
  validateRetryParams r b m = Ok tt
  ↔ isNonNegativeInteger r ∧ isPositiveFinite b ∧ isPositiveFinite m.
Proof.
  unfold validateRetryParams.
  rewrite <- check_retries, <- !check_positive_finite.
  destruct (num_lt r (of_nat 0) || negb (isInteger r)); [intuition discriminate|].
  destruct (num_le b (of_nat 0) || negb (isFinite b)); [intuition discriminate|].
  destruct (num_le m (of_nat 0) || negb (isFinite m)); intuition discriminate.
Qed.

Lemma validateRetryParams_throws (r b m : number) :
  validateRetryParams r b m = Ok tt ∨ ∃ msg, validateRetryParams r b m = Throw RangeError msg.
Proof.
  unfold validateRetryParams.
  repeat (destruct (_ || _); [right; by eexists|]). by left.
Qed.

Section Attempts.
Context {T E : Type} (op : nat -> settled (T:=T) (E:=E)) (random : nat -> Q).

Lemma calculateDelay_calls config w :
  (calculateDelay random config w).2.(opCalls) = w.(opCalls)
  ∧ (calculateDelay random config w).2.(trace) = w.(trace).
Proof. unfold calculateDelay. by destruct (d_jitter config). Qed.

Lemma executeSingleAttempt_calls (config : AttemptConfig (E:=E)) w :
  (executeSingleAttempt op random config w).2.(opCalls) = S w.(opCalls).
Proof.
  unfold executeSingleAttempt, callOp.
  destruct (op (opCalls w)) as [v|e]; [done|].
  destruct (attempt config =? maxAttempts config); [done|].
  match goal with |- context [calculateDelay random ?c ?w1] =>
    pose proof (calculateDelay_calls c w1) as [Hc _];
    destruct (calculateDelay random c w1) as [d w2] end.
  simpl in *. rewrite callOnRetry_trace. simpl. done.
Qed.

Lemma retryLoop_calls (config : AttemptConfig (E:=E)) n a last w :
  let w' := (retryLoop op random config n a last w).2 in
  w.(opCalls) + (if n is O then 0 else 1) ≤ w'.(opCalls) ≤ w.(opCalls) + n.
Proof.
  revert a last w. induction n as [|n IH]; intros a last w; simpl; [lia|].
  pose proof (executeSingleAttempt_calls (withAttempt config a) w) as Hc.
  destruct (executeSingleAttempt op random (withAttempt config a) w) as [[v|e] w1];
    simpl in *; [lia|].
  specialize (IH (S a) (Some e) w1). simpl in IH. destruct n; lia.
Qed.

(** X3. Options that fail the check make [withRetry] reject with a
    RangeError before the operation is called once; the check passes
    exactly when [retries] is a non-negative integer and [baseMs] and
    [maxMs] are positive finite numbers (defaults 3, 100 and 5000). With
    options that pass, the operation is called at least once and at most
    [retries + 1] times, whatever it does. *)
Theorem withRetry_checks_then_bounds (opts : RetryOptions (E:=E)) (w : world) :
  let r := default DEFAULT_RETRIES opts.(retries) in
  let b := default DEFAULT_BASE_MS opts.(baseMs) in
  let m := default DEFAULT_MAX_MS opts.(maxMs) in
  (¬ (isNonNegativeInteger r ∧ isPositiveFinite b ∧ isPositiveFinite m) →
   isCheckError (withRetry op random opts w).1
   ∧ (withRetry op random opts w).2 = w)
  ∧ (isNonNegativeInteger r ∧ isPositiveFinite b ∧ isPositiveFinite m →
     ¬ isCheckError (withRetry op random opts w).1
     ∧ w.(opCalls) + 1 ≤ (withRetry op random opts w).2.(opCalls)
       ≤ w.(opCalls) + (Z.to_nat (to_Z r) + 1)).
Proof.
  intros r b m. unfold withRetry. fold r b m.
  pose proof (validateRetryParams_ok r b m) as Hok.
  destruct (validateRetryParams_throws r b m) as [Hv|[msg Hv]]; rewrite Hv.
  - split; [intros Hbad; destruct Hbad; by apply Hok|]. intros _.
    unfold executeWithRetry. cbn [maxAttempts].
    match goal with |- context [retryLoop op random ?c ?n ?a ?l ?w0] =>
      pose proof (retryLoop_calls c n a l w0) as Hc; simpl in Hc;
      destruct (retryLoop op random c n a l w0) as [o w'] eqn:Hrun end.
    simpl in *. split.
    + intros [msg ->].
      assert (∀ c n a l w0 o' w'' cl ms,
                retryLoop op random c n a l w0 = (o', w'') → n ≠ 0 →
                o' ≠ RejectedCheck cl ms) as Hno.
      { clear. intros c n. induction n as [|n IH]; intros a l w0 o' w'' cl ms Hr Hn; [done|].
        simpl in Hr.
        destruct (executeSingleAttempt op random (withAttempt c a) w0) as [[v|e] w1].
        - by injection Hr as <- _.
        - destruct n as [|n']; [simpl in Hr; by injection Hr as <- _|].
          by eapply IH. }
      eapply Hno; [exact Hrun|lia|done].
    + replace (Z.to_nat (to_Z r) + 1) with (S (Z.to_nat (to_Z r))) in * by lia. lia.
  - split; [|intros Hgood; apply Hok in Hgood; congruence].
    intros _. simpl. split; [by exists msg|done].
Qed.

End Attempts.

Lemma withRetry_checks_then_bounds_witness :
  (isCheckError
     (withRetry (T:=unit) (E:=unit) (λ _, Fulfilled tt) (λ _, 0%Q)
        {| retries := Some (Finite (-1)); baseMs := None; maxMs := None;
           jitter := None; onRetry := None |} initialWorld).1
   ∧ (withRetry (T:=unit) (E:=unit) (λ _, Fulfilled tt) (λ _, 0%Q)
        {| retries := Some (Finite (-1)); baseMs := None; maxMs := None;
           jitter := None; onRetry := None |} initialWorld).2 = initialWorld)
  ∧ (¬ isCheckError
       (withRetry (T:=unit) (E:=unit) (λ _, Rejected tt) (λ _, 0%Q)
          {| retries := Some (of_nat 2); baseMs := None; maxMs := None;
             jitter := None; onRetry := None |} initialWorld).1
     ∧ initialWorld.(opCalls) + 1
       ≤ (withRetry (T:=unit) (E:=unit) (λ _, Rejected tt) (λ _, 0%Q)
            {| retries := Some (of_nat 2); baseMs := None; maxMs := None;
               jitter := None; onRetry := None |} initialWorld).2.(opCalls)
       ≤ initialWorld.(opCalls) + (Z.to_nat (to_Z (of_nat 2)) + 1)).
Proof.
  split.
  - apply (withRetry_checks_then_bounds (λ _, Fulfilled tt) (λ _, 0%Q)
             {| retries := Some (Finite (-1)); baseMs := None; maxMs := None;
                jitter := None; onRetry := None |} initialWorld).
    intros [(n & q & [= <-] & Hq) _]. unfold Qeq in Hq. simpl in Hq. lia.
  - apply (withRetry_checks_then_bounds (λ _, Rejected tt) (λ _, 0%Q)
             {| retries := Some (of_nat 2); baseMs := None; maxMs := None;
                jitter := None; onRetry := None |} initialWorld).
    split; [by exists 2, (inject_Z 2)|].
    split; [exists (inject_Z 100)|exists (inject_Z 5000)]; done.
Defined.

End RetryChecksProps.

Module RetryTracesProps.
Import RetryPolicy RetryTraces DoubleFacts RetryPolicyProps RetryChecksProps.

Section Runs.
Context {T E : Type} (op : nat -> settled (T:=T) (E:=E)) (random : nat -> Q).

Lemma withRetry_checked r b m jitter cb w :
  (0 < b)%Q → (0 < m)%Q →
  withRetry op random (checkedOptions r b m jitter cb) w
  = retryLoop op random
      {| attempt := 0; maxAttempts := r + 1; a_baseMs := Finite b; a_maxMs := Finite m;
         a_jitter := jitter; a_onRetry := cb |} (r + 1) 1 None w.
Proof.
  intros Hb Hm. unfold withRetry, checkedOptions.
  cbn [default from_option id retries baseMs maxMs RetryPolicy.jitter onRetry].
  assert (validateRetryParams (of_nat r) (Finite b) (Finite m) = Ok tt) as ->.
  { apply validateRetryParams_ok. split; [by exists r, (inject_Z (Z.of_nat r))|].
    split; eexists; split; done. }
  by rewrite to_Z_of_nat.
Qed.

Lemma executeSingleAttempt_rejected (config : AttemptConfig (E:=E)) a w e :
  op w.(opCalls) = Rejected e →
  a ≠ config.(maxAttempts) →
  executeSingleAttempt op random (withAttempt config a) w
  = (Failure e,
     {| opCalls := S w.(opCalls);
        randomDraws := if config.(a_jitter) then S w.(randomDraws) else w.(randomDraws);
        trace := w.(trace)
                 ++ failedRound (hasCallback config)
                      (a, delayOf config.(a_baseMs) config.(a_maxMs) config.(a_jitter) a
                            (random w.(randomDraws))) |}).
Proof.
  intros Hop Hne. unfold executeSingleAttempt, callOp. rewrite Hop.
  cbn [attempt maxAttempts withAttempt].
  rewrite (proj2 (Nat.eqb_neq _ _) Hne).
  cbn [a_baseMs a_maxMs a_jitter withAttempt].
  rewrite calculateDelay_spec. cbn [randomDraws].
  rewrite callOnRetry_trace.
  change (hasCallback (withAttempt config a)) with (hasCallback config).
  unfold sleep, emit, failedRound. cbn [attempt withAttempt fst snd].
  destruct (a_jitter config); cbn [opCalls randomDraws trace];
    by rewrite <- !(assoc_L (++)).
Qed.

Lemma executeSingleAttempt_fulfilled (config : AttemptConfig (E:=E)) w v :
  op w.(opCalls) = Fulfilled v →
  executeSingleAttempt op random config w
  = (Success v,
     {| opCalls := S w.(opCalls); randomDraws := w.(randomDraws);
        trace := w.(trace) ++ [EvAttempt config.(attempt)] |}).
Proof. intros Hop. unfold executeSingleAttempt, callOp. by rewrite Hop. Qed.

(** The loop when the operation fails [k] times and then succeeds. *)
Lemma retryLoop_succeeds_after (config : AttemptConfig (E:=E)) (errs : nat -> E) v k :
  ∀ n a last w,
    (∀ i, i < k → op (w.(opCalls) + i) = Rejected (errs i)) →
    op (w.(opCalls) + k) = Fulfilled v →
    k < n → a + n = S config.(maxAttempts) →
    ∃ w',
      retryLoop op random config n a last w = (Resolved v, w')
      ∧ w'.(opCalls) = w.(opCalls) + k + 1
      ∧ w'.(trace)
        = w.(trace)
          ++ flat_map (failedRound (hasCallback config))
               (zip (seq a k)
                  (expectedDelays random config.(a_baseMs) config.(a_maxMs)
                     config.(a_jitter) a w.(randomDraws) k))
          ++ [EvAttempt (a + k)].
Proof.
  revert errs. induction k as [|k IH]; intros errs n a last w Hfail Hok Hk Ha.
  - destruct n as [|n]; [lia|]. cbn [retryLoop].
    rewrite Nat.add_0_r in Hok.
    rewrite (executeSingleAttempt_fulfilled _ _ v) by done.
    eexists. split; [done|]. cbn [opCalls trace attempt withAttempt]. simpl.
    split; [lia|]. by rewrite Nat.add_0_r.
  - destruct n as [|n]; [lia|]. cbn [retryLoop].
    rewrite (executeSingleAttempt_rejected _ _ _ (errs 0)); [| |lia].
    2: { rewrite <- (Hfail 0) by lia. by rewrite Nat.add_0_r. }
    match goal with
    | |- context [retryLoop _ _ _ _ _ _ ?w1] =>
        destruct (IH (λ i, errs (S i)) n (S a) (Some (errs 0)) w1)
          as (w' & Hrun & Hcalls & Htrace)
    end.
    + intros i Hi. cbn [opCalls]. rewrite <- (Hfail (S i)) by lia. f_equal. lia.
    + cbn [opCalls]. rewrite <- Hok. f_equal. lia.
    + lia.
    + lia.
    + cbn [opCalls randomDraws trace] in Hrun, Hcalls, Htrace.
      exists w'. rewrite Hrun. split; [done|]. split; [lia|].
      rewrite Htrace. cbn [seq expectedDelays zip zip_with flat_map].
      replace (S a + k) with (a + S k) by lia.
      by rewrite <- !(assoc_L (++)).
Qed.

(** X4. When the operation fails [k] times and then succeeds, with [k] at
    most [retries], [withRetry] resolves with the value of the successful
    call; the operation is called [k + 1] times and no more, each failure
    being followed by the [onRetry] call (if a callback is given) and one
    sleep, both with the delay [calculateDelay] gives for the attempt, a
    delay with jitter taking the next draw. A success at the first call
    makes no sleep at all. *)
Theorem withRetry_succeeds_after (errs : nat -> E) (v : T) (k r : nat) (b m : Q)
    (jitter : bool) (cb : option (E -> nat -> number -> result unit)) (w : world) :
  (∀ i, i < k → op (w.(opCalls) + i) = Rejected (errs i)) →
  op (w.(opCalls) + k) = Fulfilled v →
  k ≤ r → (0 < b)%Q → (0 < m)%Q →
  ∃ w' delays,
    withRetry op random (checkedOptions r b m jitter cb) w = (Resolved v, w')
    ∧ w'.(opCalls) = w.(opCalls) + k + 1
    ∧ w'.(trace)
      = w.(trace)
        ++ flat_map (λ ad, [EvAttempt ad.1]
                           ++ (if isSome cb then [EvOnRetry ad.1 ad.2] else [])
                           ++ [EvSleep ad.2])
             (zip (seq 1 k) delays)
        ++ [EvAttempt (k + 1)]
    ∧ length delays = k
    ∧ (∀ i, i < k →
         delays !! i
         = Some (calculateDelay random
                   {| d_attempt := i + 1; d_baseMs := Finite b; d_maxMs := Finite m;
                      d_jitter := jitter |}
                   {| opCalls := 0;
                      randomDraws := w.(randomDraws) + (if jitter then i else 0);
                      trace := [] |}).1)
    ∧ (k = 0 → w'.(trace) = w.(trace) ++ [EvAttempt 1]).
Proof.
  intros Hfail Hok Hk Hb Hm. rewrite withRetry_checked by done.
  match goal with |- context [retryLoop op random ?c _ _ _ _] => set (config := c) end.
  destruct (retryLoop_succeeds_after config errs v k (r + 1) 1 None w)
    as (w' & Hrun & Hcalls & Htrace); [done|done|lia|simpl; lia|].
  exists w', (expectedDelays random (Finite b) (Finite m) jitter 1 w.(randomDraws) k).
  split; [done|]. split; [done|].
  assert (hasCallback config = isSome cb) as Hcb by done.
  rewrite Hcb in Htrace. cbn [a_baseMs a_maxMs a_jitter config] in Htrace.
  rewrite Nat.add_1_r.
  split; [exact Htrace|]. split; [apply expectedDelays_length|].
  split; [|intros ->; by rewrite Htrace].
  intros i Hi. rewrite calculateDelay_spec, expectedDelays_lookup by done.
  cbn [fst randomDraws]. by rewrite (Nat.add_comm 1 i).
Qed.

End Runs.

Lemma withRetry_succeeds_after_witness :
  ∃ w' delays,
    withRetry (T:=nat) (E:=nat) (λ i, if i <? 1 then Rejected i else Fulfilled 42)
      (λ _, 225179981368524 # 9007199254740992)
      (checkedOptions 1 100 5000 true None) initialWorld
    = (Resolved 42, w')
    ∧ w'.(opCalls) = initialWorld.(opCalls) + 1 + 1
    ∧ w'.(trace)
      = initialWorld.(trace)
        ++ flat_map (λ ad, [EvAttempt ad.1]
                           ++ (if isSome (A:=nat -> nat -> number -> result unit) None
                               then [EvOnRetry ad.1 ad.2] else [])
                           ++ [EvSleep ad.2])
             (zip (seq 1 1) delays)
        ++ [EvAttempt (1 + 1)]
    ∧ length delays = 1
    ∧ (∀ i, i < 1 →
         delays !! i
         = Some (calculateDelay (λ _, 225179981368524 # 9007199254740992)
                   {| d_attempt := i + 1; d_baseMs := Finite 100; d_maxMs := Finite 5000;
                      d_jitter := true |}
                   {| opCalls := 0;
                      randomDraws := initialWorld.(randomDraws) + (if true then i else 0);
                      trace := [] |}).1)
    ∧ (1 = 0 → w'.(trace) = initialWorld.(trace) ++ [EvAttempt 1]).
Proof.
  apply (withRetry_succeeds_after (T:=nat) (E:=nat)
           (λ i, if i <? 1 then Rejected i else Fulfilled 42)
           (λ _, 225179981368524 # 9007199254740992)
           (λ i, i) 42 1 1 100 5000 true None initialWorld).
  - intros i Hi. simpl. destruct i as [|i]; [reflexivity|lia].
  - reflexivity.
  - lia.
  - reflexivity.
  - reflexivity.
Defined.

(** With jitter, for [baseMs = 100] and the draw [225179981368524 / 2^53],
    the factor is the double [0.81] and the one sleep lasts 81
    milliseconds, the product [100 * 0.81] being rounded to 81 before the
    floor. *)
Lemma withRetry_jitter_sleep :
  (withRetry (T:=nat) (E:=nat) (λ i, if i <? 1 then Rejected i else Fulfilled 42)
     (λ _, 225179981368524 # 9007199254740992)
     (checkedOptions 1 100 5000 true None) initialWorld).2.(trace)
  = [EvAttempt 1; EvSleep (of_nat 81); EvAttempt 2].
Proof. by vm_compute. Qed.





(** X6. The delay is never negative and never above the cap: without
    jitter it is at most [floor(maxMs)] and does not decrease from one
    attempt to the next; with jitter, for a draw that is a double of
    [0, 1), it is at most the floor of the double nearest to
    [1.2 * maxMs]. *)
Theorem delay_bounds (random : nat -> Q) (a : nat) (base max : Q) (w : world) :
  (0 < base)%Q → (0 < max)%Q →
  let plain k :=
    (calculateDelay random
       {| d_attempt := k; d_baseMs := Finite base; d_maxMs := Finite max;
          d_jitter := false |} w).1 in
  let jittered :=
    (calculateDelay random
       {| d_attempt := a; d_baseMs := Finite base; d_maxMs := Finite max;
          d_jitter := true |} w).1 in
  (num_le (of_nat 0) (plain a) = true ∧ num_le (plain a) (num_floor (Finite max)) = true)
  ∧ num_le (plain a) (plain (S a)) = true
  ∧ (isDouble (random w.(randomDraws)) = true →
     (0 <= random w.(randomDraws))%Q → (random w.(randomDraws) < 1)%Q →
     num_le (of_nat 0) jittered = true
     ∧ num_le jittered (num_floor (round64 ((12 # 10) * max))) = true).
Proof.
  intros Hb Hm plain jittered. unfold plain, jittered.
  rewrite !calculateDelay_spec. cbn [fst delayOf].
  rewrite !plainDelay_floor, jitteredDelay_floor.
  destruct (cappedDelay_finite base max a Hb Hm) as (d & Hd & Hd0 & Hd1).
  pose proof (cappedDelay_mono base max a Hb) as Hmono.
  split; [split|split].
  - rewrite Hd. change (of_nat 0) with (num_floor (Finite 0)).
    apply num_floor_mono. by apply Qle_bool_iff.
  - rewrite Hd. apply num_floor_mono. by apply Qle_bool_iff.
  - by apply num_floor_mono.
  - intros Hdu H0 H1. set (u := random (randomDraws w)) in *.
    destruct (jitterFactor_range u) as (f & Hf & Hf0 & Hf1);
      [done|by apply double_below_one|].
    rewrite Hd, Hf. cbn [num_mul].
    assert (0 <= d * f)%Q as Hprod by (apply Qmult_le_0_compat; lra).
    split.
    + change (of_nat 0) with (num_floor (round64 0)).
      apply num_floor_mono. by apply round64_mono.
    + apply num_floor_mono. apply round64_mono; [done|]. nra.
Qed.

Lemma delay_bounds_witness :
  (num_le (of_nat 0)
     (calculateDelay (λ _, 1 # 2)
        {| d_attempt := 3; d_baseMs := Finite 100; d_maxMs := Finite 300;
           d_jitter := false |} initialWorld).1 = true
   ∧ num_le
       (calculateDelay (λ _, 1 # 2)
          {| d_attempt := 3; d_baseMs := Finite 100; d_maxMs := Finite 300;
             d_jitter := false |} initialWorld).1
       (num_floor (Finite 300)) = true)
  ∧ num_le
      (calculateDelay (λ _, 1 # 2)
         {| d_attempt := 3; d_baseMs := Finite 100; d_maxMs := Finite 300;
            d_jitter := false |} initialWorld).1
      (calculateDelay (λ _, 1 # 2)
         {| d_attempt := 4; d_baseMs := Finite 100; d_maxMs := Finite 300;
            d_jitter := false |} initialWorld).1 = true
  ∧ (isDouble ((λ _, 1 # 2) initialWorld.(randomDraws)) = true →
     (0 <= (λ _, 1 # 2) initialWorld.(randomDraws))%Q →
     ((λ _, 1 # 2) initialWorld.(randomDraws) < 1)%Q →
     num_le (of_nat 0)
       (calculateDelay (λ _, 1 # 2)
          {| d_attempt := 3; d_baseMs := Finite 100; d_maxMs := Finite 300;
             d_jitter := true |} initialWorld).1 = true
     ∧ num_le
         (calculateDelay (λ _, 1 # 2)
            {| d_attempt := 3; d_baseMs := Finite 100; d_maxMs := Finite 300;
               d_jitter := true |} initialWorld).1
         (num_floor (round64 ((12 # 10) * 300))) = true).
Proof.
  apply (delay_bounds (λ _, 1 # 2) 3 100 300 initialWorld); reflexivity.
Defined.

(** For [baseMs = maxMs = 14.166666666666666] and the draw
    [0.9999999999999998] the delay with jitter is 17, the bound of the
    theorem above; over the reals [1.2 * maxMs] is below 17. *)
Lemma delay_bound_reached :
  jitteredDelay (Finite sampleBase) (Finite sampleBase) 1 sampleDraw = of_nat 17
  ∧ num_floor (round64 ((12 # 10) * sampleBase)) = of_nat 17
  ∧ Qfloor ((12 # 10) * sampleBase) = 16%Z.
Proof. by vm_compute. Qed.

End RetryTracesProps.

Module JsStringMoreProps.
Import JsStringMore Utils Device DeviceProps.

(** *** Splitting and joining *)

Lemma split_cons_sep sep s : split sep (sep :: s) = [] :: split sep s.
Proof. simpl. by rewrite N.eqb_refl. Qed.

Lemma split_cons_other sep c s :
  c ≠ sep →
  ∃ seg rest, split sep s = seg :: rest ∧ split sep (c :: s) = (c :: seg) :: rest.
Proof.
  intros Hne. simpl. rewrite (proj2 (N.eqb_neq _ _) Hne).
  pose proof (split_nonempty sep s) as Hs.
  destruct (split sep s) as [|seg rest]; [done|]. by exists seg, rest.
Qed.

Lemma split_app_sep sep s1 s2 :
  split sep (s1 ++ sep :: s2) = split sep s1 ++ split sep s2.
Proof.
  induction s1 as [|c s1 IH].
  - change (split sep (sep :: s2) = [[]] ++ split sep s2). by rewrite split_cons_sep.
  - destruct (decide (c = sep)) as [->|Hne].
    + rewrite <- app_comm_cons, !split_cons_sep, IH. done.
    + rewrite <- app_comm_cons.
      destruct (split_cons_other sep c s1 Hne) as (seg & rest & Hs & ->).
      destruct (split_cons_other sep c (s1 ++ sep :: s2) Hne) as (seg' & rest' & Hs' & ->).
      rewrite IH, Hs in Hs'. by injection Hs' as <- <-.
Qed.

Lemma split_no_sep sep s : sep ∉ s → split sep s = [s].
Proof.
  induction s as [|c s IH]; intros Hs; [done|].
  apply not_elem_of_cons in Hs as [Hne Hs].
  destruct (split_cons_other sep c s) as (seg & rest & Hsp & ->); [done|].
  rewrite IH in Hsp by done. by injection Hsp as <- <-.
Qed.

Lemma join_split sep s : join sep (split sep s) = s.
Proof.
  induction s as [|c s IH]; [done|].
  destruct (decide (c = sep)) as [->|Hne].
  - rewrite split_cons_sep. pose proof (split_nonempty sep s) as Hs.
    cbn [join]. destruct (split sep s) as [|seg rest]; [done|]. by rewrite IH.
  - destruct (split_cons_other sep c s Hne) as (seg & rest & Hs & ->).
    rewrite Hs in IH. destruct rest as [|seg' rest]; simpl in *; by rewrite IH.
Qed.

Lemma split_inj sep s t : split sep s = split sep t → s = t.
Proof. intros H. by rewrite <- (join_split sep s), H, join_split. Qed.

(** *** Trimmed strings *)

Lemma trim_isTrimmed s : isTrimmed (trim s).
Proof.
  unfold trim, isTrimmed.
  set (t := dropWhileStart isWhiteSpace s).
  destruct (dropWhileStart_split isWhiteSpace s) as (_ & _ & _ & Hh). fold t in Hh.
  destruct (dropWhileEnd_split isWhiteSpace t) as (w & Ht & _ & Hl).
  set (r := dropWhileEnd isWhiteSpace t) in *.
  split; [|done]. intros c Hc. apply Hh. rewrite Ht. by destruct r.
Qed.

Lemma isTrimmed_trim s : isTrimmed s → trim s = s.
Proof.
  intros [Hh Hl]. unfold trim. rewrite (dropWhileStart_head _ s) by done.
  by apply dropWhileEnd_last.
Qed.

(** *** The shape of what [toKebabCase] returns *)

Lemma isSlugUnit_not_space c : isSlugUnit c → isWhiteSpace c = false.
Proof.
  intros [Hk | ->]; [|done].
  apply not_true_iff_false. intros Hw. unfold isKept, isWhiteSpace in *.
  repeat rewrite ?orb_true_iff, ?andb_true_iff, ?N.leb_le, ?N.eqb_eq in Hk.
  repeat rewrite ?orb_true_iff, ?andb_true_iff, ?N.leb_le, ?N.eqb_eq in Hw.
  lia.
Qed.

Lemma isSlugUnit_lower c : isSlugUnit c → lowerUnit c = [c].
Proof.
  intros Hc. unfold lowerUnit.
  assert ((65 <=? c)%N && (c <=? 90)%N = false ∧ (c =? 8490)%N = false
          ∧ (c =? 304)%N = false) as (-> & -> & ->); [|done].
  destruct Hc as [Hk | ->]; [|done]. unfold isKept in Hk.
  repeat rewrite ?orb_true_iff, ?andb_true_iff, ?N.leb_le in Hk.
  rewrite andb_false_iff, !N.leb_gt, !N.eqb_neq. lia.
Qed.

Lemma replaceRuns_units b u : Forall isSlugUnit (replaceRuns b u).
Proof.
  revert b. induction u as [|c u IH]; intros b; simpl; [done|].
  destruct (isKept c) eqn:Hk.
  - constructor; [by left|done].
  - destruct b; [done|]. constructor; [by right|done].
Qed.

Lemma noDoubleHyphen_middle x y z : noDoubleHyphen (x ++ y ++ z) → noDoubleHyphen y.
Proof.
  intros H w1 w2 ->. apply (H (x ++ w1) (w2 ++ z)).
  by rewrite <- !(assoc_L (++)).
Qed.

Lemma slug_isSlug s : isSlug (slug s).
Proof.
  unfold slug. set (v := replaceRuns false (toLowerCase (trim s))).
  destruct (dropWhileStart_split isHyphen v) as (w1 & Hv & _ & Hh).
  set (t := dropWhileStart isHyphen v) in *.
  destruct (dropWhileEnd_split isHyphen t) as (w2 & Ht & _ & Hl).
  set (r := dropWhileEnd isHyphen t) in *.
  assert (v = w1 ++ r ++ w2) as Hdec by (by rewrite Hv, Ht at 1).
  pose proof (replaceRuns_units false (toLowerCase (trim s))) as Hunits. fold v in Hunits.
  rewrite Hdec, !Forall_app in Hunits. destruct Hunits as (_ & Hr & _).
  split; [done|]. split; [|split].
  - intros Hc. assert (head t = Some HYPHEN) as Hc' by (rewrite Ht; by destruct r).
    by specialize (Hh _ Hc').
  - intros Hc. by specialize (Hl _ Hc).
  - apply (noDoubleHyphen_middle w1 r w2). rewrite <- Hdec.
    apply replaceRuns_shape.
Qed.

(** X7. Whatever its input, [toKebabCase] returns a string made of the
    units a-z, 0-9, U+4E00..U+9FFF and hyphens only, that neither starts
    nor ends with a hyphen and holds no two hyphens in a row. *)
Theorem toKebabCase_shape (input : jsstring) :
  Forall isSlugUnit (toKebabCase input)
  ∧ head (toKebabCase input) ≠ Some HYPHEN
  ∧ last (toKebabCase input) ≠ Some HYPHEN
  ∧ noDoubleHyphen (toKebabCase input).
Proof. rewrite toKebabCase_slug. apply slug_isSlug. Qed.

Lemma isSlug_isTrimmed r : isSlug r → isTrimmed r.
Proof.
  intros (Hu & _). split; intros c Hc; apply isSlugUnit_not_space.
  - destruct r as [|c' r]; simplify_eq/=. by inversion Hu.
  - rewrite Forall_forall in Hu. apply Hu. apply last_Some in Hc as [l' ->].
    apply elem_of_app. right. by apply list_elem_of_singleton.
Qed.

Lemma isSlug_lower r : Forall isSlugUnit r → toLowerCase r = r.
Proof.
  unfold toLowerCase. induction 1 as [|c r Hc _ IH]; [done|].
  cbn [mbind list_bind]. change (r ≫= lowerUnit) with (mbind lowerUnit r) in *.
  rewrite isSlugUnit_lower by done. simpl. f_equal. exact IH.
Qed.

Lemma replaceRuns_fixed b r :
  Forall isSlugUnit r → noDoubleHyphen r →
  (b = true → head r ≠ Some HYPHEN) →
  replaceRuns b r = r.
Proof.
  intros Hu. revert b. induction Hu as [|c r Hc Hu IH]; intros b Hn Hb; [done|].
  simpl. destruct (isKept c) eqn:Hk.
  - f_equal. apply IH; [by eapply noDoubleHyphen_tail|done].
  - destruct Hc as [? | ->]; [congruence|].
    destruct b; [by destruct Hb|]. f_equal.
    apply IH; [by eapply noDoubleHyphen_tail|]. intros _ Hh.
    destruct r as [|c' r]; simplify_eq/=. by apply (Hn [] r).
Qed.

Lemma toKebabCase_fixed r : isSlug r → toKebabCase r = r.
Proof.
  intros Hr. pose proof (isSlug_isTrimmed r Hr) as Ht.
  destruct Hr as (Hu & Hh & Hl & Hn).
  rewrite toKebabCase_slug. unfold slug.
  rewrite isTrimmed_trim, isSlug_lower, replaceRuns_fixed by done.
  rewrite (dropWhileStart_head _ r).
  - apply dropWhileEnd_last. intros c Hc. apply N.eqb_neq. congruence.
  - intros c Hc. apply N.eqb_neq. congruence.
Qed.

(** X8. [toKebabCase] is idempotent: a slug it has produced is returned
    unchanged when normalised again. *)
Theorem toKebabCase_idempotent (input : jsstring) :
  toKebabCase (toKebabCase input) = toKebabCase input.
Proof. apply toKebabCase_fixed. rewrite toKebabCase_slug. apply slug_isSlug. Qed.

(** X9. [assertNonEmptyString] returns exactly for a value that is not
    blank and whose trimmed length is at most [maxLen]; it then returns the
    trimmed value, which has no white space at either end and a length
    between 1 and [maxLen]. A blank value raises a TypeError, a longer one a
    RangeError. *)
Theorem assertNonEmptyString_result (name : string) (value : jsstring) (maxLen : nat) :
  (isBlank value = false → length (trim value) ≤ maxLen →
   assertNonEmptyString name value maxLen = Ok (trim value)
   ∧ isTrimmed (trim value)
   ∧ 1 ≤ length (trim value) ≤ maxLen)
  ∧ (isBlank value = true →
     ∃ msg, assertNonEmptyString name value maxLen = Throw TypeError msg)
  ∧ (isBlank value = false → maxLen < length (trim value) →
     ∃ msg, assertNonEmptyString name value maxLen = Throw RangeError msg).
Proof.
  split; [|split].
  - intros Hb Hlen. split; [by apply assertNonEmptyString_ok|].
    split; [apply trim_isTrimmed|]. unfold isBlank in Hb.
    apply Nat.eqb_neq in Hb. lia.
  - apply assertNonEmptyString_blank.
  - intros Hb Hlen. unfold assertNonEmptyString, isBlank in *. rewrite Hb.
    destruct value as [|c value]; [done|]. simpl.
    rewrite (proj2 (Nat.ltb_lt _ _) Hlen). by eexists.
Qed.

Lemma assertNonEmptyString_result_witness :
  (assertNonEmptyString "id" (js "  lamp ") 8 = Ok (trim (js "  lamp "))
   ∧ isTrimmed (trim (js "  lamp "))
   ∧ 1 ≤ length (trim (js "  lamp ")) ≤ 8)
  ∧ (∃ msg, assertNonEmptyString "id" (js "   ") 8 = Throw TypeError msg)
  ∧ (∃ msg, assertNonEmptyString "id" (js "a long name") 8 = Throw RangeError msg).
Proof.
  split; [|split].
  - apply (proj1 (assertNonEmptyString_result "id" (js "  lamp ") 8));
      [reflexivity|vm_compute; lia].
  - apply (proj1 (proj2 (assertNonEmptyString_result "id" (js "   ") 8))). reflexivity.
  - apply (proj2 (proj2 (assertNonEmptyString_result "id" (js "a long name") 8)));
      [reflexivity|vm_compute; lia].
Defined.

Lemma isSlug_no_slash r : Forall isSlugUnit r → SLASH ∉ r.
Proof.
  intros Hu Hin. rewrite Forall_forall in Hu. destruct (Hu _ Hin) as [Hk|Hk]; done.
Qed.

(** X10. A resource URI always splits at its slashes into the six segments
    [iot:], the empty one, [home], the slug of the location, the slug of the
    name and [state]: the slugs hold no slash, so both can be read back from
    the URI. *)
Theorem buildDeviceResourceUri_segments (input : UriInput) (uri : jsstring) :
  buildDeviceResourceUri input = Ok uri →
  split SLASH uri
  = [js "iot:"; []; js "home"; toKebabCase input.(location);
     toKebabCase input.(friendlyName); js "state"]
  ∧ isSlug (toKebabCase input.(location))
  ∧ isSlug (toKebabCase input.(friendlyName)).
Proof.
  unfold buildDeviceResourceUri. intros Hb.
  destruct (assertNonEmptyString "location" (location input) DEFAULT_MAX_STRING_LENGTH)
    as [loc|] eqn:Hl; [|done].
  destruct (assertNonEmptyString "friendlyName" (friendlyName input)
              DEFAULT_MAX_STRING_LENGTH) as [name|] eqn:Hn; [|done].
  cbn [rbind] in Hb. injection Hb as <-.
  assert (∀ nm v r, assertNonEmptyString nm v DEFAULT_MAX_STRING_LENGTH = Ok r →
                    toKebabCase r = toKebabCase v) as Hsame.
  { intros nm v r H. unfold assertNonEmptyString in H.
    destruct (length v =? 0); [done|]. destruct (length (trim v) =? 0); [done|].
    destruct (_ <? _); [done|]. injection H as <-.
    rewrite !toKebabCase_slug. unfold slug. by rewrite trim_idempotent. }
  rewrite (Hsame _ _ _ Hl), (Hsame _ _ _ Hn).
  set (ls := toKebabCase (location input)). set (ns := toKebabCase (friendlyName input)).
  pose proof (toKebabCase_slug (location input)) as E1.
  pose proof (toKebabCase_slug (friendlyName input)) as E2.
  pose proof (slug_isSlug (location input)) as S1. rewrite <- E1 in S1.
  pose proof (slug_isSlug (friendlyName input)) as S2. rewrite <- E2 in S2.
  fold ls in S1. fold ns in S2.
  split; [|done].
  change (split SLASH (js "iot:" ++ SLASH :: ([] ++ SLASH :: (js "home" ++ SLASH ::
            (ls ++ SLASH :: (ns ++ SLASH :: js "state")))))
          = [js "iot:"; []; js "home"; ls; ns; js "state"]).
  rewrite !split_app_sep.
  rewrite (split_no_sep SLASH ls) by (apply isSlug_no_slash, S1).
  rewrite (split_no_sep SLASH ns) by (apply isSlug_no_slash, S2).
  done.
Qed.

Lemma buildDeviceResourceUri_segments_witness :
  split SLASH (js "iot://home/living-room/main-light/state")
  = [js "iot:"; []; js "home"; toKebabCase (js "Living-Room");
     toKebabCase (js "  MAIN  LIGHT "); js "state"]
  ∧ isSlug (toKebabCase (js "Living-Room"))
  ∧ isSlug (toKebabCase (js "  MAIN  LIGHT ")).
Proof.
  apply (buildDeviceResourceUri_segments
           {| location := js "Living-Room"; friendlyName := js "  MAIN  LIGHT " |}
           (js "iot://home/living-room/main-light/state")).
  reflexivity.
Defined.

End JsStringMoreProps.

Module TopicsProps.
Import MqttClient MqttAdapter Topics JsStringMore JsStringMoreProps MqttClientProps
  MqttAdapterProps DeviceProps.

Lemma levels_equal (ps ts : list jsstring) :
  length ps = length ts →
  (∀ i, i < length ps → ps !! i = ts !! i) → ps = ts.
Proof.
  intros Hlen H. apply list_eq. intros i.
  destruct (decide (i < length ps)) as [Hi|Hi]; [by apply H|].
  rewrite (lookup_ge_None_2 ps i), (lookup_ge_None_2 ts i) by lia. done.
Qed.

Lemma no_wildcard_lookup pattern i :
  hasNoWildcard pattern →
  split SLASH pattern !! i ≠ Some PLUS ∧ split SLASH pattern !! i ≠ Some HASH.
Proof.
  intros Hp. split; intros Hi; apply list_elem_of_lookup_2 in Hi; by destruct (Hp _ Hi).
Qed.

(** X11. A pattern without wildcards matches one topic only, itself. *)
Theorem matchTopic_literal (pattern topic : jsstring) :
  hasNoWildcard pattern →
  matchTopic pattern topic = true ↔ pattern = topic.
Proof.
  intros Hp. unfold matchTopic, str_eqb.
  destruct (decide (pattern = topic)) as [Heq|Hne].
  { by rewrite bool_decide_eq_true_2. }
  rewrite bool_decide_eq_false_2 by done. rewrite last_at_index.
  set (ps := split SLASH pattern). set (ts := split SLASH topic).
  assert (last ps ≠ Some HASH) as Hlast.
  { intros Hl. apply last_Some in Hl as [l' Hl].
    destruct (Hp HASH) as [_ ?]; [|done]. fold ps. rewrite Hl.
    apply elem_of_app. right. by apply list_elem_of_singleton. }
  rewrite bool_decide_eq_false_2 by done.
  destruct (decide (length ps = length ts)) as [Hlen|Hlen].
  - rewrite bool_decide_eq_false_2 by tauto. split; [|done].
    intros Hm. pose proof (proj1 (levelsMatch_spec _ _ _ _) Hm) as Hall.
    destruct Hne. apply (split_inj SLASH). apply levels_equal; [done|].
    intros i Hi. fold ps in Hi. destruct (Hall i) as [Hplus|?]; [lia| |done].
    by destruct (no_wildcard_lookup pattern i Hp).
  - by rewrite bool_decide_eq_true_2.
Qed.

Lemma matchTopic_literal_witness :
  matchTopic (js "devices/lamp-1/state") (js "devices/lamp-1/state") = true
  ↔ js "devices/lamp-1/state" = js "devices/lamp-1/state".
Proof.
  apply (matchTopic_literal (js "devices/lamp-1/state") (js "devices/lamp-1/state")).
  intros seg Hseg. vm_compute in Hseg.
  repeat (apply elem_of_cons in Hseg as [->|Hseg]; [by split|]).
  by apply elem_of_nil in Hseg.
Defined.

Lemma levelsMatch_prefix (common more : list jsstring) (tail : list jsstring) :
  levelsMatch (common ++ tail) (common ++ more) 0 (length common) = true.
Proof.
  apply levelsMatch_spec. intros j Hj. right.
  by rewrite !lookup_app_l by lia.
Qed.

Lemma join_app_cons sep (front : list jsstring) seg (rest : list jsstring) :
  front ≠ [] →
  join sep (front ++ seg :: rest) = join sep front ++ sep :: join sep (seg :: rest).
Proof.
  induction front as [|f front IH]; intros Hne; [done|].
  destruct front as [|f' front].
  - done.
  - change (join sep ((f :: f' :: front) ++ seg :: rest))
      with (f ++ sep :: join sep ((f' :: front) ++ seg :: rest)).
    rewrite IH by done.
    change (join sep (f :: f' :: front)) with (f ++ sep :: join sep (f' :: front)).
    by rewrite <- (assoc_L (++)).
Qed.

(** X12. The pattern [prefix/#] matches the topic [prefix] itself and every
    topic below it, [prefix/...]; when the prefix holds no wildcard it
    matches nothing else. The pattern [#] alone matches every topic. *)
Theorem matchTopic_subtree (prefix topic : jsstring) :
  (inSubtree prefix topic → matchTopic (subtreePattern prefix) topic = true)
  ∧ (hasNoWildcard prefix →
     matchTopic (subtreePattern prefix) topic = true → inSubtree prefix topic)
  ∧ matchTopic HASH topic = true.
Proof.
  assert (split SLASH (subtreePattern prefix) = split SLASH prefix ++ [HASH]) as Hps.
  { unfold subtreePattern. by rewrite split_app_sep. }
  assert (matchTopic (subtreePattern prefix) topic =
                if str_eqb (subtreePattern prefix) topic then true
                else if levelsMatch (split SLASH prefix ++ [HASH]) (split SLASH topic) 0
                          (length (split SLASH prefix))
                     then bool_decide (length (split SLASH prefix) ≤ length (split SLASH topic))
                     else false) as Hunfold.
  { unfold matchTopic. destruct (str_eqb _ _); [done|].
    rewrite last_at_index, Hps, last_snoc, bool_decide_eq_true_2 by done.
    rewrite length_app. simpl.
    by replace (length (split SLASH prefix) + 1 - 1) with (length (split SLASH prefix)) by lia. }
  rewrite Hunfold. clear Hunfold.
  split; [|split].
  - intros Hin. destruct (str_eqb _ _); [done|].
    assert (∃ more, split SLASH topic = split SLASH prefix ++ more) as [more Hts].
    { destruct Hin as [->|[rest ->]].
      - exists []. by rewrite app_nil_r.
      - exists (split SLASH rest). by rewrite split_app_sep. }
    rewrite Hts, levelsMatch_prefix. apply bool_decide_eq_true.
    rewrite length_app. lia.
  - intros Hp. unfold str_eqb. case_bool_decide as Heq.
    { intros _. right. exists HASH. by rewrite <- Heq. }
    destruct (levelsMatch _ _ _ _) eqn:Hm; [|done].
    intros Hlen%bool_decide_eq_true.
    pose proof (proj1 (levelsMatch_spec _ _ _ _) Hm) as Hall.
    set (ps := split SLASH prefix) in *. set (ts := split SLASH topic) in *.
    assert (take (length ps) ts = ps) as Htake.
    { symmetry. apply levels_equal; [rewrite length_take; lia|].
      intros i Hi. rewrite lookup_take_lt by done.
      destruct (Hall i) as [Hplus|Heq']; [lia| |].
      - rewrite lookup_app_l in Hplus by done.
        by destruct (no_wildcard_lookup prefix i Hp).
      - by rewrite lookup_app_l in Heq' by done. }
    assert (ts = ps ++ drop (length ps) ts) as Hts
      by (by rewrite <- Htake at 1; rewrite take_drop).
    rewrite <- (join_split SLASH topic). fold ts. rewrite Hts.
    destruct (drop (length ps) ts) as [|seg rest].
    + left. rewrite app_nil_r. apply join_split.
    + right. exists (join SLASH (seg :: rest)).
      rewrite join_app_cons by apply split_nonempty.
      unfold ps. by rewrite join_split.
  - unfold matchTopic. destruct (str_eqb _ _); [done|].
    rewrite last_at_index. change (split SLASH HASH) with [HASH].
    rewrite bool_decide_eq_true_2 by done. cbn [length Nat.sub levelsMatch].
    apply bool_decide_eq_true. lia.
Qed.

Lemma matchTopic_subtree_witness :
  (inSubtree (js "zigbee2mqtt") (js "zigbee2mqtt/floor1/lamp") →
   matchTopic (subtreePattern (js "zigbee2mqtt")) (js "zigbee2mqtt/floor1/lamp") = true)
  ∧ (hasNoWildcard (js "zigbee2mqtt") →
     matchTopic (subtreePattern (js "zigbee2mqtt")) (js "zigbee2mqtt/floor1/lamp") = true →
     inSubtree (js "zigbee2mqtt") (js "zigbee2mqtt/floor1/lamp"))
  ∧ matchTopic HASH (js "zigbee2mqtt/floor1/lamp") = true.
Proof.
  apply (matchTopic_subtree (js "zigbee2mqtt") (js "zigbee2mqtt/floor1/lamp")).
Defined.

Lemma isTrimmed_nonblank s : isTrimmed s → s ≠ [] → isBlank s = false.
Proof.
  intros Ht Hs. unfold isBlank. rewrite isTrimmed_trim by done.
  by destruct s.
Qed.

(** X13. Mapping is the inverse of the topic convention: for a base with no
    white space at its ends, whatever slashes it ends with, and a device
    identifier that is not empty and holds no slash, [mapTopicToDeviceId]
    gives back the identifier from the state
    topic [<base>/<id>/state] built on the base without its trailing
    slashes. *)
Theorem mapTopicToDeviceId_roundtrip (b deviceId : jsstring) (n : nat) :
  isTrimmed b → b ≠ [] → last b ≠ Some SLASH →
  deviceId ≠ [] → SLASH ∉ deviceId →
  mapTopicToDeviceId (b ++ replicate n SLASH) (stateTopic b deviceId) = Ok (Some deviceId).
Proof.
  intros Hb Hne Hlast Hid Hslash.
  set (base := b ++ replicate n SLASH). set (topic := stateTopic b deviceId).
  assert (isTrimmed base) as Hbase.
  { destruct Hb as [Hh Hl]. split; intros c Hc.
    - apply Hh. unfold base in Hc. by destruct b.
    - unfold base in Hc. destruct n as [|n].
      + rewrite app_nil_r in Hc. by apply Hl.
      + rewrite last_app in Hc.
        assert (last (replicate (S n) SLASH) = Some SLASH) as Hr.
        { clear. induction n as [|n IH]; [done|].
          change (replicate (S (S n)) SLASH) with (SLASH :: replicate (S n) SLASH).
          rewrite last_cons, IH. done. }
        rewrite Hr in Hc. by injection Hc as <-. }
  assert (isTrimmed topic) as Htopic.
  { destruct Hb as [Hh _]. split; intros c Hc.
    - apply Hh. unfold topic, stateTopic in Hc. by destruct b.
    - unfold topic, stateTopic in Hc.
      change (b ++ SLASH :: deviceId ++ SLASH :: STATE)
        with (b ++ SLASH :: deviceId ++ js "/stat" ++ [101%N]) in Hc.
      rewrite (app_comm_cons _ _ SLASH), !(assoc_L (++)), last_snoc in Hc.
      by injection Hc as <-. }
  assert (base ≠ []) as Hbne by (unfold base; by destruct b).
  assert (topic ≠ []) as Htne by (unfold topic, stateTopic; by destruct b).
  destruct (mapTopicToDeviceId_nonblank base topic) as (o & Hrun & Ho);
    [by apply isTrimmed_nonblank..|].
  rewrite Hrun. f_equal. apply Ho.
  rewrite !isTrimmed_trim by done.
  exists b, (deviceId ++ SLASH :: STATE), [].
  split; [split; [by exists n|done]|].
  split; [done|]. split; [|done].
  rewrite split_app_sep, (split_no_sep SLASH deviceId) by done. done.
Qed.

Lemma mapTopicToDeviceId_roundtrip_witness :
  mapTopicToDeviceId (js "zigbee2mqtt" ++ replicate 2 SLASH)
    (stateTopic (js "zigbee2mqtt") (js "living_room_light_1"))
  = Ok (Some (js "living_room_light_1")).
Proof.
  apply (mapTopicToDeviceId_roundtrip (js "zigbee2mqtt") (js "living_room_light_1") 2).
  - split; intros c Hc; vm_compute in Hc; by injection Hc as <-.
  - done.
  - done.
  - done.
  - intros Hin. vm_compute in Hin.
    repeat (apply elem_of_cons in Hin as [Hin|Hin]; [done|]).
    by apply elem_of_nil in Hin.
Defined.

End TopicsProps.

Module JsMapMoreProps.

Section Facts.
Context {V : Type}.
Implicit Types (m : JsMap.t V) (k : jsstring) (v : V).

Lemma get_None_keys k m : JsMap.get k m = None ↔ k ∉ JsMap.keys m.
Proof.
  unfold JsMap.keys. induction m as [|[k' v'] m IH]; simpl.
  - split; [intros _; apply not_elem_of_nil|done].
  - rewrite not_elem_of_cons.
    destruct (decide (k' = k)) as [->|Hne].
    + split; [done|]. by intros [? _].
    + rewrite IH. split; [by split|by intros [_ ?]].
Qed.

Lemma has_keys k m : JsMap.has k m = true ↔ k ∈ JsMap.keys m.
Proof.
  unfold JsMap.has. pose proof (get_None_keys k m) as H.
  destruct (JsMap.get k m) as [v|].
  - split; [|done]. intros _. destruct (decide (k ∈ JsMap.keys m)); [done|].
    by apply H in n.
  - split; [done|]. intros Hin. by apply H in Hin.
Qed.

Lemma keys_set k v m :
  JsMap.keys (JsMap.set k v m)
  = if JsMap.has k m then JsMap.keys m else JsMap.keys m ++ [k].
Proof.
  destruct (JsMap.has k m) eqn:Hh.
  - by apply JsMapProps.keys_set_present.
  - by apply JsMapProps.keys_set_absent.
Qed.

Lemma NoDup_keys_set k v m : NoDup (JsMap.keys m) → NoDup (JsMap.keys (JsMap.set k v m)).
Proof.
  intros Hm. rewrite keys_set. destruct (JsMap.has k m) eqn:Hh; [done|].
  apply NoDup_app. split; [done|]. split; [|apply NoDup_singleton].
  intros x Hx Hk. apply list_elem_of_singleton in Hk as ->.
  apply has_keys in Hx. congruence.
Qed.

End Facts.

End JsMapMoreProps.

Module ContractsProps.
Import AdapterInterface Contracts JsMapProps JsMapMoreProps.

Lemma validateMethods_ok h l methods :
  validateMethods h l methods = Ok tt
  ↔ ∀ m, m ∈ methods → isFunction h (getProp h l m) = true.
Proof.
  induction methods as [|m methods IH]; simpl.
  - split; [|done]. intros _ m Hm. by apply elem_of_nil in Hm.
  - destruct (isFunction h (getProp h l m)) eqn:Hf; simpl.
    + rewrite IH. split.
      * intros H m' [->|Hm']%elem_of_cons; [done|by apply H].
      * intros H m' Hm'. apply H. by apply elem_of_cons; right.
    + split; [done|]. intros H. rewrite H in Hf; [done|]. by apply elem_of_cons; left.
Qed.

Lemma validateMethods_throws h l methods :
  validateMethods h l methods = Ok tt
  ∨ ∃ msg, validateMethods h l methods = Throw TypeError msg.
Proof.
  induction methods as [|m methods IH]; simpl; [by left|].
  destruct (isFunction h (getProp h l m)); simpl; [done|right; by eexists].
Qed.

Lemma ensureAdapterImplements_cases h adapter :
  ensureAdapterImplements h adapter = Ok tt
  ∨ ∃ msg, ensureAdapterImplements h adapter = Throw TypeError msg.
Proof.
  unfold ensureAdapterImplements.
  destruct (_ || _); [right; by eexists|].
  destruct adapter as [| |b|x|s|l]; try (right; by eexists).
  unfold validateAdapterName.
  destruct (getProp h l (js "name")) as [| | | |name|]; try (right; by eexists).
  destruct (isBlank name); [right; by eexists|]. cbn [rbind].
  unfold validateRequiredMethods.
  destruct (validateMethods_throws h l REQUIRED_METHODS) as [->|[msg ->]];
    [|right; by eexists].
  cbn [rbind]. unfold validateExecuteCommandParams, validateOptionalScanDevices.
  destruct (isFunction h (getProp h l (js "executeCommand")));
    [destruct (negb _); [right; by eexists|]|];
    cbn [rbind]; (destruct (_ && _); [right; by eexists|by left]).
Qed.

(** X14. [ensureAdapterImplements] accepts an adapter exactly when it is an
    object, not a function, whose [name] is a string that is not blank,
    whose six required methods are functions, whose [executeCommand] is
    declared with two parameters and whose [scanDevices], if that property
    is there, is a function; every refusal is a TypeError. *)
Theorem ensureAdapterImplements_accepts (h : heap) (adapter : value) :
  (ensureAdapterImplements h adapter = Ok tt ↔ meetsContract h adapter)
  ∧ (ensureAdapterImplements h adapter = Ok tt
     ∨ ∃ msg, ensureAdapterImplements h adapter = Throw TypeError msg).
Proof.
  unfold ensureAdapterImplements, meetsContract.
  destruct adapter as [| |b|x|s|l];
    try (simpl; split; [split; [done|by intros (? & ? & _)]|right; by eexists]).
  cbn [isNull isUndefined orb].
  destruct (bool_decide (typeof h (VRef l) = TObject)) eqn:Hty; cbn [negb].
  2: { apply bool_decide_eq_false in Hty.
       split; [split; [done|]|right; by eexists].
       by intros (l' & [= <-] & Hobj & _). }
  apply bool_decide_eq_true in Hty.
  unfold validateAdapterName.
  destruct (getProp h l (js "name")) as [| | | |name|] eqn:Hname;
    try (split; [split; [done|]|right; by eexists];
         intros (l' & [= <-] & _ & (nm & Hnm & _) & _); congruence).
  destruct (isBlank name) eqn:Hblank; cbn [rbind].
  { split; [split; [done|]|right; by eexists].
    intros (l' & [= <-] & _ & (nm & Hnm & Hnb) & _). congruence. }
  unfold validateRequiredMethods.
  pose proof (validateMethods_ok h l REQUIRED_METHODS) as Hmeth.
  destruct (validateMethods_throws h l REQUIRED_METHODS) as [Hm|[msg Hm]];
    rewrite Hm; simpl.
  2: { split; [split; [done|]|right; by eexists].
       intros (l' & [= <-] & _ & _ & Hall & _). apply Hmeth in Hall. congruence. }
  assert (isFunction h (getProp h l (js "executeCommand")) = true) as Hexec.
  { apply Hmeth; [done|]. unfold REQUIRED_METHODS.
    do 4 (apply elem_of_cons; right). by apply elem_of_cons; left. }
  unfold validateExecuteCommandParams. rewrite Hexec.
  destruct (bool_decide (functionLength h (getProp h l (js "executeCommand"))
                         = Some EXPECTED_PARAMS)) eqn:Hlen; simpl.
  2: { apply bool_decide_eq_false in Hlen.
       split; [split; [done|]|right; by eexists].
       by intros (l' & [= <-] & _ & _ & _ & Hl2 & _). }
  apply bool_decide_eq_true in Hlen.
  unfold validateOptionalScanDevices.
  destruct (hasProp h l (js "scanDevices")) eqn:Hhas; simpl.
  - destruct (isFunction h (getProp h l (js "scanDevices"))) eqn:Hscan; simpl.
    + split; [|by left]. split; [|done]. intros _. exists l.
      repeat split; try done; [by exists name|by apply Hmeth].
    + split; [split; [done|]|right; by eexists].
      intros (l' & [= <-] & _ & _ & _ & _ & Hs). specialize (Hs Hhas). congruence.
  - split; [|by left]. split; [|done]. intros _. exists l.
    repeat split; try done; [by exists name|by apply Hmeth|intros ?; congruence].
Qed.

Lemma ensureAdapterImplements_accepts_witness :
  (ensureAdapterImplements sampleAdapterHeap (VRef 0) = Ok tt
   ↔ meetsContract sampleAdapterHeap (VRef 0))
  ∧ (ensureAdapterImplements sampleAdapterHeap (VRef 0) = Ok tt
     ∨ ∃ msg, ensureAdapterImplements sampleAdapterHeap (VRef 0) = Throw TypeError msg).
Proof. apply (ensureAdapterImplements_accepts sampleAdapterHeap (VRef 0)). Defined.

End ContractsProps.

Module RegistryReachProps.
Import AdapterInterface Contracts JsMapProps JsMapMoreProps ContractsProps.

Lemma reachedRegistry_snoc calls h name adapter :
  reachedRegistry (calls ++ [(h, name, adapter)])
  = (AdapterRegistry.register h name adapter (reachedRegistry calls)).2.
Proof. unfold reachedRegistry, AdapterRegistry.registerAll. by rewrite foldl_app. Qed.

Lemma ensure_ok_contract h adapter u :
  ensureAdapterImplements h adapter = Ok u → meetsContract h adapter.
Proof.
  intros Hok. destruct u.
  unfold ensureAdapterImplements, meetsContract in *.
  destruct adapter as [| |b|x|s|l]; try done.
  cbn [isNull isUndefined orb] in Hok.
  destruct (bool_decide (typeof h (VRef l) = TObject)) eqn:Hty; [|done].
  apply bool_decide_eq_true in Hty. cbn [negb] in Hok.
  unfold validateAdapterName in Hok.
  destruct (getProp h l (js "name")) as [| | | |name|] eqn:Hname; try done.
  destruct (isBlank name) eqn:Hblank; [done|]. cbn [rbind] in Hok.
  unfold validateRequiredMethods in Hok.
  destruct (validateMethods h l REQUIRED_METHODS) as [[]|] eqn:Hm; [|done].
  cbn [rbind] in Hok.
  assert (∀ m, m ∈ REQUIRED_METHODS → isFunction h (getProp h l m) = true) as Hall.
  { clear Hok. revert Hm. generalize REQUIRED_METHODS.
    induction l0 as [|m ms IH]; simpl; intros Hm m' Hin.
    - by apply elem_of_nil in Hin.
    - destruct (isFunction h (getProp h l m)) eqn:Hf; [|done]. simpl in Hm.
      apply elem_of_cons in Hin as [->|Hin]; [done|by apply IH]. }
  assert (isFunction h (getProp h l (js "executeCommand")) = true) as Hexec.
  { apply Hall. unfold REQUIRED_METHODS.
    do 4 (apply elem_of_cons; right). by apply elem_of_cons; left. }
  unfold validateExecuteCommandParams in Hok. rewrite Hexec in Hok.
  destruct (bool_decide (functionLength h (getProp h l (js "executeCommand"))
                         = Some EXPECTED_PARAMS)) eqn:Hlen; [|done].
  apply bool_decide_eq_true in Hlen. cbn [negb rbind] in Hok.
  unfold validateOptionalScanDevices in Hok.
  exists l. repeat split; try done; [by exists name|].
  intros Hhas. rewrite Hhas in Hok.
  by destruct (isFunction h (getProp h l (js "scanDevices"))).
Qed.

(** X15. A [register] call either throws and leaves the registry exactly as
    it was, or returns, and then the name is not blank, was not registered,
    the adapter met the contract in the heap of the call, the name is
    added last and [get] gives that adapter. A conflict is the only plain
    Error; every other refusal is a TypeError. *)
Theorem register_outcome (h : heap) (name : jsstring) (adapter : value)
    (adapters : JsMap.t value) :
  ((AdapterRegistry.register h name adapter adapters).1 = Ok tt
   ∧ isBlank name = false
   ∧ AdapterRegistry.has name adapters = false
   ∧ meetsContract h adapter
   ∧ AdapterRegistry.list (AdapterRegistry.register h name adapter adapters).2
     = AdapterRegistry.list adapters ++ [name]
   ∧ AdapterRegistry.get name (AdapterRegistry.register h name adapter adapters).2
     = Some adapter)
  ∨ (∃ c msg,
       AdapterRegistry.register h name adapter adapters = (Throw c msg, adapters)
       ∧ (c = TypeError
          ∨ (c = PlainError ∧ msg = AdapterRegistry.CONFLICT
             ∧ AdapterRegistry.has name adapters = true))).
Proof.
  unfold AdapterRegistry.register, AdapterRegistry.has, AdapterRegistry.list,
    AdapterRegistry.get.
  destruct (isBlank name) eqn:Hblank.
  { right. do 2 eexists. split; [done|by left]. }
  destruct (JsMap.has name adapters) eqn:Hhas.
  { right. do 2 eexists. split; [done|]. by right. }
  destruct (ensureAdapterImplements_cases h adapter) as [Hok|[msg Hthrow]].
  - rewrite Hok. left. cbn [fst snd].
    split; [done|]. split; [done|]. split; [done|].
    split; [by apply (ensure_ok_contract h adapter tt)|].
    split; [by apply keys_set_absent|apply get_set_eq].
  - rewrite Hthrow. right. do 2 eexists. split; [done|by left].
Qed.

(** X16. In a registry reached from a new one by any [register] calls,
    successful or not, the names [list] gives are pairwise different and
    none is blank, there are at most as many as calls, [has] holds for
    exactly these names, and the adapter [get] gives for a name is one that
    a call registered under that name and that met the contract in the
    heap of that call. *)
Theorem registry_names_unique (calls : list (heap * jsstring * value)%type) :
  NoDup (AdapterRegistry.list (reachedRegistry calls))
  ∧ length (AdapterRegistry.list (reachedRegistry calls)) ≤ length calls
  ∧ (∀ name, AdapterRegistry.has name (reachedRegistry calls) = true
             ↔ name ∈ AdapterRegistry.list (reachedRegistry calls))
  ∧ (∀ name, name ∈ AdapterRegistry.list (reachedRegistry calls) →
             isBlank name = false)
  ∧ (∀ name adapter,
       AdapterRegistry.get name (reachedRegistry calls) = Some adapter →
       ∃ h, (h, name, adapter) ∈ calls ∧ meetsContract h adapter).
Proof.
  split; [|split; [|split; [by intros name; apply has_keys|]]].
  - induction calls as [|[[h name] adapter] calls IH] using rev_ind.
    + apply NoDup_nil_2.
    + rewrite reachedRegistry_snoc. unfold AdapterRegistry.register.
      destruct (isBlank name); [done|].
      destruct (JsMap.has name _) eqn:Hhas; [done|].
      destruct (ensureAdapterImplements h adapter); [|done].
      by apply NoDup_keys_set.
  - induction calls as [|[[h name] adapter] calls IH] using rev_ind.
    + simpl. lia.
    + rewrite reachedRegistry_snoc, length_app. simpl.
      unfold AdapterRegistry.register.
      destruct (isBlank name); [simpl; lia|].
      destruct (JsMap.has name _) eqn:Hhas; [simpl; lia|].
      destruct (ensureAdapterImplements h adapter); [|simpl; lia].
      cbn [snd]. unfold AdapterRegistry.list in *.
      rewrite keys_set_absent, length_app by done. simpl. lia.
  - induction calls as [|[[h name] adapter] calls [IHb IHg]] using rev_ind.
    + split; [intros name Hin; by apply elem_of_nil in Hin|done].
    + rewrite reachedRegistry_snoc.
      assert (∀ P : JsMap.t value → Prop,
                P (reachedRegistry calls) →
                (isBlank name = false →
                 JsMap.has name (reachedRegistry calls) = false →
                 meetsContract h adapter →
                 P (JsMap.set name adapter (reachedRegistry calls))) →
                P (AdapterRegistry.register h name adapter (reachedRegistry calls)).2)
        as Hcases.
      { intros P Hsame Hnew. unfold AdapterRegistry.register.
        destruct (isBlank name); [done|].
        destruct (JsMap.has name _); [done|].
        destruct (ensureAdapterImplements h adapter) as [u|] eqn:Hok; [|done].
        apply Hnew; try done. by apply (ensure_ok_contract h adapter u). }
      split.
      * apply (Hcases (λ reg, ∀ n, n ∈ AdapterRegistry.list reg → isBlank n = false)).
        -- done.
        -- intros Hnb Hhas _ n. unfold AdapterRegistry.list.
           rewrite keys_set_absent by done.
           intros [Hin|Hin%list_elem_of_singleton]%elem_of_app; [by apply IHb|by subst].
      * apply (Hcases (λ reg, ∀ n a, AdapterRegistry.get n reg = Some a →
                                     ∃ h0, (h0, n, a) ∈ calls ++ [(h, name, adapter)]
                                           ∧ meetsContract h0 a)).
        -- intros n a Hget. destruct (IHg n a Hget) as (h0 & Hin & Hc).
           exists h0. split; [|done]. apply elem_of_app. by left.
        -- intros Hnb Hhas Hc n a. unfold AdapterRegistry.get.
           destruct (decide (name = n)) as [<-|Hne].
           ++ rewrite get_set_eq. intros [= <-]. exists h. split; [|done].
              apply elem_of_app. right. by apply list_elem_of_singleton.
           ++ rewrite get_set_ne by done. intros Hget.
              destruct (IHg n a Hget) as (h0 & Hin & Hc0).
              exists h0. split; [|done]. apply elem_of_app. by left.
Qed.

Lemma registerDevices_snoc devices d ds :
  registerDevices (devices ++ [d]) ds
  = (DeviceManager.registerDevice d (registerDevices devices ds)).2.
Proof. unfold registerDevices. by rewrite foldl_app. Qed.

Lemma registerDevice_cases (P : JsMap.t DeviceManager.DeviceMetadata → Prop) d ds :
  P ds →
  (∀ k, DeviceManager.id d = Some k → isBlank k = false → P (JsMap.set k d ds)) →
  P (DeviceManager.registerDevice d ds).2.
Proof.
  intros Hsame Hnew. unfold DeviceManager.registerDevice.
  destruct (DeviceManager.id d) as [k|] eqn:Hid; [|done].
  destruct (length k =? 0) eqn:H0; [done|]. simpl.
  destruct (length (trim k) =? 0) eqn:Hb; [done|]. by apply Hnew.
Qed.

(** X17. After any [registerDevice] calls on a new manager, successful or
    not, the devices [listDevices] gives have pairwise different ids, none
    of them missing or blank, each is one of the devices passed in, there
    are at most as many as calls, and [getDevice] with the id of a listed
    device gives that device. *)
Theorem listDevices_unique_ids (devices : list DeviceManager.DeviceMetadata) :
  NoDup (DeviceManager.id <$> DeviceManager.listDevices (registerDevices devices []))
  ∧ length (DeviceManager.listDevices (registerDevices devices [])) ≤ length devices
  ∧ (∀ d, d ∈ DeviceManager.listDevices (registerDevices devices []) →
          d ∈ devices
          ∧ ∃ k, DeviceManager.id d = Some k ∧ isBlank k = false
                 ∧ DeviceManager.getDevice k (registerDevices devices []) = Some d).
Proof.
  assert (∀ ds : JsMap.t DeviceManager.DeviceMetadata,
            NoDup (JsMap.keys ds) → ∀ k d, (k, d) ∈ ds → JsMap.get k ds = Some d)
    as Hget.
  { induction ds as [|[k0 d0] ds IH]; intros Hnd k d Hin.
    - by apply elem_of_nil in Hin.
    - unfold JsMap.keys in Hnd. rewrite fmap_cons in Hnd.
      apply NoDup_cons in Hnd as [Hfresh Hnd]. simpl.
      apply elem_of_cons in Hin as [[= -> ->]|Hin]; [by rewrite decide_True|].
      rewrite decide_False; [by apply IH|].
      intros ->. apply Hfresh. apply list_elem_of_fmap. by exists (k, d). }
  assert (∀ (k : jsstring) (d : DeviceManager.DeviceMetadata) ds kd,
            kd ∈ JsMap.set k d ds → kd = (k, d) ∨ kd ∈ ds) as Hset.
  { intros k d ds kd. induction ds as [|[k0 d0] ds IH]; simpl.
    - intros ->%list_elem_of_singleton. by left.
    - destruct (decide (k0 = k)) as [->|Hne].
      + intros [->|Hin]%elem_of_cons; [by left|right; by apply elem_of_cons; right].
      + intros [->|Hin]%elem_of_cons; [right; by apply elem_of_cons; left|].
        destruct (IH Hin) as [?|?]; [by left|right; by apply elem_of_cons; right]. }
  assert (NoDup (JsMap.keys (registerDevices devices []))
          ∧ length (registerDevices devices []) ≤ length devices
          ∧ ∀ k d, (k, d) ∈ registerDevices devices [] →
                   DeviceManager.id d = Some k ∧ isBlank k = false ∧ d ∈ devices)
    as (Hnd & Hlen & Hinv).
  { induction devices as [|d devices (IHnd & IHlen & IHinv)] using rev_ind.
    - split; [apply NoDup_nil_2|]. split; [done|].
      intros k d Hin. by apply elem_of_nil in Hin.
    - rewrite registerDevices_snoc.
      apply (registerDevice_cases
               (λ ds, NoDup (JsMap.keys ds)
                      ∧ length ds ≤ length (devices ++ [d])
                      ∧ ∀ k0 d0, (k0, d0) ∈ ds →
                          DeviceManager.id d0 = Some k0 ∧ isBlank k0 = false
                          ∧ d0 ∈ devices ++ [d])).
      + split; [done|]. split; [rewrite length_app; simpl; lia|].
        intros k0 d0 Hin. destruct (IHinv k0 d0 Hin) as (? & ? & ?).
        split; [done|]. split; [done|]. apply elem_of_app. by left.
      + intros k Hid Hnb. split; [by apply NoDup_keys_set|]. split.
        * rewrite length_app. simpl.
          assert (length (JsMap.set k d (registerDevices devices []))
                  ≤ S (length (registerDevices devices []))) as Hle.
          { generalize (registerDevices devices []).
            induction t as [|[k0 d0] t IH]; simpl; [lia|].
            destruct (decide (k0 = k)); simpl; lia. }
          lia.
        * intros k0 d0 Hin. apply Hset in Hin as [[= -> ->]|Hin].
          -- split; [done|]. split; [done|]. apply elem_of_app. right.
             by apply list_elem_of_singleton.
          -- destruct (IHinv k0 d0 Hin) as (? & ? & ?).
             split; [done|]. split; [done|]. apply elem_of_app. by left. }
  unfold DeviceManager.listDevices, DeviceManager.getDevice, JsMap.values.
  split; [|split].
  - assert (DeviceManager.id <$> (registerDevices devices []).*2
            = Some <$> JsMap.keys (registerDevices devices [])) as ->.
    { unfold JsMap.keys. revert Hinv. generalize (registerDevices devices []).
      induction t as [|[k d] t IH]; intros Hinv; [done|].
      rewrite !fmap_cons. simpl. f_equal.
      - apply (Hinv k d). by apply elem_of_cons; left.
      - apply IH. intros k0 d0 Hin. apply Hinv. by apply elem_of_cons; right. }
    apply NoDup_fmap_2; [|done]. by intros ?? [= ->].
  - by rewrite length_fmap.
  - intros d Hin. apply list_elem_of_fmap in Hin as ([k d'] & -> & Hin). simpl.
    destruct (Hinv k d' Hin) as (Hid & Hnb & Hd).
    split; [done|]. exists k. split; [done|]. split; [done|]. by apply Hget.
Qed.

End RegistryReachProps.

Module StateStoreProps.
Import DeviceState DeviceStateChecks StateStore DeviceManagerState JsMapProps JsMapMoreProps
  DeviceStateProps.


Lemma filter_startsWith (p : jsstring) (l : list jsstring) :
  List.filter (λ key, startsWith key p) l = filter (λ k, p `prefix_of` k) l.
Proof.
  induction l as [|k l IH]; [done|]. cbn [List.filter]. rewrite filter_cons.
  destruct (startsWith k p) eqn:Hs.
  - apply startsWith_spec in Hs. rewrite decide_True by done. by rewrite IH.
  - rewrite decide_False; [done|]. intros Hp. apply startsWith_spec in Hp. congruence.
Qed.

(** X18. The in-memory store: [get], [set] and [patch] throw a TypeError
    for a blank key and leave the store as it was; for any other key, [set]
    succeeds, [get] then gives the value set, the other keys keep their
    values, and the key keeps its place among [keys()] or is added last;
    [keys(prefix)], for a prefix that is not empty, gives the keys of
    [keys()] that start with the prefix, each as often and in the order
    [keys()] gives them, and [keys("")] gives [keys()]. *)
Theorem stateStore_set_get (key : jsstring) (val : value) (st : JsMap.t value) :
  (isBlank key = true →
   StateStore.get key st = Throw TypeError BAD_KEY
   ∧ StateStore.set key val st = (Throw TypeError BAD_KEY, st)
   ∧ ∀ partial h, StateStore.patch key partial h st = (Throw TypeError BAD_KEY, h, st))
  ∧ (isBlank key = false →
     (StateStore.set key val st).1 = Ok tt
     ∧ StateStore.get key (StateStore.set key val st).2 = Ok val
     ∧ (∀ other, other ≠ key →
                 StateStore.get other (StateStore.set key val st).2
                 = StateStore.get other st)
     ∧ StateStore.keys None (StateStore.set key val st).2
       = if JsMap.has key st then StateStore.keys None st
         else StateStore.keys None st ++ [key])
  ∧ (∀ prefix, prefix ≠ [] →
       StateStore.keys (Some prefix) st
       = filter (λ k, prefix `prefix_of` k) (StateStore.keys None st))
  ∧ StateStore.keys (Some []) st = StateStore.keys None st
  ∧ StateStore.keys None st = st.*1.
Proof.
  split; [|split; [|split; [|done]]].
  - intros Hb. unfold StateStore.get, StateStore.set, StateStore.patch.
    by rewrite Hb.
  - intros Hb. unfold StateStore.get, StateStore.set, StateStore.keys, stored.
    rewrite Hb. cbn [fst snd].
    split; [done|]. split; [by rewrite get_set_eq|].
    split; [|apply keys_set].
    intros other Hne. destruct (isBlank other); [done|].
    by rewrite get_set_ne.
  - intros prefix Hp. unfold StateStore.keys.
    destruct prefix as [|c prefix]; [done|]. cbn [length Nat.eqb].
    apply filter_startsWith.
Qed.

Lemma stateStore_set_get_witness :
  (StateStore.set (js "lamp-1") VNull []).1 = Ok tt
  ∧ StateStore.get (js "lamp-1") (StateStore.set (js "lamp-1") VNull []).2 = Ok VNull
  ∧ (∀ other, other ≠ js "lamp-1" →
              StateStore.get other (StateStore.set (js "lamp-1") VNull []).2
              = StateStore.get other [])
  ∧ StateStore.keys None (StateStore.set (js "lamp-1") VNull []).2
    = if JsMap.has (js "lamp-1") ([] : JsMap.t value) then StateStore.keys None []
      else StateStore.keys None [] ++ [js "lamp-1"].
Proof.
  apply (stateStore_set_get (js "lamp-1") VNull []). reflexivity.
Defined.

(** The keys [lamp-2], [fan-1], [lamp-1], asked for with the prefix
    [lamp]. *)
Lemma stateStore_keys_prefix :
  StateStore.keys (Some (js "lamp"))
    [(js "lamp-2", VNull); (js "fan-1", VNull); (js "lamp-1", VNull)]
  = [js "lamp-2"; js "lamp-1"].
Proof. by vm_compute. Qed.




(** A patch with an own key [__proto__], as [JSON.parse] makes it, over
    the state [{a: 1}] stored for [lamp-1]: the new state has the
    properties [a] and [b] and the object of the patch as prototype. *)
Lemma patch_proto_key :
  ∃ h',
    StateStore.patch (js "lamp-1") (VRef 1) protoHeap [(js "lamp-1", VRef 0)]
    = (Ok (VRef 3), h', [(js "lamp-1", VRef 3)])
    ∧ h' !! 3
      = Some {| okind := Plain; proto := ProtoRef 2;
                props := <[js "a" := VNum (of_nat 1)]>
                           (<[js "b" := VNum (of_nat 2)]> ∅) |}.
Proof. eexists. split; by vm_compute. Qed.





(** The first write of the test, evaluated: the new state is at the
    address 2, after the empty object the store starts from. *)
Lemma applyStatePatch_first_write :
  (applyStatePatch (js "lamp-1") (VRef 0) samplePatchHeap []).1
  = (Ok (VRef 2),
     <[2 := samplePowerPatch]>
       (<[1 := {| okind := Plain; proto := ProtoInitial; props := ∅ |}]> samplePatchHeap)).
Proof. by vm_compute. Qed.



End StateStoreProps.

Module MqttSessionsProps.
Import MqttClient MqttSessions JsMapProps JsMapMoreProps.

Section MapFacts.
Context {V : Type}.
Implicit Types (m : JsMap.t V) (k : jsstring) (v : V).

Lemma get_elem k v m : JsMap.get k m = Some v → (k, v) ∈ m.
Proof.
  induction m as [|[k0 v0] m IH]; simpl; [done|].
  destruct (decide (k0 = k)) as [->|Hne].
  - intros [= ->]. by apply elem_of_cons; left.
  - intros Hget. apply elem_of_cons; right. by apply IH.
Qed.

Lemma elem_get k v m : NoDup (JsMap.keys m) → (k, v) ∈ m → JsMap.get k m = Some v.
Proof.
  induction m as [|[k0 v0] m IH]; intros Hnd Hin.
  - by apply elem_of_nil in Hin.
  - unfold JsMap.keys in Hnd. rewrite fmap_cons in Hnd.
    apply NoDup_cons in Hnd as [Hfresh Hnd]. simpl.
    apply elem_of_cons in Hin as [[= -> ->]|Hin]; [by rewrite decide_True|].
    rewrite decide_False; [by apply IH|].
    intros ->. apply Hfresh. apply list_elem_of_fmap. by exists (k, v).
Qed.

End MapFacts.

Lemma dispatch_calls topic st :
  dispatch topic st
  = {| subscriptions := st.(subscriptions); current := st.(current);
       natives := st.(natives);
       calls := st.(calls) ++ (NHandler <$> handlersFor topic st.(subscriptions)) |}.
Proof.
  unfold dispatch, handlersFor.
  assert (∀ subs acc,
            foldl (λ acc '(pattern, handler),
                     if matchTopic pattern topic then logCall (NHandler handler) acc
                     else acc) acc subs
            = {| subscriptions := acc.(subscriptions); current := acc.(current);
                 natives := acc.(natives);
                 calls := acc.(calls)
                          ++ (NHandler <$> (List.filter (λ ph, matchTopic ph.1 topic) subs).*2) |})
    as Hfold.
  { induction subs as [|[pattern handler] subs IH]; intros acc; simpl.
    - rewrite app_nil_r. by destruct acc.
    - rewrite IH. destruct (matchTopic pattern topic); simpl; [|done].
      by rewrite <- (assoc_L (++)). }
  apply Hfold.
Qed.

Lemma restoreSubscriptions_sound c st : sound st → sound (restoreSubscriptions c st).
Proof. unfold restoreSubscriptions. by destruct (0 <? _). Qed.

Lemma updateNative_sound c f st :
  (∀ n, onMessage (f n) = onMessage n) → sound st → sound (updateNative c f st).
Proof.
  intros Hf [Hn Hs]. split; [|done]. unfold updateNative. simpl.
  apply Forall_alter; [done|]. intros n _ Hm. by rewrite Hf.
Qed.

Lemma step_sound st a : sound st → sound (step st a).
Proof.
  intros Hst. destruct a as [throws|topic handler|topic handler err|topic| |err|c ev]; simpl.
  - unfold connect. destruct (isConnected st); [done|]. destruct throws; [done|].
    destruct Hst as [Hn Hs]. split; [|done]. simpl.
    apply Forall_app. split; [done|]. by constructor.
  - unfold subscribe. destruct (current st); [|done].
    destruct (negb _); [done|]. by destruct (isBlank topic).
  - unfold subscribeCallback. destruct err; [done|].
    destruct Hst as [Hn Hs]. split; [done|]. simpl. by apply NoDup_keys_set.
  - unfold publish. destruct (current st); [|done].
    destruct (negb _); [done|]. by destruct (isBlank topic).
  - unfold disconnect. by destruct (current st).
  - unfold endCallback. destruct err; [done|].
    destruct Hst as [Hn Hs]. split; [done|]. apply NoDup_nil_2.
  - unfold emitEvent. destruct (natives st !! c) as [n|]; [|done].
    destruct ev as [| | |topic|].
    + destruct (onceConnect n).
      * apply (restoreSubscriptions_sound c (updateNative c _ st)).
        by apply updateNative_sound.
      * by apply updateNative_sound.
    + destruct (onReconnect n); [|done]. by apply restoreSubscriptions_sound.
    + destruct (onceError n); [|done].
      apply (updateNative_sound c _ st); done.
    + destruct (onMessage n); [|done]. by rewrite dispatch_calls.
    + by apply updateNative_sound.
Qed.

Lemma reached_sound actions : sound (reached actions).
Proof.
  unfold reached, run.
  assert (∀ st, sound st → sound (foldl step st actions)) as Hrun.
  { induction actions as [|a actions IH]; intros st Hst; simpl; [done|].
    by apply IH, step_sound. }
  apply Hrun. split; [constructor|apply NoDup_nil_2].
Qed.

(** X22. In any state the client can reach, a [message] event of a native
    client that [connect] has created calls the handler of every pattern
    of the subscription table that matches the topic, once each and in the
    order of the table, and changes nothing else; the table holds no
    pattern twice, so the handlers called are exactly those the table
    gives for a matching pattern. *)
Theorem message_dispatch (actions : list action) (c : nat) (topic : jsstring)
    (st : client) :
  st = reached actions →
  created c st →
  emitEvent c (TMessage topic) st
  = {| subscriptions := st.(subscriptions); current := st.(current);
       natives := st.(natives);
       calls := st.(calls) ++ (NHandler <$> handlersFor topic st.(subscriptions)) |}
  ∧ NoDup (JsMap.keys st.(subscriptions))
  ∧ (∀ handler,
       handler ∈ handlersFor topic st.(subscriptions)
       ↔ ∃ pattern, JsMap.get pattern st.(subscriptions) = Some handler
                    ∧ matchTopic pattern topic = true).
Proof.
  intros -> Hc. destruct (reached_sound actions) as [Hn Hs].
  set (st := reached actions) in *.
  split; [|split; [done|]].
  - unfold emitEvent, created in *.
    destruct (lookup_lt_is_Some_2 _ _ Hc) as [n Hlookup]. rewrite Hlookup.
    rewrite (Forall_lookup_1 _ _ _ _ Hn Hlookup). apply dispatch_calls.
  - intros handler. unfold handlersFor. rewrite list_elem_of_fmap. split.
    + intros ([pattern h'] & -> & Hin). simpl.
      apply list_elem_of_In, filter_In in Hin as [Hin Hm].
      exists pattern. split; [|done]. apply elem_get; [done|].
      by apply list_elem_of_In.
    + intros (pattern & Hget & Hm). exists (pattern, handler). split; [done|].
      apply list_elem_of_In, filter_In. split; [|done].
      by apply list_elem_of_In, get_elem.
Qed.

(** Two subscriptions, and a message on [devices/lamp-1/state]. *)
Lemma message_dispatch_witness :
  emitEvent 0 (TMessage (js "devices/lamp-1/state")) (reached sampleSession)
  = {| subscriptions := (reached sampleSession).(subscriptions);
       current := (reached sampleSession).(current);
       natives := (reached sampleSession).(natives);
       calls := (reached sampleSession).(calls)
                ++ (NHandler <$> handlersFor (js "devices/lamp-1/state")
                                   (reached sampleSession).(subscriptions)) |}
  ∧ NoDup (JsMap.keys (reached sampleSession).(subscriptions))
  ∧ (∀ handler,
       handler ∈ handlersFor (js "devices/lamp-1/state")
                   (reached sampleSession).(subscriptions)
       ↔ ∃ pattern, JsMap.get pattern (reached sampleSession).(subscriptions) = Some handler
                    ∧ matchTopic pattern (js "devices/lamp-1/state") = true).
Proof.
  apply (message_dispatch sampleSession 0 (js "devices/lamp-1/state")
           (reached sampleSession)).
  - reflexivity.
  - unfold created. vm_compute. lia.
Defined.

Lemma emit_silent c ev st :
  silent st →
  silent (emitEvent c ev st)
  ∧ ∃ settled, calls (emitEvent c ev st) = calls st ++ settled
               ∧ Forall (λ call, isSettlement call = true) settled.
Proof.
  intros [Hs Hc]. unfold emitEvent.
  destruct (natives st !! c) as [n|]; [|split; [done|exists []; by rewrite app_nil_r]].
  assert (∀ st0, subscriptions st0 = [] → restoreSubscriptions c st0 = st0) as Hrestore.
  { intros st0 H0. unfold restoreSubscriptions. by rewrite H0. }
  destruct ev as [| | |topic|].
  - rewrite Hrestore by done. destruct (onceConnect n).
    + split; [done|]. exists [NResolve c]. split; [done|]. by repeat constructor.
    + split; [done|]. exists []. by rewrite app_nil_r.
  - rewrite Hrestore by done. split; [by destruct (onReconnect n)|].
    exists []. rewrite app_nil_r. split; [by destruct (onReconnect n)|done].
  - destruct (onceError n).
    + split; [done|]. exists [NReject c]. split; [done|]. by repeat constructor.
    + split; [done|]. exists []. by rewrite app_nil_r.
  - rewrite dispatch_calls, Hs. unfold handlersFor. simpl. rewrite app_nil_r.
    assert ({| subscriptions := []; current := current st; natives := natives st;
               calls := calls st |} = st) as -> by (destruct st; simpl in *; by subst).
    split; [by destruct (onMessage n)|]. exists []. rewrite app_nil_r.
    split; [by destruct (onMessage n)|done].
  - split; [done|]. exists []. by rewrite app_nil_r.
Qed.

Lemma emitAll_silent events st :
  silent st →
  silent (emitAll events st)
  ∧ ∃ settled, calls (emitAll events st) = calls st ++ settled
               ∧ Forall (λ call, isSettlement call = true) settled.
Proof.
  unfold emitAll, run. revert st.
  induction events as [|[c ev] events IH]; intros st Hst.
  - split; [done|]. exists []. simpl. by rewrite app_nil_r.
  - rewrite fmap_cons. cbn [foldl step fst snd].
    destruct (emit_silent c ev st Hst) as (Hst1 & s1 & Hc1 & Hf1).
    destruct (IH _ Hst1) as (Hst2 & s2 & Hc2 & Hf2).
    split; [done|]. exists (s1 ++ s2). split.
    + by rewrite Hc2, Hc1, <- (assoc_L (++)).
    + by apply Forall_app.
Qed.

(** X23. Once a [disconnect] has gone through, the subscription table is
    empty and the client holds no native client; whatever events the
    transports of the old native clients emit afterwards, no handler is
    called and no subscription is sent again (the wrapper at most settles
    the promise of an earlier [connect]), [publish] and [subscribe] throw
    the not-connected Error, also for a blank topic, and a further
    [disconnect] returns without any call. *)
Theorem disconnect_silences (st : client) (events : list (nat * transportEvent)) :
  subscriptions (disconnected st) = []
  ∧ current (disconnected st) = None
  ∧ subscriptions (emitAll events (disconnected st)) = []
  ∧ (∃ settled,
       calls (emitAll events (disconnected st)) = calls st ++ settled
       ∧ Forall (λ call, isSettlement call = true) settled)
  ∧ (∀ topic,
       publish topic (emitAll events (disconnected st))
       = (Throw PlainError "MQTT client is not connected",
          emitAll events (disconnected st)))
  ∧ (∀ topic handler,
       subscribe topic handler (emitAll events (disconnected st))
       = (Throw PlainError "MQTT client is not connected",
          emitAll events (disconnected st)))
  ∧ disconnect (emitAll events (disconnected st))
    = (Ok tt, emitAll events (disconnected st)).
Proof.
  assert (silent (disconnected st)) as Hd by done.
  destruct (emitAll_silent events _ Hd) as ([Hs Hc] & settled & Hcalls & Hf).
  split; [done|]. split; [done|]. split; [done|].
  split; [by exists settled|].
  unfold publish, subscribe, disconnect. by rewrite Hc.
Qed.

End MqttSessionsProps.

Module DeviceResourcesProps.
Import DeviceManager DeviceResources.

Lemma findByUri_found uri devices d :
  findByUri uri devices = Ok (Some d)
  ↔ ∃ before after,
      devices = before ++ d :: after ∧ uriOf d = Ok uri
      ∧ Forall (passedOver uri) before.
Proof.
  induction devices as [|d0 devices IH]; simpl.
  - split; [done|]. intros (before & after & Heq & _). by destruct before.
  - destruct (uriOf d0) as [u|c msg] eqn:Hu; simpl.
    + unfold str_eqb. case_bool_decide as Heq.
      * subst u. split.
        -- intros [= <-]. exists [], devices. by repeat split.
        -- intros (before & after & Hl & Hd & Hb).
           destruct before as [|b before]; simpl in Hl.
           ++ by injection Hl as <- _.
           ++ injection Hl as <- _. apply Forall_cons in Hb as [(u' & Hu' & Hne) _].
              congruence.
      * rewrite IH. split.
        -- intros (before & after & -> & Hd & Hb).
           exists (d0 :: before), after. split; [done|]. split; [done|].
           apply Forall_cons. split; [by exists u|done].
        -- intros (before & after & Hl & Hd & Hb).
           destruct before as [|b before]; simpl in Hl.
           ++ injection Hl as -> _. congruence.
           ++ injection Hl as <- ->. apply Forall_cons in Hb as [_ Hb].
              by exists before, after.
    + split; [done|]. intros (before & after & Hl & Hd & Hb).
      destruct before as [|b before]; simpl in Hl.
      * injection Hl as -> _. congruence.
      * injection Hl as <- _. apply Forall_cons in Hb as [(u' & Hu' & _) _].
        congruence.
Qed.

Lemma findByUri_none uri devices :
  findByUri uri devices = Ok None ↔ Forall (passedOver uri) devices.
Proof.
  induction devices as [|d0 devices IH]; simpl; [done|].
  rewrite Forall_cons. unfold passedOver at 1.
  destruct (uriOf d0) as [u|c msg] eqn:Hu; simpl.
  - unfold str_eqb. case_bool_decide as Heq.
    + split; [done|]. intros [(u' & [= <-] & Hne) _]. done.
    + rewrite IH. split; [intros ?; split; [by exists u|done]|by intros [_ ?]].
  - split; [done|]. by intros [(u' & ? & _) _].
Qed.

(** X24. [readDeviceResource] searches the devices in the order
    [listDevices] gives them: it finds a device exactly when that device
    has the URI asked for and the URI of every device before it could be
    built and is another one; it finds none exactly when that holds of
    all devices. So of two devices with the same URI the later one is
    never found, and a device before the match whose location or name
    is refused makes the call fail. *)
Theorem readDeviceResource_first_match (uri : jsstring) (ds : JsMap.t DeviceMetadata) :
  (∀ d, readDeviceResource uri ds = Ok (Some d)
        ↔ ∃ before after,
            listDevices ds = before ++ d :: after ∧ uriOf d = Ok uri
            ∧ Forall (passedOver uri) before)
  ∧ (readDeviceResource uri ds = Ok None ↔ Forall (passedOver uri) (listDevices ds))
  ∧ (∀ before first after d,
       listDevices ds = before ++ first :: after →
       uriOf first = Ok uri → d ∈ after → d ∉ before → d ≠ first →
       readDeviceResource uri ds ≠ Ok (Some d))
  ∧ (∀ before bad after c msg,
       listDevices ds = before ++ bad :: after →
       Forall (passedOver uri) before → uriOf bad = Throw c msg →
       readDeviceResource uri ds = Throw c msg).
Proof.
  unfold readDeviceResource.
  split; [intros d; apply findByUri_found|].
  split; [apply findByUri_none|]. split.
  - intros before first after d Hl Hfirst Hafter Hbefore Hne Hfound.
    apply findByUri_found in Hfound as (before' & after' & Hl' & Hd & Hb').
    rewrite Hl in Hl'. clear Hl.
    revert before' Hl' Hb'. induction before as [|b before IH]; intros before' Hl' Hb'.
    + destruct before' as [|b' before']; simpl in Hl'.
      * injection Hl' as -> _. done.
      * injection Hl' as <- _. apply Forall_cons in Hb' as [(u & Hu & Hneq) _].
        congruence.
    + destruct before' as [|b' before']; simpl in Hl'.
      * injection Hl' as -> _. apply Hbefore. by apply elem_of_cons; left.
      * injection Hl' as <- Hl'. apply Forall_cons in Hb' as [_ Hb'].
        apply (IH (λ Hin, Hbefore (proj2 (elem_of_cons _ _ _) (or_intror Hin)))
                 before' Hl' Hb').
  - intros before bad after c msg -> Hb Hbad.
    induction Hb as [|b before (u & Hu & Hne) Hb IH]; simpl.
    + by rewrite Hbad.
    + rewrite Hu. simpl. unfold str_eqb. by rewrite bool_decide_eq_false_2.
Qed.

(** [Living Room / Main Light] and [living-room / main light] share a
    URI; the second device is not found. *)
Lemma readDeviceResource_first_match_witness :
  readDeviceResource (js "iot://home/living-room/main-light/state") sampleDirectory
  ≠ Ok (Some (lampIn "lamp-2" "living-room" "main light")).
Proof.
  destruct (readDeviceResource_first_match
              (js "iot://home/living-room/main-light/state") sampleDirectory)
    as (_ & _ & Hshadow & _).
  apply (Hshadow [] (lampIn "lamp-1" "Living Room" "Main Light")
           [lampIn "lamp-2" "living-room" "main light"]).
  - reflexivity.
  - vm_compute. reflexivity.
  - by apply list_elem_of_singleton.
  - apply not_elem_of_nil.
  - discriminate.
Defined.

End DeviceResourcesProps.

Module CommandValidatorProps.
Import CommandValidator.

Lemma bind_ok {A B : Type} (r : result A) (k : A → result B) (v : B) :
  (x <- r ;;; k x) = Ok v ↔ ∃ x, r = Ok x ∧ k x = Ok v.
Proof.
  destruct r as [x|c msg]; simpl.
  - split; [by exists x|]. by intros (x' & [= <-] & ?).
  - split; [done|]. by intros (x' & ? & _).
Qed.

Lemma guarded_ok (b : bool) (r : result unit) (P : Prop) :
  (r = Ok tt ↔ P) → ((if b then r else Ok tt) = Ok tt ↔ (b = true → P)).
Proof. intros Hr. destruct b; [|done]. rewrite Hr. split; [done|]. by intros H; apply H. Qed.

Lemma assert_good name v :
  (∃ t, assertNonEmptyStringOf name v = Ok t) ↔ goodDeviceId v.
Proof.
  unfold assertNonEmptyStringOf, goodDeviceId, Utils.assertNonEmptyString, isBlank.
  destruct v as [| |b|x|s|l];
    try (split; [by intros [t ?]|by intros (s & ? & _)]).
  destruct s as [|c s].
  { split; [by intros [t ?]|]. by intros (s & [= <-] & ? & _). }
  cbn [length Nat.eqb].
  destruct (length (trim (c :: s)) =? 0) eqn:Hb.
  { split; [by intros [t ?]|]. intros (s' & [= <-] & ? & _). congruence. }
  destruct (Utils.DEFAULT_MAX_STRING_LENGTH <? length (trim (c :: s))) eqn:Hlen.
  - apply Nat.ltb_lt in Hlen. split; [by intros [t ?]|].
    intros (s' & [= <-] & _ & Hle). lia.
  - apply Nat.ltb_ge in Hlen. split; [|by eexists].
    intros _. exists (c :: s). done.
Qed.

Lemma assert_throws name v c msg :
  assertNonEmptyStringOf name v = Throw c msg → c = TypeError ∨ c = RangeError.
Proof.
  unfold assertNonEmptyStringOf, Utils.assertNonEmptyString.
  destruct v as [| |b|x|s|l]; try (intros [= <- _]; by left).
  destruct (length s =? 0); [intros [= <- _]; by left|].
  destruct (length (trim s) =? 0); [intros [= <- _]; by left|].
  destruct (_ <? _); [intros [= <- _]; by right|done].
Qed.

Lemma range_ok lo hi v msg :
  (if outOfRange lo hi v then Throw RangeError msg else Ok tt) = Ok tt ↔ within lo hi v.
Proof.
  unfold within. destruct v as [| |b|x|s|l]; simpl;
    try (split; [done|by intros (n & ? & _)]).
  destruct (num_lt x lo) eqn:Hlo; simpl.
  - split; [done|]. intros (n & [= <-] & ? & _). congruence.
  - destruct (num_lt hi x) eqn:Hhi.
    + split; [done|]. intros (n & [= <-] & _ & ?). congruence.
    + split; [|done]. intros _. by exists x.
Qed.

Lemma brightness_ok v :
  validateBrightness v = Ok tt ↔ within BRIGHTNESS_MIN BRIGHTNESS_MAX v.
Proof. apply range_ok. Qed.

Lemma colorTemp_ok v :
  validateColorTemp v = Ok tt ↔ within COLOR_TEMP_MIN COLOR_TEMP_MAX v.
Proof. apply range_ok. Qed.

Lemma power_ok v :
  validatePower v = Ok tt ↔ ∃ s, v = VStr s ∧ s ∈ VALID_POWER_VALUES.
Proof.
  unfold validatePower. destruct v as [| |b|x|s|l];
    try (split; [done|by intros (s & ? & _)]).
  case_bool_decide as Hin.
  - split; [|done]. intros _. by exists s.
  - split; [done|]. by intros (s' & [= <-] & ?).
Qed.

(** X25. [validateCommand] accepts a command exactly when its [deviceId]
    is a string that is not blank and has at most 256 units once trimmed,
    and each of [brightness], [colorTemp] and [power] that is a key of the
    command and whose capability is listed passes its check: a number not
    below and not above the bounds, or one of the four power words. A
    key that is absent, or whose capability is not listed, is not looked
    at. The range checks let through, besides the numbers within the
    bounds, [NaN], which is neither below nor above any bound. What the
    function throws is a TypeError or a RangeError, a TypeError only for
    the device id. *)
Theorem validateCommand_accepts (h : heap) (cmd : loc) (capabilities : list jsstring) :
  (validateCommand h cmd capabilities = Ok tt
   ↔ goodDeviceId (getProp h cmd (js "deviceId"))
     ∧ (checked h cmd (js "brightness") (js "brightness") capabilities = true →
        within BRIGHTNESS_MIN BRIGHTNESS_MAX (getProp h cmd (js "brightness")))
     ∧ (checked h cmd (js "colorTemp") (js "color_temp") capabilities = true →
        within COLOR_TEMP_MIN COLOR_TEMP_MAX (getProp h cmd (js "colorTemp")))
     ∧ (checked h cmd (js "power") (js "power") capabilities = true →
        ∃ s, getProp h cmd (js "power") = VStr s ∧ s ∈ VALID_POWER_VALUES))
  ∧ (∀ c msg, validateCommand h cmd capabilities = Throw c msg →
              c = RangeError
              ∨ (c = TypeError ∧ ¬ goodDeviceId (getProp h cmd (js "deviceId"))))
  ∧ (∀ lo hi n,
       within (of_nat lo) (of_nat hi) (VNum n)
       ↔ n = NaN
         ∨ ∃ q, n = Finite q
                ∧ (inject_Z (Z.of_nat lo) <= q)%Q ∧ (q <= inject_Z (Z.of_nat hi))%Q).
Proof.
  split; [|split].
  - unfold validateCommand. rewrite bind_ok. split.
    + intros (t & Hid & Hrest). apply bind_ok in Hrest as ([] & Hb & Hrest).
      apply bind_ok in Hrest as ([] & Hc & Hp).
      split; [apply (assert_good "deviceId"); by exists t|].
      split; [by apply (guarded_ok _ _ _ (brightness_ok _))|].
      split; [by apply (guarded_ok _ _ _ (colorTemp_ok _))|].
      by apply (guarded_ok _ _ _ (power_ok _)).
    + intros (Hid & Hb & Hc & Hp).
      apply (assert_good "deviceId") in Hid as [t Hid]. exists t. split; [done|].
      apply bind_ok. exists tt.
      split; [by apply (guarded_ok _ _ _ (brightness_ok _))|].
      apply bind_ok. exists tt.
      split; [by apply (guarded_ok _ _ _ (colorTemp_ok _))|].
      by apply (guarded_ok _ _ _ (power_ok _)).
  - intros c msg. unfold validateCommand.
    destruct (assertNonEmptyStringOf "deviceId" (getProp h cmd (js "deviceId")))
      as [t|c0 msg0] eqn:Hid; simpl.
    + intros Hthrow. left. revert Hthrow.
      unfold validateBrightness, validateColorTemp, validatePower.
      repeat match goal with
             | |- context [if ?b then _ else _] => destruct b; simpl
             | |- context [match ?v with VUndefined => _ | _ => _ end] => destruct v; simpl
             end; congruence.
    + intros [= <- <-]. destruct (assert_throws _ _ _ _ Hid) as [->| ->]; [|by left].
      right. split; [done|]. intros Hgood.
      apply (assert_good "deviceId") in Hgood as [t Ht]. congruence.
  - intros lo hi n. unfold within. split.
    + intros (n' & [= <-] & Hlo & Hhi). destruct n as [q| | |]; try done.
      * right. exists q. split; [done|]. unfold num_lt, of_nat in *.
        apply negb_false_iff in Hlo, Hhi. by rewrite !Qle_bool_iff in Hlo, Hhi.
      * by left.
    + intros [->|(q & -> & Hlo & Hhi)].
      * by exists NaN.
      * exists (Finite q). split; [done|]. unfold num_lt, of_nat.
        split; apply negb_false_iff, Qle_bool_iff; done.
Qed.

End CommandValidatorProps.

Module StateEmitterProps.
Import StateEmitter.

Lemma add_elem cb x s : x ∈ add cb s ↔ x = cb ∨ x ∈ s.
Proof.
  unfold add. case_bool_decide as Hin.
  - split; [by right|]. by intros [->|?].
  - rewrite elem_of_app, list_elem_of_singleton. split; intros [?|?]; auto.
Qed.

Lemma add_NoDup cb s : NoDup s → NoDup (add cb s).
Proof.
  intros Hs. unfold add. case_bool_decide as Hin; [done|].
  apply NoDup_app. split; [done|]. split; [|apply NoDup_singleton].
  intros x Hx ->%list_elem_of_singleton. done.
Qed.

Lemma subscribeAll_set cbs e :
  NoDup e.(subscribers) →
  NoDup (subscribeAll cbs e).(subscribers)
  ∧ (∀ x, x ∈ (subscribeAll cbs e).(subscribers) ↔ x ∈ cbs ∨ x ∈ e.(subscribers))
  ∧ (subscribeAll cbs e).(emissions) = e.(emissions).
Proof.
  unfold subscribeAll. revert e. induction cbs as [|cb cbs IH]; intros e He; simpl.
  - split; [done|]. split; [|done]. intros x. split; [by right|].
    intros [Hin|?]; [by apply elem_of_nil in Hin|done].
  - destruct (IH (onDeviceStateChange cb e)) as (Hnd & Hin & Hem);
      [by apply add_NoDup|].
    split; [done|]. split; [|done]. intros x. rewrite Hin. simpl.
    rewrite add_elem, elem_of_cons. tauto.
Qed.

Lemma elem_concat {A : Type} (x : A) (ls : list (list A)) :
  x ∈ concat ls ↔ ∃ l, x ∈ l ∧ l ∈ ls.
Proof.
  induction ls as [|l0 ls IH]; simpl.
  - split; [by intros ?%elem_of_nil|]. by intros (l & _ & ?%elem_of_nil).
  - rewrite elem_of_app, IH. split.
    + intros [Hx|(l & Hx & Hl)].
      * exists l0. split; [done|by apply elem_of_cons; left].
      * exists l. split; [done|by apply elem_of_cons; right].
    + intros (l & Hx & [->|Hl]%elem_of_cons); [by left|right; by exists l].
Qed.

Lemma callsTo_app cb l1 l2 : callsTo cb (l1 ++ l2) = callsTo cb l1 + callsTo cb l2.
Proof. unfold callsTo. by rewrite List.filter_app, length_app. Qed.

Lemma callsTo_notified throws deviceId state cb s :
  NoDup s →
  callsTo cb (concat (notify throws deviceId state <$> s))
  = if bool_decide (cb ∈ s) then 1 else 0.
Proof.
  induction s as [|c s IH]; intros Hnd.
  - rewrite bool_decide_eq_false_2; [done|apply not_elem_of_nil].
  - apply NoDup_cons in Hnd as [Hc Hnd]. rewrite fmap_cons. cbn [concat].
    rewrite callsTo_app, IH by done.
    assert (callsTo cb (notify throws deviceId state c)
            = if bool_decide (c = cb) then 1 else 0) as ->.
    { unfold callsTo, notify. simpl.
      destruct (bool_decide (c = cb)), (throws c); done. }
    destruct (decide (c = cb)) as [->|Hne].
    + rewrite (bool_decide_eq_true_2 (cb = cb)) by done.
      rewrite (bool_decide_eq_false_2 (cb ∈ s)) by done.
      rewrite bool_decide_eq_true_2; [done|by apply elem_of_cons; left].
    + rewrite (bool_decide_eq_false_2 (c = cb)) by done.
      destruct (decide (cb ∈ s)) as [Hin|Hin].
      * rewrite (bool_decide_eq_true_2 (cb ∈ s)) by done.
        rewrite bool_decide_eq_true_2; [done|by apply elem_of_cons; right].
      * rewrite (bool_decide_eq_false_2 (cb ∈ s)) by done.
        rewrite bool_decide_eq_false_2; [done|].
        intros [->|?]%elem_of_cons; done.
Qed.

(** X26. The state emitter keeps its subscribers as a set: on an emitter
    that has taken the callbacks [cbs], in any order and with any
    repetitions, [emitState] with a device id that is not blank returns
    normally and calls each callback of [cbs] exactly once, and no other,
    with the id and the state given, whether or not some callbacks throw;
    what a callback throws is logged and the callbacks after it are still
    called. With a blank id it throws a TypeError and calls nothing. *)
Theorem emitState_notifies (throws : nat → bool) (cbs : list nat)
    (deviceId : jsstring) (state : value) :
  (isBlank deviceId = true →
   ∃ msg, emitState throws deviceId state (subscribeAll cbs createStateEmitter)
          = (Throw TypeError msg, subscribeAll cbs createStateEmitter))
  ∧ (isBlank deviceId = false →
     ∃ e',
       emitState throws deviceId state (subscribeAll cbs createStateEmitter) = (Ok tt, e')
       ∧ e'.(subscribers) = (subscribeAll cbs createStateEmitter).(subscribers)
       ∧ (∀ cb, callsTo cb e'.(emissions) = if bool_decide (cb ∈ cbs) then 1 else 0)
       ∧ (∀ cb id st, Called cb id st ∈ e'.(emissions) →
                      cb ∈ cbs ∧ id = deviceId ∧ st = state)
       ∧ (∀ cb, Logged cb ∈ e'.(emissions) ↔ cb ∈ cbs ∧ throws cb = true)).
Proof.
  destruct (subscribeAll_set cbs createStateEmitter) as (Hnd & Hin & Hem);
    [apply NoDup_nil_2|].
  assert (∀ x, x ∈ (subscribeAll cbs createStateEmitter).(subscribers) ↔ x ∈ cbs) as Hin'.
  { intros x. rewrite Hin. split; [|by left].
    intros [?|Hx]; [done|by apply elem_of_nil in Hx]. }
  unfold emitState. split.
  - intros ->. by eexists.
  - intros ->. eexists. split; [done|]. cbn [subscribers emissions].
    rewrite Hem. cbn [createStateEmitter emissions app].
    set (subs := (subscribeAll cbs createStateEmitter).(subscribers)) in *.
    split; [done|]. split; [|split].
    + intros cb. rewrite callsTo_notified by done.
      destruct (decide (cb ∈ cbs)) as [Hc|Hc].
      * rewrite !bool_decide_eq_true_2; [done|done|by apply Hin'].
      * rewrite !bool_decide_eq_false_2; [done|done|]. intros ?. by apply Hc, Hin'.
    + intros cb id st Hcalled.
      apply elem_concat in Hcalled as (l & Hl & Hlin).
      apply list_elem_of_fmap in Hlin as (c & -> & Hc).
      unfold notify in Hl. apply elem_of_cons in Hl as [[= -> -> ->]|Hl].
      * split; [by apply Hin'|done].
      * destruct (throws c); [|by apply elem_of_nil in Hl].
        by apply list_elem_of_singleton in Hl.
    + intros cb. split.
      * intros Hlogged. apply elem_concat in Hlogged as (l & Hl & Hlin).
        apply list_elem_of_fmap in Hlin as (c & -> & Hc).
        unfold notify in Hl. apply elem_of_cons in Hl as [?|Hl]; [done|].
        destruct (throws c) eqn:Ht; [|by apply elem_of_nil in Hl].
        apply list_elem_of_singleton in Hl as [= ->]. split; [by apply Hin'|done].
      * intros [Hc Ht]. apply elem_concat.
        exists (notify throws deviceId state cb). split.
        -- unfold notify. rewrite Ht. apply elem_of_cons; right.
           by apply list_elem_of_singleton.
        -- apply list_elem_of_fmap. exists cb. split; [done|by apply Hin'].
Qed.

(** The callback 1 subscribed twice and the callback 2, which throws. *)
Lemma emitState_notifies_witness :
  ∃ e',
    emitState (λ cb, bool_decide (cb = 2)) (js "lamp-1") VNull
      (subscribeAll [1; 2; 1] createStateEmitter) = (Ok tt, e')
    ∧ e'.(subscribers) = (subscribeAll [1; 2; 1] createStateEmitter).(subscribers)
    ∧ (∀ cb, callsTo cb e'.(emissions) = if bool_decide (cb ∈ [1; 2; 1]) then 1 else 0)
    ∧ (∀ cb id st, Called cb id st ∈ e'.(emissions) →
                   cb ∈ [1; 2; 1] ∧ id = js "lamp-1" ∧ st = VNull)
    ∧ (∀ cb, Logged cb ∈ e'.(emissions)
             ↔ cb ∈ [1; 2; 1] ∧ (λ cb, bool_decide (cb = 2)) cb = true).
Proof.
  apply (emitState_notifies (λ cb, bool_decide (cb = 2)) [1; 2; 1] (js "lamp-1") VNull).
  reflexivity.
Defined.

End StateEmitterProps.

Module SecurityManagerProps.
Import SecurityManager JsMapProps.

Lemma num_le_nat m c : num_le (of_nat m) (of_nat c) = bool_decide (m ≤ c).
Proof.
  unfold num_le, of_nat. case_bool_decide as Hle.
  - apply Qle_bool_iff. rewrite <- Zle_Qle. lia.
  - apply not_true_iff_false. rewrite Qle_bool_iff, <- Zle_Qle. lia.
Qed.

Lemma num_lt_nat m c : num_lt (of_nat m) (of_nat c) = bool_decide (m < c).
Proof.
  unfold num_lt, of_nat. case_bool_decide as Hlt.
  - apply negb_true_iff, not_true_iff_false. rewrite Qle_bool_iff, <- Zle_Qle. lia.
  - apply negb_false_iff, Qle_bool_iff. rewrite <- Zle_Qle. lia.
Qed.

Lemma checkPermission_limited now device op m config limit :
  JsMap.get device m.(configs) = Some config →
  listsPermit config op →
  config.(rateLimiting) = Some limit →
  checkPermission now device op m = checkRateLimit now device limit m.
Proof.
  intros Hget [Hdenied Hallowed] Hlimit. unfold checkPermission. rewrite Hget, Hlimit.
  assert (match deniedOperations config with
          | Some denied => includes op denied
          | None => false
          end = false) as ->.
  { destruct (deniedOperations config) as [denied|]; [|done].
    apply bool_decide_eq_false_2. by apply Hdenied. }
  assert (match allowedOperations config with
          | Some allowed => (0 <? length allowed) && negb (includes op allowed)
          | None => false
          end = false) as ->; [|done].
  destruct (allowedOperations config) as [allowed|]; [|done].
  destruct (Hallowed allowed eq_refl) as [->|Hin]; [done|].
  unfold includes. rewrite bool_decide_eq_true_2 by done. apply andb_false_r.
Qed.

(** Within the window of a tracker that counts [c], the [k]-th further
    request is let through exactly when [c + k] is below the limit. *)
Lemma checkAll_window times device op m config limit c reset :
  JsMap.get device m.(configs) = Some config →
  listsPermit config op →
  config.(rateLimiting) = Some (of_nat limit) →
  JsMap.get device m.(rateLimitTrackers) = Some {| count := c; resetTime := reset |} →
  Forall (λ t, (t < reset)%Z) times →
  (checkAll times device op m).1
  = (λ k, if bool_decide (c + k < limit) then Allowed else Refused RateLimitExceeded)
      <$> seq 0 (length times).
Proof.
  intros Hget Hlists Hlimit. revert m c Hget.
  induction times as [|now times IH]; intros m c Hget Htracker Htimes; [done|].
  apply Forall_cons in Htimes as [Hnow Htimes].
  cbn [checkAll length seq]. rewrite fmap_cons.
  rewrite (checkPermission_limited now device op m config (of_nat limit)) by done.
  unfold checkRateLimit. rewrite Htracker. cbn [resetTime count].
  rewrite (proj2 (Z.leb_gt reset now)) by done.
  rewrite num_le_nat. rewrite <- fmap_S_seq, <- list_fmap_compose.
  case_bool_decide as Hfull.
  - specialize (IH m c Hget Htracker Htimes).
    destruct (checkAll times device op m) as [ps m2]. simpl in *.
    rewrite bool_decide_eq_false_2 by lia. f_equal. rewrite IH.
    apply list_fmap_ext. intros _ k _. simpl.
    by rewrite !bool_decide_eq_false_2 by lia.
  - set (m1 := withTrackers _ m).
    specialize (IH m1 (S c)). 
    destruct (checkAll times device op m1) as [ps m2]. simpl in *.
    rewrite bool_decide_eq_true_2 by lia. f_equal. rewrite IH; [|done| |done].
    + apply list_fmap_ext. intros _ k _. simpl.
      replace (c + S k) with (S (c + k)) by lia. done.
    + unfold m1, withTrackers. simpl. apply get_set_eq.
Qed.

(** X27. The rate limit of [checkPermission] counts in fixed windows. For
    a device whose configuration lets the operation through its lists and
    limits it to [limit] requests a minute, and that has no tracker yet: a
    request at time [t0] is let through and opens a window of 60000 ms;
    of the requests that follow before the window ends, the first
    [limit - 1] are let through and every later one is refused, so the
    window lets through [limit] requests, and one even when the limit is
    0. A request refused by the lists, and one for a device without
    configuration, leave the counters as they are. *)
Theorem rate_limit_window (t0 : Z) (times : list Z) (device op : jsstring)
    (m : manager) (config : DeviceSecurityConfig) (limit : nat) :
  JsMap.get device m.(configs) = Some config →
  listsPermit config op →
  config.(rateLimiting) = Some (of_nat limit) →
  JsMap.get device m.(rateLimitTrackers) = None →
  Forall (λ t, (t < t0 + RATE_LIMIT_WINDOW_MS)%Z) times →
  (checkAll (t0 :: times) device op m).1
  = Allowed
    :: ((λ k, if bool_decide (S k < limit) then Allowed else Refused RateLimitExceeded)
          <$> seq 0 (length times))
  ∧ length (List.filter isAllowed
              (checkAll (t0 :: times) device op m).1)
    = S (length times) `min` (limit `max` 1)
  ∧ (∀ now other, (checkPermission now device other m).1 ≠ Allowed →
                  (checkPermission now device other m).2 = m)
  ∧ (∀ now unknown anyOp, JsMap.get unknown m.(configs) = None →
                          checkPermission now unknown anyOp m = (Allowed, m)).
Proof.
  intros Hget Hlists Hlimit Hnone Htimes.
  assert ((checkAll (t0 :: times) device op m).1
          = Allowed
            :: ((λ k, if bool_decide (S k < limit) then Allowed
                      else Refused RateLimitExceeded) <$> seq 0 (length times))) as Hrun.
  { cbn [checkAll].
    rewrite (checkPermission_limited t0 device op m config (of_nat limit)) by done.
    unfold checkRateLimit. rewrite Hnone.
    set (m1 := withTrackers _ m).
    pose proof (checkAll_window times device op m1 config limit 1
                  (t0 + RATE_LIMIT_WINDOW_MS)%Z Hget Hlists Hlimit) as Hwin.
    destruct (checkAll times device op m1) as [ps m2]. simpl in *.
    f_equal. apply Hwin; [|done]. unfold m1, withTrackers. simpl. apply get_set_eq. }
  split; [done|]. split; [|split].
  - rewrite Hrun. cbn [List.filter isAllowed length].
    assert (∀ n, length (List.filter isAllowed
                           ((λ k, if bool_decide (S k < limit) then Allowed
                                  else Refused RateLimitExceeded) <$> seq 0 n))
                 = n `min` (limit - 1)) as Hcount.
    { induction n as [|n IHn]; [done|].
      rewrite seq_S, fmap_app, List.filter_app, length_app, IHn.
      cbn [fmap list_fmap List.filter Nat.add].
      destruct (decide (S n < limit)) as [Hk|Hk].
      - rewrite bool_decide_eq_true_2 by done. cbn [isAllowed length]. lia.
      - rewrite bool_decide_eq_false_2 by done. cbn [isAllowed length]. lia. }
    rewrite Hcount. lia.
  - intros now other Hrefused. unfold checkPermission in *. rewrite Hget in *.
    destruct (match deniedOperations config with
              | Some denied => includes other denied
              | None => false
              end); [done|].
    destruct (match allowedOperations config with
              | Some allowed => (0 <? length allowed) && negb (includes other allowed)
              | None => false
              end); [done|].
    rewrite Hlimit in *. unfold checkRateLimit in *. rewrite Hnone in *. done.
  - intros now unknown anyOp Hunknown. unfold checkPermission. by rewrite Hunknown.
Qed.

(** The door lock, limited to 10 requests a minute: 12 [status] requests
    within one window. *)
Lemma rate_limit_window_witness :
  (checkAll (0%Z :: replicate 11 1000%Z) (js "lock-1") (js "status")
     (configureDevice sampleLock (createSecurityManager None))).1
  = Allowed
    :: ((λ k, if bool_decide (S k < 10) then Allowed else Refused RateLimitExceeded)
          <$> seq 0 (length (replicate 11 1000%Z)))
  ∧ length (List.filter isAllowed
              (checkAll (0%Z :: replicate 11 1000%Z) (js "lock-1") (js "status")
                 (configureDevice sampleLock (createSecurityManager None))).1)
    = S (length (replicate 11 1000%Z)) `min` (10 `max` 1)
  ∧ (∀ now other,
       (checkPermission now (js "lock-1") other
          (configureDevice sampleLock (createSecurityManager None))).1 ≠ Allowed →
       (checkPermission now (js "lock-1") other
          (configureDevice sampleLock (createSecurityManager None))).2
       = configureDevice sampleLock (createSecurityManager None))
  ∧ (∀ now unknown anyOp,
       JsMap.get unknown (configureDevice sampleLock (createSecurityManager None)).(configs)
       = None →
       checkPermission now unknown anyOp
         (configureDevice sampleLock (createSecurityManager None))
       = (Allowed, configureDevice sampleLock (createSecurityManager None))).
Proof.
  apply (rate_limit_window 0 (replicate 11 1000%Z) (js "lock-1") (js "status")
           (configureDevice sampleLock (createSecurityManager None)) sampleLock 10).
  - reflexivity.
  - split.
    + intros denied [= <-]. vm_compute. intros Hin.
      repeat (apply elem_of_cons in Hin as [Hin|Hin]; [discriminate|]).
      by apply elem_of_nil in Hin.
    + intros allowed [= <-]. right. apply elem_of_cons; right.
      by apply elem_of_cons; left.
  - reflexivity.
  - reflexivity.
  - apply Forall_forall. intros t Ht. apply elem_of_replicate in Ht as [-> _].
    reflexivity.
Defined.

Lemma logAll_snoc entries entry m :
  logAll (entries ++ [entry]) m = logOperation entry (logAll entries m).
Proof. unfold logAll. by rewrite foldl_app. Qed.

Lemma logAll_other entries m :
  (logAll entries m).(configs) = m.(configs)
  ∧ (logAll entries m).(rateLimitTrackers) = m.(rateLimitTrackers)
  ∧ (logAll entries m).(maxAuditLogSize) = m.(maxAuditLogSize).
Proof.
  induction entries as [|entry entries IH] using rev_ind; [done|].
  rewrite logAll_snoc. by destruct IH as (? & ? & ?).
Qed.

Lemma tail_drop {A : Type} k (l : list A) : tail (drop k l) = drop (S k) l.
Proof.
  revert l. induction k as [|k IH]; intros l; [by destruct l|].
  destruct l as [|x l]; [done|]. apply IH.
Qed.

(** X28. The audit log is bounded and drops its oldest entries first: in
    a manager made with a bound [n] that is a whole number, after any
    entries have been logged the log holds the last [n] of them, in the
    order they were logged, so never more than [n]; with the bound 0 it
    stays empty. Logging changes neither the configurations nor the rate
    limit counters. *)
Theorem auditLog_keeps_last (n : nat) (entries : list AuditLogEntry) :
  (logAll entries (createSecurityManager (Some (of_nat n)))).(auditLog)
  = drop (length entries - n) entries
  ∧ length (logAll entries (createSecurityManager (Some (of_nat n)))).(auditLog)
    = length entries `min` n
  ∧ (∀ m, (logAll entries m).(configs) = m.(configs)
          ∧ (logAll entries m).(rateLimitTrackers) = m.(rateLimitTrackers)
          ∧ (logAll entries m).(maxAuditLogSize) = m.(maxAuditLogSize)).
Proof.
  assert ((logAll entries (createSecurityManager (Some (of_nat n)))).(auditLog)
          = drop (length entries - n) entries) as Hlog.
  { induction entries as [|entry entries IH] using rev_ind; [done|].
    rewrite logAll_snoc. unfold logOperation. cbn [auditLog].
    destruct (logAll_other entries (createSecurityManager (Some (of_nat n))))
      as (_ & _ & ->).
    rewrite IH. cbn [createSecurityManager maxAuditLogSize default from_option id].
    rewrite num_lt_nat, !length_app, length_drop. simpl.
    case_bool_decide as Hfull.
    - replace (length entries + 1 - n) with (S (length entries - n)) by lia.
      rewrite <- drop_app_le by lia. apply tail_drop.
    - assert (length entries - n = 0) as -> by lia.
      assert (length entries + 1 - n = 0) as -> by lia. done. }
  split; [done|]. split; [|intros m; apply logAll_other].
  rewrite Hlog, length_drop. lia.
Qed.

End SecurityManagerProps.

Module EmbeddedBrokerProps.
Import EmbeddedBroker DoubleFacts.

Lemma num_add_whole (b : Z) (k : nat) :
  (0 <= b)%Z → (portAt b k < 2 ^ 53)%Z →
  num_add (Finite (inject_Z b)) (of_nat k) = Finite (inject_Z (portAt b k)).
Proof.
  intros Hb Hk. unfold num_add, of_nat, portAt in *.
  rewrite (round64_comp _ (inject_Z (b + Z.of_nat k))) by (by rewrite inject_Z_plus).
  apply round64_whole. lia.
Qed.

Lemma Qle_bool_whole (x y : Z) :
  Qle_bool (inject_Z x) (inject_Z y) = bool_decide (x <= y)%Z.
Proof.
  destruct (bool_decide (x <= y)%Z) eqn:Hxy.
  - apply bool_decide_eq_true in Hxy. apply Qle_bool_iff. by rewrite <- Zle_Qle.
  - apply bool_decide_eq_false in Hxy.
    destruct (Qle_bool (inject_Z x) (inject_Z y)) eqn:Hle; [|done].
    apply Qle_bool_iff in Hle. by rewrite <- Zle_Qle in Hle.
Qed.

Lemma isLegalPort_whole (n : Z) :
  isLegalPort (Finite (inject_Z n)) = bool_decide (0 <= n <= 65535)%Z.
Proof.
  unfold isLegalPort, isInteger, num_le, MAX_PORT, of_nat.
  rewrite Qfloor_Z, Qeq_bool_refl. cbn [andb].
  change (inject_Z (Z.of_nat 0)) with (inject_Z 0).
  change 65535%Q with (inject_Z 65535). rewrite !Qle_bool_whole.
  destruct (bool_decide (0 <= n <= 65535)%Z) eqn:Hn.
  - apply bool_decide_eq_true in Hn. by rewrite !bool_decide_eq_true_2 by lia.
  - apply bool_decide_eq_false in Hn. destruct (decide (0 <= n)%Z) as [Hpos|Hneg].
    + rewrite (bool_decide_eq_false_2 (n <= 65535)%Z) by lia. by rewrite andb_false_r.
    + by rewrite (bool_decide_eq_false_2 (0 <= n)%Z) by lia.
Qed.

Lemma testPort_whole available (n : Z) :
  testPort available (Finite (inject_Z n))
  = if bool_decide (0 <= n <= 65535)%Z then Ok (available n)
    else Throw RangeError "Port should be >= 0 and < 65536".
Proof. unfold testPort. rewrite isLegalPort_whole. cbn [to_Z]. by rewrite Qfloor_Z. Qed.

(** The three ways the loop ends, from a turn whose earlier ports were
    all legal. *)
Lemma probe_outcome available (b : Z) (i remaining : nat) :
  (0 <= b)%Z → (portAt b i <= 65536)%Z →
  (∃ k, k < remaining ∧ (portAt b (i + k) <= 65535)%Z
        ∧ available (portAt b (i + k)) = true
        ∧ (∀ j, j < k → available (portAt b (i + j)) = false)
        ∧ probe available (Finite (inject_Z b)) i remaining
          = Ok (Finite (inject_Z (portAt b (i + k)))))
  ∨ ((portAt b (i + remaining) <= 65536)%Z
     ∧ (∀ j, j < remaining → available (portAt b (i + j)) = false)
     ∧ ∃ msg, probe available (Finite (inject_Z b)) i remaining = Throw PlainError msg)
  ∨ ((65536 < portAt b (i + remaining))%Z
     ∧ (∀ j, (portAt b (i + j) <= 65535)%Z → available (portAt b (i + j)) = false)
     ∧ ∃ msg, probe available (Finite (inject_Z b)) i remaining = Throw RangeError msg).
Proof.
  intros Hb. revert i. induction remaining as [|remaining IH]; intros i Hi.
  { right; left. rewrite Nat.add_0_r. split; [done|]. split; [intros j ?; lia|].
    by eexists. }
  cbn [probe]. rewrite num_add_whole by (done || lia).
  rewrite testPort_whole.
  destruct (bool_decide (0 <= portAt b i <= 65535)%Z) eqn:Hlegal.
  - apply bool_decide_eq_true in Hlegal. cbn [rbind].
    destruct (available (portAt b i)) eqn:Hav.
    + left. exists 0. rewrite Nat.add_0_r. split; [lia|]. split; [lia|].
      split; [done|]. split; [intros j ?; lia|done].
    + assert (portAt b (S i) <= 65536)%Z as Hnext by (unfold portAt in *; lia).
      assert (∀ j, portAt b (i + S j) = portAt b (S i + j)) as Hshift.
      { intros j. unfold portAt. f_equal. lia. }
      destruct (IH (S i) Hnext)
        as [(k & Hk & Hle & Hfree & Hbefore & Hrun)
           |[(Hend & Hnone & Hrun)|(Hend & Hnone & Hrun)]].
      * left. exists (S k). rewrite Hshift. split; [lia|]. split; [done|].
        split; [done|]. split; [|done].
        intros j Hj. destruct j as [|j]; [by rewrite Nat.add_0_r|].
        rewrite Hshift. apply Hbefore. lia.
      * right; left. rewrite Hshift. split; [done|]. split; [|done].
        intros j Hj. destruct j as [|j]; [by rewrite Nat.add_0_r|].
        rewrite Hshift. apply Hnone. lia.
      * right; right. rewrite Hshift. split; [done|]. split; [|done].
        intros j Hj. destruct j as [|j]; [by rewrite Nat.add_0_r|].
        rewrite Hshift. apply Hnone. by rewrite <- Hshift.
  - apply bool_decide_eq_false in Hlegal. cbn [rbind].
    assert (portAt b i = 65536)%Z as Hlast by (unfold portAt in *; lia).
    right; right. split; [unfold portAt in *; lia|]. split; [|by eexists].
    intros j Hj. unfold portAt in *. lia.
Qed.

(** X29. From a start port [b] that is legal, a whole number of
    0..65535, [findAvailablePort] probes the ports [b], [b + 1], ... in
    order, [maxAttempts] of them at most (10 by default). It resolves to a
    port exactly when that port is the first of them that is available,
    all before it being legal; it rejects with a plain Error exactly when
    all of them are legal and none is available; and it rejects with the
    RangeError of [listen] exactly when the ports to probe pass 65535 and
    no port up to 65535 is available. One of the three happens. *)
Theorem findAvailablePort_least (available : Z → bool) (b : Z) (maxAttempts : nat) :
  (0 <= b <= 65535)%Z →
  (∀ port,
     findAvailablePort available (Finite (inject_Z b)) maxAttempts = Ok port
     ↔ ∃ k, k < maxAttempts ∧ port = Finite (inject_Z (portAt b k))
            ∧ (portAt b k <= 65535)%Z
            ∧ available (portAt b k) = true
            ∧ ∀ j, j < k → available (portAt b j) = false)
  ∧ ((∃ msg, findAvailablePort available (Finite (inject_Z b)) maxAttempts
             = Throw PlainError msg)
     ↔ (portAt b maxAttempts <= 65536)%Z
       ∧ ∀ j, j < maxAttempts → available (portAt b j) = false)
  ∧ ((∃ msg, findAvailablePort available (Finite (inject_Z b)) maxAttempts
             = Throw RangeError msg)
     ↔ (65536 < portAt b maxAttempts)%Z
       ∧ ∀ j, (portAt b j <= 65535)%Z → available (portAt b j) = false)
  ∧ ((∃ port, findAvailablePort available (Finite (inject_Z b)) maxAttempts = Ok port)
     ∨ (∃ msg, findAvailablePort available (Finite (inject_Z b)) maxAttempts
               = Throw PlainError msg)
     ∨ ∃ msg, findAvailablePort available (Finite (inject_Z b)) maxAttempts
              = Throw RangeError msg).
Proof.
  intros [Hb0 Hb1]. unfold findAvailablePort.
  assert (portAt b 0 <= 65536)%Z as Hstart by (unfold portAt; lia).
  destruct (probe_outcome available b 0 maxAttempts Hb0 Hstart)
    as [(k & Hk & Hle & Hfree & Hbefore & Hrun)
       |[(Hend & Hnone & [msg Hrun])|(Hend & Hnone & [msg Hrun])]];
    cbn [Nat.add] in *; rewrite Hrun.
  - split; [|split; [|split; [|left; by eexists]]].
    + intros port. split.
      * intros [= <-]. by exists k.
      * intros (k' & Hk' & -> & Hle' & Hfree' & Hbefore').
        destruct (Nat.lt_trichotomy k k') as [Hlt|[->|Hlt]]; [|done|].
        -- rewrite (Hbefore' k Hlt) in Hfree. done.
        -- rewrite (Hbefore k' Hlt) in Hfree'. done.
    + split; [by intros [msg ?]|]. intros [_ Hnone].
      rewrite (Hnone k Hk) in Hfree. done.
    + split; [by intros [msg ?]|]. intros [_ Hnone].
      rewrite (Hnone k Hle) in Hfree. done.
  - split; [|split; [|split; [|right; left; by eexists]]].
    + intros port. split; [done|].
      intros (k & Hk & _ & _ & Hfree & _). rewrite (Hnone k Hk) in Hfree. done.
    + split; [done|]. intros _. by eexists.
    + split; [by intros [msg' ?]|]. intros [Hpast _]. lia.
  - split; [|split; [|split; [|right; right; by eexists]]].
    + intros port. split; [done|].
      intros (k & Hk & _ & Hle & Hfree & _). rewrite (Hnone k Hle) in Hfree. done.
    + split; [by intros [msg' ?]|]. intros [Hwithin _]. lia.
    + split; [done|]. intros _. by eexists.
Qed.

(** From the port 1883, free, with the default of ten attempts. *)
Lemma findAvailablePort_least_witness :
  findAvailablePort (λ _, true) (Finite (inject_Z 1883)) MAX_PORT_ATTEMPTS
  = Ok (Finite (inject_Z 1883))
  ↔ ∃ k, k < MAX_PORT_ATTEMPTS
         ∧ Finite (inject_Z 1883) = Finite (inject_Z (portAt 1883 k))
         ∧ (portAt 1883 k <= 65535)%Z
         ∧ (λ _, true) (portAt 1883 k) = true
         ∧ ∀ j, j < k → (λ _, true) (portAt 1883 j) = false.
Proof.
  apply (findAvailablePort_least (λ _, true) 1883 MAX_PORT_ATTEMPTS). lia.
Defined.

(** A start that is no legal port, a whole number above 65535, [NaN] or
    an infinity, makes the first probe reject with the RangeError. *)
Lemma findAvailablePort_illegal_start available (maxAttempts : nat) :
  0 < maxAttempts →
  (∀ b : Z, (65535 < b < 2 ^ 53)%Z →
     ∃ msg, findAvailablePort available (Finite (inject_Z b)) maxAttempts
            = Throw RangeError msg)
  ∧ (∀ basePort, basePort = NaN ∨ basePort = PosInfinity ∨ basePort = NegInfinity →
       ∃ msg, findAvailablePort available basePort maxAttempts = Throw RangeError msg).
Proof.
  intros Hm. destruct maxAttempts as [|n]; [lia|]. unfold findAvailablePort.
  cbn [probe]. split.
  - intros b Hb. rewrite num_add_whole by (unfold portAt; lia).
    rewrite testPort_whole, bool_decide_eq_false_2 by (unfold portAt; lia).
    by eexists.
  - intros basePort [->|[->| ->]]; by eexists.
Qed.

(** With the ports 65530 to 65535 taken, the search from 65530 passes
    the last port and rejects with the RangeError; from 65520 it stops
    after ten ports with the plain Error. *)
Lemma findAvailablePort_last_ports :
  (∃ msg, findAvailablePort lastPortsTaken (Finite (inject_Z 65530)) MAX_PORT_ATTEMPTS
          = Throw RangeError msg)
  ∧ findAvailablePort lastPortsTaken (Finite (inject_Z 65525)) MAX_PORT_ATTEMPTS
    = Ok (Finite (inject_Z 65525))
  ∧ ∃ msg, findAvailablePort (λ _, false) (Finite (inject_Z 65520)) MAX_PORT_ATTEMPTS
           = Throw PlainError msg.
Proof. split; [eexists; by vm_compute|]. split; [by vm_compute|]. eexists. by vm_compute. Qed.

End EmbeddedBrokerProps.
